(** * bayestar: line-of-sight extinction sampler and synthetic catalogue draws

    A shallow embedding of [src/los_sampler.cpp] and of the drawing code of
    [src/data.cpp], with the properties the design document states of them.

    Conventions of the embedding.
    - A C++ [double] is a real number ([R]): rounding, overflow and NaN
      operands are idealised away.  The one special value the code produces
      on purpose, minus infinity, and the special values of [log] at and
      below zero are kept, in [xdouble].  The cast of a double to [int] is
      undefined out of range ([int_cast]): the properties that need it
      defined keep the reddening within [2^30] bins, and the property of
      constant surfaces keeps a row from the top of the grid, margins that
      the rounding of [y += dy] does not use up.  [B64] runs
      [los_integral] on binary64 numbers to show what happens without the
      margin.
    - [unsigned int] values that only count or index are [nat]; where the
      source does arithmetic that can wrap (a subtraction below zero, a
      left shift times a step count) the 32-bit wrap-around is written out.
    - A pointer is [null], [live] (it points to an object) or [dangling]
      (the object was deleted and the pointer not reset).
    - Undefined behaviour and failed assertions are [None]. *)

From Stdlib Require Import Reals Lra Lia ZArith.
From Stdlib Require String.
From Stdlib Require PrimFloat SpecFloat FloatOps Uint63.
From stdpp Require Import base option list.

Local Open Scope R_scope.

(** * The program *)

(** ** Numbers *)

#[global] Instance Rlt_decision : RelDecision Rlt := Rlt_dec.
#[global] Instance Rle_decision : RelDecision Rle := Rle_dec.
#[global] Instance Rgt_decision : RelDecision Rgt := Rgt_dec.
#[global] Instance Rge_decision : RelDecision Rge := Rge_dec.

(** [floor] of <cmath>: the result is again a double. *)
Definition floor (v : R) : R := IZR (Int_part v).

(** The value of the cast [(int)v] where it has one: truncation towards
    zero. *)
Definition to_int (v : R) : Z :=
  if decide (0 <= v) then Int_part v else (- Int_part (- v))%Z.

(** The cast [(int)v] of a double to the 32-bit [int]: undefined when the
    truncated value is not an [int]. *)
Definition int_cast (v : R) : option Z :=
  if decide (- 2 ^ 31 <= to_int v < 2 ^ 31)%Z then Some (to_int v) else None.

(** Results that may be minus infinity or not-a-number. *)
Inductive xdouble : Type :=
  | Fin (v : R)
  | NegInf
  | NaN.

(** [log] of <cmath> on a real argument. *)
Definition log (v : R) : xdouble :=
  if decide (0 < v) then Fin (ln v)
  else if decide (v < 0) then NaN else NegInf.

(** [a + b] with a possibly special left operand and result. *)
Definition xadd (a b : xdouble) : xdouble :=
  match a, b with
  | NaN, _ | _, NaN => NaN
  | NegInf, _ | _, NegInf => NegInf
  | Fin u, Fin v => Fin (u + v)
  end.

(** [a - v] for a real [v]. *)
Definition xsub (a : xdouble) (v : R) : xdouble :=
  match a with
  | Fin u => Fin (u - v)
  | other => other
  end.

Definition wrap32 (z : Z) : Z := (z mod 2 ^ 32)%Z.

(** ** Pointers *)

Inductive ptr (A : Type) : Type :=
  | null
  | live (a : A)
  | dangling.
Arguments null {A}.
Arguments live {A} a.
Arguments dangling {A}.

(** [*p] and [p->]. *)
Definition deref {A} (p : ptr A) : option A :=
  match p with
  | live a => Some a
  | _ => None
  end.

(** [if (p != NULL) { delete p; }] leaves [p] pointing at the freed object;
    deleting it a second time is undefined. *)
Definition delete_if_set {A} (p : ptr A) : option (ptr A) :=
  match p with
  | null => Some null
  | live _ => Some dangling
  | dangling => None
  end.

(** ** Loops *)

(** How a loop body is left: by reaching its end, or by [break] (or, where
    the body returns from the function, by that [return]). *)
Inductive ctl (S : Type) : Type :=
  | Next (s : S)
  | Break (s : S).
Arguments Next {S} s.
Arguments Break {S} s.

Definition ctl_state {S} (c : ctl S) : S :=
  match c with Next s | Break s => s end.

Definition is_break {S} (c : ctl S) : bool :=
  match c with Break _ => true | Next _ => false end.

(** [for (i = lo; i < lo + n; i++) body], no [break]. *)
Fixpoint for_range {S} (n lo : nat) (body : nat -> S -> option S) (s : S)
  : option S :=
  match n with
  | O => Some s
  | Datatypes.S n' => s' ← body lo s; for_range n' (Datatypes.S lo) body s'
  end.

(** The same with [break]. *)
Fixpoint for_break {S} (n lo : nat) (body : nat -> S -> option (ctl S)) (s : S)
  : option (ctl S) :=
  match n with
  | O => Some (Next s)
  | Datatypes.S n' =>
      c ← body lo s;
      match c with
      | Next s' => for_break n' (Datatypes.S lo) body s'
      | Break s' => Some (Break s')
      end
  end.

(** ** Grids and image stacks *)

(** Modelled from the spec: the declaration of [TRect] is in a header that
    is not part of the sources; the design document gives, for each axis
    [a] in {0, 1}, the fields [min[a]], [max[a]], [N_bins[a]] and
    [dx[a]].  A two-element array is a pair: [.1] is index 0 and [.2] is
    index 1. *)
Module TRect.
Record t : Type := mk {
  min : R * R;
  max : R * R;
  N_bins : nat * nat;
  dx : R * R
}.
End TRect.

(** [cv::Mat] holding doubles: its shape and its elements.  A
    default-constructed matrix is empty. *)
Record Mat : Type := mkMat {
  rows : nat;
  cols : nat;
  elems : Z -> Z -> R
}.

Definition empty_Mat : Mat := mkMat 0 0 (fun _ _ => 0).

(** [m.at<double>(i, j)]; an index outside the matrix is undefined. *)
Definition Mat_at (m : Mat) (i j : Z) : option R :=
  if decide (0 <= i < Z.of_nat (rows m))%Z then
    if decide (0 <= j < Z.of_nat (cols m))%Z then Some (elems m i j) else None
  else None.

Record TImgStack : Type := mkImgStack {
  N_images : nat;
  img : ptr (list (ptr Mat));
  rect : ptr TRect.t
}.

(** [TImgStack::TImgStack(size_t)] *)
Definition TImgStack_new (_N_images : nat) : TImgStack :=
  mkImgStack _N_images (live (replicate _N_images (live empty_Mat))) null.

(** [TImgStack::TImgStack(size_t, TRect&)] *)
Definition TImgStack_new_rect (_N_images : nat) (_rect : TRect.t) : TImgStack :=
  mkImgStack _N_images (live (replicate _N_images null)) (live _rect).

(** [delete img[i]] for every non-null slot, then [delete[] img]. *)
Definition delete_images (N : nat) (p : ptr (list (ptr Mat)))
  : option (ptr (list (ptr Mat))) :=
  match p with
  | null => Some null
  | live slots =>
      _ ← for_range N 0 (fun i (u : unit) =>
             q ← slots !! i; _ ← delete_if_set q; Some u) tt;
      Some dangling
  | dangling => None
  end.

(** [TImgStack::resize] *)
Definition resize (s : TImgStack) (_N_images : nat) : option TImgStack :=
  _ ← delete_images (N_images s) (img s);
  rect' ← delete_if_set (rect s);
  Some (mkImgStack _N_images
          (live (replicate _N_images (live empty_Mat)))
          rect').

(** [TImgStack::set_rect] *)
Definition set_rect (s : TImgStack) (_rect : TRect.t) : option TImgStack :=
  match rect s with
  | null => Some (mkImgStack (N_images s) (img s) (live _rect))
  | live _ => Some (mkImgStack (N_images s) (img s) (live _rect))
  | dangling => None
  end.

(** [TImgStack::~TImgStack] *)
Definition destroy (s : TImgStack) : option unit :=
  _ ← delete_images (N_images s) (img s);
  _ ← delete_if_set (rect s);
  Some tt.

Record TLOSMCMCParams : Type := mkParams {
  img_stack : TImgStack;
  p0 : R;
  lnp0 : xdouble;
  EBV_max : R
}.

(** [TLOSMCMCParams::TLOSMCMCParams] *)
Definition TLOSMCMCParams_new (_img_stack : TImgStack) (_p0 _EBV_max : R)
  : TLOSMCMCParams :=
  mkParams _img_stack _p0 (log _p0) _EBV_max.

(** ** [los_integral] *)

(** What a run of [los_integral] does, latest event first: [EvY y] when
    the fractional reddening bin [y] takes a value (at its initialisation
    and at each [y += dy]); [EvAcc k x yf yc v] when [ret[k] += v] is
    executed, [v] being the bilinear sample read from [img[k]] at
    [(x, yf)] and [(x, yc)]. *)
Inductive event : Type :=
  | EvY (y : R)
  | EvAcc (k : nat) (x : Z) (yf yc : Z) (v : R).

(** The local variables of [los_integral]; [y_floor] and [y_ceil] are
    declared without a value. *)
Record los_state : Type := mkLos {
  x : Z;
  y : R;
  y_floor : option R;
  y_ceil : option R;
  ret : list R;
  trace : list event
}.

(** [ret[k] += (y_ceil - y) * img_stack.img[k]->at<double>(x, (int)y_floor)
             + (y - y_floor) * img_stack.img[k]->at<double>(x, (int)y_ceil);] *)
Definition accumulate (stk : TImgStack) (yf yc : R) (k : nat) (s : los_state)
  : option los_state :=
  slots ← deref (img stk);
  p ← slots !! k;
  m ← deref p;
  jf ← int_cast yf;
  a ← Mat_at m (x s) jf;
  jc ← int_cast yc;
  b ← Mat_at m (x s) jc;
  old ← ret s !! k;
  let v := (yc - y s) * a + (y s - yf) * b in
  Some (mkLos (x s) (y s) (y_floor s) (y_ceil s)
          (<[k := old + v]> (ret s))
          (EvAcc k (x s) jf jc v :: trace s)).

(** The body of the loop over [j], with the increment [x++, y += dy] that
    follows a body left at its end. *)
Definition inner_body (stk : TImgStack) (y_max : Z) (dy : R) (j : nat)
    (s : los_state) : option (ctl los_state) :=
  let yf := floor (y s) in
  let yc := yf + 1 in
  let s1 := mkLos (x s) (y s) (Some yf) (Some yc) (ret s) (trace s) in
  jc ← int_cast yc;
  if decide (y_max <= jc)%Z then Some (Break s1)
  else
    jf ← int_cast yf;
    if decide (jf < 0)%Z then Some (Break s1)
    else
      s2 ← for_range (N_images stk) 0 (accumulate stk yf yc) s1;
      Some (Next (mkLos (x s2 + 1) (y s2 + dy) (y_floor s2) (y_ceil s2)
                    (ret s2) (EvY (y s2 + dy) :: trace s2))).

(** The body of the loop over the regions [i]. *)
Definition outer_body (stk : TImgStack) (r : TRect.t) (EBV : list R)
    (N_samples : nat) (y_max : Z) (i : nat) (s : los_state)
  : option (ctl los_state) :=
  e1 ← EBV !! (i + 1)%nat;
  e0 ← EBV !! i;
  let dy := (e1 - e0) / INR N_samples / (TRect.dx r).2 in
  c ← for_break N_samples 0 (inner_body stk y_max dy) s;
  let s' := ctl_state c in
  yc ← y_ceil s';
  jc ← int_cast yc;
  if decide (y_max <= jc)%Z then Some (Break s')
  else
    yf ← y_floor s';
    jf ← int_cast yf;
    if decide (jf < 0)%Z then Some (Break s') else Some (Next s').

(** [los_integral], with its trace.  [ret] is the caller's buffer of
    [N_images] doubles, which the function first zeroes. *)
Definition los_integral_run (stk : TImgStack) (EBV : list R) (N_regions : nat)
  : option los_state :=
  r ← deref (rect stk);
  (* assert(img_stack.rect->N_bins[0] % N_regions == 0); *)
  if decide (N_regions = 0%nat) then None
  else if decide ((TRect.N_bins r).1 `mod` N_regions ≠ 0)%nat then None
  else
    let N_samples := ((TRect.N_bins r).1 `div` N_regions)%nat in
    let y_max := Z.of_nat (TRect.N_bins r).2 in
    e0 ← EBV !! 0%nat;
    let y0 := (e0 - (TRect.min r).2) / (TRect.dx r).2 in
    let s0 := mkLos 0 y0 None None (replicate (N_images stk) 0) [EvY y0] in
    c ← for_break N_regions 0 (outer_body stk r EBV N_samples y_max) s0;
    Some (ctl_state c).

Definition los_integral (stk : TImgStack) (EBV : list R) (N_regions : nat)
  : option (list R) :=
  ret <$> los_integral_run stk EBV N_regions.

(** ** [los_integral] on binary64 numbers *)

(** The same function with [double] as the binary64 numbers of the
    machine, rounding included.  It has no trace: it is there to run the
    code where rounding decides which branch is taken. *)
Module B64.
Import PrimFloat SpecFloat FloatOps.

(** The integer [z] as a double; exact below [2^53]. *)
Definition of_Z (z : Z) : float :=
  if decide (z < 0)%Z then opp (of_uint63 (Uint63.of_Z (- z)))
  else of_uint63 (Uint63.of_Z z).

(** The largest integer that is not above a finite [v]. *)
Definition floor_Z (v : float) : option Z :=
  match Prim2SF v with
  | S754_zero _ => Some 0%Z
  | S754_finite s m e => Some (Z.shiftl (if s then Z.neg m else Z.pos m) e)
  | _ => None
  end.

(** [floor] of <cmath>: a double at or beyond [2^52] is an integer
    already, and so are the infinities and zeros; NaN stays NaN. *)
Definition floor (v : float) : float :=
  if ltb (abs v) (of_Z (2 ^ 52)) then
    match floor_Z v with
    | Some z => if eqb (of_Z z) v then v else of_Z z
    | None => v
    end
  else v.

(** The cast [(int)v]: truncation towards zero, undefined for NaN, the
    infinities and what is not an [int]. *)
Definition int_cast (v : float) : option Z :=
  match Prim2SF v with
  | S754_zero _ => Some 0%Z
  | S754_finite s m e =>
      let a := Z.shiftl (Z.pos m) e in
      let z := if s then (- a)%Z else a in
      if decide (- 2 ^ 31 <= z < 2 ^ 31)%Z then Some z else None
  | _ => None
  end.

(** The exact value of a finite double, [m * 2^e]. *)
Definition SF2R (v : spec_float) : R :=
  match v with
  | S754_finite s m e =>
      IZR (if s then Z.neg m else Z.pos m)
      * match e with
        | Z0 => 1
        | Z.pos p => IZR (Z.pow_pos 2 p)
        | Z.neg p => / IZR (Z.pow_pos 2 p)
        end
  | _ => 0
  end.
Definition to_R (v : float) : R := SF2R (Prim2SF v).

Module TRect.
Record t : Type := mk {
  min : float * float;
  max : float * float;
  N_bins : nat * nat;
  dx : float * float
}.
End TRect.

Record Mat : Type := mkMat {
  rows : nat;
  cols : nat;
  elems : Z -> Z -> float
}.

Definition Mat_at (m : Mat) (i j : Z) : option float :=
  if decide (0 <= i < Z.of_nat (rows m))%Z then
    if decide (0 <= j < Z.of_nat (cols m))%Z then Some (elems m i j) else None
  else None.

Record TImgStack : Type := mkImgStack {
  N_images : nat;
  img : ptr (list (ptr Mat));
  rect : ptr TRect.t
}.

Record los_state : Type := mkLos {
  x : Z;
  y : float;
  y_floor : option float;
  y_ceil : option float;
  ret : list float
}.

Definition accumulate (stk : TImgStack) (yf yc : float) (k : nat)
    (s : los_state) : option los_state :=
  slots ← deref (img stk);
  p ← slots !! k;
  m ← deref p;
  jf ← int_cast yf;
  a ← Mat_at m (x s) jf;
  jc ← int_cast yc;
  b ← Mat_at m (x s) jc;
  old ← ret s !! k;
  let v := add (mul (sub yc (y s)) a) (mul (sub (y s) yf) b) in
  Some (mkLos (x s) (y s) (y_floor s) (y_ceil s) (<[k := add old v]> (ret s))).

Definition inner_body (stk : TImgStack) (y_max : Z) (dy : float) (j : nat)
    (s : los_state) : option (ctl los_state) :=
  let yf := floor (y s) in
  let yc := add yf (of_Z 1) in
  let s1 := mkLos (x s) (y s) (Some yf) (Some yc) (ret s) in
  jc ← int_cast yc;
  if decide (y_max <= jc)%Z then Some (Break s1)
  else
    jf ← int_cast yf;
    if decide (jf < 0)%Z then Some (Break s1)
    else
      s2 ← for_range (N_images stk) 0 (accumulate stk yf yc) s1;
      Some (Next (mkLos (x s2 + 1) (add (y s2) dy) (y_floor s2) (y_ceil s2)
                    (ret s2))).

Definition outer_body (stk : TImgStack) (r : TRect.t) (EBV : list float)
    (N_samples : nat) (y_max : Z) (i : nat) (s : los_state)
  : option (ctl los_state) :=
  e1 ← EBV !! (i + 1)%nat;
  e0 ← EBV !! i;
  let dy :=
    div (div (sub e1 e0) (of_Z (Z.of_nat N_samples))) (TRect.dx r).2 in
  c ← for_break N_samples 0 (inner_body stk y_max dy) s;
  let s' := ctl_state c in
  yc ← y_ceil s';
  jc ← int_cast yc;
  if decide (y_max <= jc)%Z then Some (Break s')
  else
    yf ← y_floor s';
    jf ← int_cast yf;
    if decide (jf < 0)%Z then Some (Break s') else Some (Next s').

Definition los_integral (stk : TImgStack) (EBV : list float) (N_regions : nat)
  : option (list float) :=
  r ← deref (rect stk);
  (* assert(img_stack.rect->N_bins[0] % N_regions == 0); *)
  if decide (N_regions = 0%nat) then None
  else if decide ((TRect.N_bins r).1 `mod` N_regions ≠ 0)%nat then None
  else
    let N_samples := ((TRect.N_bins r).1 `div` N_regions)%nat in
    let y_max := Z.of_nat (TRect.N_bins r).2 in
    e0 ← EBV !! 0%nat;
    let y0 := div (sub e0 (TRect.min r).2) (TRect.dx r).2 in
    let s0 := mkLos 0 y0 None None (replicate (N_images stk) (of_Z 0)) in
    c ← for_break N_regions 0 (outer_body stk r EBV N_samples y_max) s0;
    Some (ret (ctl_state c)).

(** A grid of four distance bins and two reddening bins of width 1, with
    one surface that is 3 everywhere, and the profile from 0 to the
    double next below [4/3], [0x1.5555555555555p+0]. *)
Definition ex_wide_rect : TRect.t :=
  TRect.mk (of_Z 0, of_Z 0) (of_Z 4, of_Z 2) (4%nat, 2%nat) (of_Z 1, of_Z 1).
Definition ex_wide_stack : TImgStack :=
  mkImgStack 1 (live [live (mkMat 4 2 (fun _ _ => of_Z 3))])
    (live ex_wide_rect).
Definition ex_edge_EBV : list float :=
  [of_Z 0; div (of_Z 6004799503160661) (of_Z 4503599627370496)].
End B64.

(** ** [lnp_los_extinction] *)

(** [a[N-1]] for an [unsigned int N]: at [N = 0] the index wraps to
    [2^32 - 1], far outside the vector. *)
Definition at_last (a : list R) (N : nat) : option R :=
  match N with
  | O => None
  | Datatypes.S n => a !! n
  end.

(** The body of the monotonicity loop; [Break] is its [return neginf]. *)
Definition monotone_body (EBV : list R) (i : nat) (u : unit)
  : option (ctl unit) :=
  ei ← EBV !! i;
  ej ← EBV !! (i - 1)%nat;
  let Delta_EBV := ei - ej in
  if decide (Delta_EBV < 0) then Some (Break u) else Some (Next u).

(** The body of the loop that softens and multiplies the line integrals;
    the state is [line_int] and [lnp]. *)
Definition soften_body (p0 : R) (i : nat) (st : list R * xdouble)
  : option (list R * xdouble) :=
  li ← st.1 !! i;
  let line_int :=
    if decide (li < 100000 * p0)
    then <[i := li + p0 * exp (- li / p0)]> st.1
    else st.1 in
  li' ← line_int !! i;
  Some (line_int, xadd st.2 (log li')).

Definition lnp_los_extinction (EBV : list R) (N : nat) (params : TLOSMCMCParams)
  : option xdouble :=
  let stk := img_stack params in
  eN ← at_last EBV N;
  r ← deref (rect stk);
  (* Extinction must not exceed maximum value *)
  if decide (eN >= (TRect.max r).2) then Some NegInf
  else
    (* Extinction must increase monotonically *)
    e0 ← EBV !! 0%nat;
    if decide (e0 < 0) then Some NegInf
    else
      c ← for_break (N - 1) 1 (monotone_body EBV) tt;
      if is_break c then Some NegInf
      else
        (* Compute line integrals through probability surfaces *)
        line_int ← los_integral stk EBV (N - 1);
        (* Soften and multiply line integrals *)
        st ← for_range (N_images stk) 0 (soften_body (p0 params))
               (line_int, Fin 0);
        (* Reddening prior *)
        let lnp :=
          if decide (EBV_max params > 0) then
            if decide (eN > EBV_max params) then
              xsub st.2 (0.5 * (eN - EBV_max params) * (eN - EBV_max params)
                         / (EBV_max params * EBV_max params))
            else st.2
          else st.2 in
        Some lnp.

(** ** [gen_rand_los_extinction] *)

(** GSL's generator, as the sequence of uniform draws it is going to
    return and the number of draws made so far. *)
Record gsl_rng : Type := mkRng {
  draws : nat -> R;
  drawn : nat
}.

Definition gsl_rng_uniform (r : gsl_rng) : R * gsl_rng :=
  (draws r (drawn r), mkRng (draws r) (Datatypes.S (drawn r))).

(** [a[i] = v]; a write outside the array is undefined. *)
Definition store (a : list R) (i : nat) (v : R) : option (list R) :=
  if decide (i < length a)%nat then Some (<[i := v]> a) else None.

(** The body of the loop that fills [EBV]. *)
Definition fill_body (mu : R) (i : nat) (st : list R * gsl_rng)
  : option (list R * gsl_rng) :=
  let '(u, r) := gsl_rng_uniform st.2 in
  EBV ← store st.1 i (0.5 * mu * u);
  EBV' ← (if decide (0 < i)%nat then
            cur ← EBV !! i;
            prev ← EBV !! (i - 1)%nat;
            store EBV i (cur + prev)
          else Some EBV);
  Some (EBV', r).

(** The body of the rescaling loop: [EBV[i] *= factor]. *)
Definition rescale_body (factor : R) (i : nat) (EBV : list R)
  : option (list R) :=
  cur ← EBV !! i;
  store EBV i (cur * factor).

Definition gen_rand_los_extinction (EBV : list R) (N : nat) (r : gsl_rng)
    (params : TLOSMCMCParams) : option (list R * gsl_rng) :=
  rc ← deref (rect (img_stack params));
  let EBV_ceil := (TRect.max rc).2 in
  let mu := EBV_ceil / INR N in
  st ← for_range N 0 (fill_body mu) (EBV, r);
  (* Ensure that reddening is not more than allowed *)
  eN ← at_last st.1 N;
  if decide (eN >= 0.95 * EBV_ceil) then
    let factor := 0.9 * EBV_ceil / eN in
    EBV' ← for_range N 0 (rescale_body factor) st.1;
    Some (EBV', st.2)
  else Some st.

(** ** [sample_los_extinction] *)

(** Modelled from the spec: [TMCMCOptions] is declared in a header that is
    not part of the sources; the driver reads its three counts into
    [unsigned int] variables. *)
Record TMCMCOptions : Type := mkOptions {
  steps : Z;
  samplers : Z;
  N_threads : Z
}.

Definition pdf_t : Type := list R -> nat -> TLOSMCMCParams -> option xdouble.
Definition rand_state_t : Type :=
  list R -> nat -> gsl_rng -> TLOSMCMCParams -> option (list R * gsl_rng).

(** Modelled from the spec: the ensemble sampler
    [TParallelAffineSampler<TLOSMCMCParams, TNullLogger>] is a template
    class that is not part of the sources.  The driver uses it through the
    calls below; [S] is the sampler object and [Chain] what [get_chain]
    hands out.  [get_GR_diagnostic] gives the values written to the
    caller's array, first dimension first. *)
Class AffineSampler (S Chain : Type) : Type := {
  construct : pdf_t -> rand_state_t -> Z -> Z -> TLOSMCMCParams -> Z -> S;
  set_scale : R -> S -> S;
  set_replacement_bandwidth : R -> S -> S;
  step : Z -> bool -> R -> R -> R -> S -> S;
  clear : S -> S;
  get_GR_diagnostic : S -> list R;
  get_chain : S -> Chain
}.

(** What the driver leaves behind: the chain handed to [chain.save] with
    the file and pixel it is saved under, the convergence flag that is
    reported, and the sampler. *)
Record los_output (S Chain : Type) : Type := mkOutput {
  saved_chain : Chain;
  saved_fname : String.string;
  saved_pixel : Z;
  converged : bool;
  final_sampler : S
}.
Arguments mkOutput {S Chain}.
Arguments saved_chain {S Chain}.
Arguments saved_fname {S Chain}.
Arguments saved_pixel {S Chain}.
Arguments converged {S Chain}.
Arguments final_sampler {S Chain}.

Section Driver.
Context {S Chain : Type} `{AffineSampler S Chain}.

Definition max_attempts : nat := 3.
Definition GR_threshold : R := 1.2.

(** The burn-in schedule.  The step counts are the values of the casts
    [int(N_steps*20./100.)] and [int(N_steps*5./100.)], which are defined
    for every [unsigned int N_steps]. *)
Definition burn_in (N_steps : Z) (sampler : S) : S :=
  let sampler := step (to_int (IZR N_steps * 20 / 100)) false 0 0.5 0 sampler in
  let sampler := step (to_int (IZR N_steps * 5 / 100)) false 0 1 0 sampler in
  let sampler := step (to_int (IZR N_steps * 20 / 100)) false 0 0.5 0 sampler in
  let sampler := step (to_int (IZR N_steps * 5 / 100)) false 0 1 0 sampler in
  let sampler := step (to_int (IZR N_steps * 20 / 100)) false 0 0.5 0 sampler in
  let sampler := step (to_int (IZR N_steps * 5 / 100)) false 0 1 0 sampler in
  let sampler := step (to_int (IZR N_steps * 20 / 100)) false 0 0.5 0 sampler in
  let sampler := step (to_int (IZR N_steps * 5 / 100)) false 0 1 0 sampler in
  clear sampler.

(** The body of the loop over the dimensions [i] of the diagnostic; the
    state is the sampler and [converged]. *)
Definition GR_body (N_steps : Z) (attempt : nat) (GR : list R) (i : nat)
    (st : S * bool) : option (ctl (S * bool)) :=
  g ← GR !! i;
  if decide (g > GR_threshold) then
    let sampler :=
      if decide (attempt ≠ max_attempts - 1)%nat then
        (* Extending run ... *)
        clear (step (to_int (IZR N_steps * 1 / 5)) false 0 1 0 st.1)
      else st.1 in
    Some (Break (sampler, false))
  else Some (Next st).

(** The body of the main loop; its condition
    [(attempt < max_attempts) && (!converged)] is the loop bound and the
    [Break] at the head. *)
Definition attempt_body (N_steps : Z) (ndim : Z) (attempt : nat)
    (st : S * bool) : option (ctl (S * bool)) :=
  if st.2 then Some (Break st)
  else
    let sampler :=
      step (wrap32 (2 ^ Z.of_nat attempt * N_steps)) true 0 0.1 0 st.1 in
    let GR := get_GR_diagnostic sampler in
    c ← for_break (Z.to_nat ndim) 0 (GR_body N_steps attempt GR)
          (sampler, true);
    Some (Next (ctl_state c)).

Definition main_run (N_steps : Z) (ndim : Z) (sampler : S)
  : option (S * bool) :=
  c ← for_break max_attempts 0 (attempt_body N_steps ndim) (sampler, false);
  Some (ctl_state c).

Definition sample_los_extinction (out_fname : String.string)
    (options : TMCMCOptions) (img_stack : TImgStack) (N_regions : Z)
    (p0 EBV_max : R) (healpix_index : Z) : option (los_output S Chain) :=
  let params := TLOSMCMCParams_new img_stack p0 EBV_max in
  let N_steps := steps options in
  let N_samplers := samplers options in
  let ndim := wrap32 (N_regions + 1) in
  let sampler :=
    construct lnp_los_extinction gen_rand_los_extinction ndim
      (wrap32 (N_samplers * ndim)) params (N_threads options) in
  let sampler := set_scale 1.1 sampler in
  let sampler := set_replacement_bandwidth 0.75 sampler in
  (* Burn-in *)
  let sampler := burn_in N_steps sampler in
  (* Main run *)
  st ← main_run N_steps ndim sampler;
  let chain := get_chain st.1 in
  Some (mkOutput chain out_fname healpix_index st.2 st.1).
End Driver.

(** ** [TDraw1D] *)

(** Modelled from the spec: [TMultiLinearInterp<double>] is a template
    class that is not part of the sources.  In one dimension it is a table
    of [samples] values on the uniform grid over [[min, max]]; the
    constructor of [TDraw1D] only sets and evaluates it at grid points, so
    a table is the list of its knot values, and [set] and evaluation at
    the coordinate of knot [k] address entry [k]. *)
Definition TMultiLinearInterp : Type := list R.

Definition new_interp (samples : nat) (fill : R) : TMultiLinearInterp :=
  replicate samples fill.

Record TDraw1D : Type := mkDraw1D {
  x_min : R;
  x_max : R;
  x_of_P : TMultiLinearInterp
}.

(** [(double)(n - 1)] for an [unsigned int n]. *)
Definition pred_double (n : nat) : R := IZR (wrap32 (Z.of_nat n - 1)).

(** The body of the loop that tabulates the cumulative [P(x)]; the state
    is the table and the running [P]. *)
Definition cumulate_body (func : R -> R) (x_min dx : R) (samples : nat)
    (is_log : bool) (i : nat) (st : TMultiLinearInterp * R)
  : option (TMultiLinearInterp * R) :=
  let x := x_min + INR i * dx in
  P_of_x ← store st.1 i st.2;
  let P :=
    if decide (i < samples - 1)%nat then
      if is_log then st.2 + dx * exp (func x) else st.2 + dx * func x
    else st.2 in
  Some (P_of_x, P).

(** The body of the search over [k]; the state is [x] and [k_last].  The
    comparison [P_tmp >= P] is on exact values here; on rounded sums the
    first [k] at which it holds can be another, so the properties of the
    constructor are about the shape of the table only. *)
Definition search_body (P_of_x : TMultiLinearInterp) (x_min dx dP P_norm P : R)
    (i : nat) (k : nat) (st : R * nat) : option (ctl (R * nat)) :=
  Pk ← P_of_x !! k;
  let P_tmp := Pk / P_norm in
  if decide (P_tmp >= P) then
    let dPdx := (P_tmp - pred_double i * dP) / dx in
    let x := x_min + pred_double k * dx + dP / dPdx in
    Some (Break (x, (k - 1)%nat))
  else Some (Next (x_min + INR k * dx, st.2)).

(** The body of the loop that fills the inverse table; the state is the
    table, [x] and [k_last]. *)
Definition invert_body (P_of_x : TMultiLinearInterp) (x_min dx dP P_norm : R)
    (samples : nat) (i : nat) (st : TMultiLinearInterp * (R * nat))
  : option (TMultiLinearInterp * (R * nat)) :=
  let P := INR i * dP in
  let k_last := st.2.2 in
  c ← for_break (samples - (k_last + 1)) (k_last + 1)
        (search_body P_of_x x_min dx dP P_norm P i) st.2;
  tab ← store st.1 i (ctl_state c).1;
  Some (tab, ctl_state c).

(** The table of [P(x)] and [P_norm], as the constructor computes them. *)
Definition cumulative (func : R -> R) (_x_min _x_max : R) (samples : nat)
    (is_log : bool) : option (TMultiLinearInterp * R) :=
  let dx := (_x_max - _x_min) / pred_double samples in
  for_range samples 0 (cumulate_body func _x_min dx samples is_log)
    (new_interp samples (-1), 0).

(** [TDraw1D::TDraw1D]; the generator [r] is seeded from the clock and
    does not enter the table. *)
Definition TDraw1D_new (func : R -> R) (_x_min _x_max : R) (samples : nat)
    (is_log : bool) : option TDraw1D :=
  (* assert(samples > 1); *)
  if decide (1 < samples)%nat then
    let dx := (_x_max - _x_min) / pred_double samples in
    (* Construct an interpolator for P(x) *)
    cum ← cumulative func _x_min _x_max samples is_log;
    let P_norm := cum.2 in
    (* Invert the interpolator for get x(P) *)
    let dP := 1 / pred_double samples in
    st ← for_range samples 0
           (invert_body cum.1 _x_min dx dP P_norm samples)
           (new_interp samples (-1), (_x_min + INR (samples - 1) * dx, 0%nat));
    tab ← store st.1 (samples - 1) _x_max;
    Some (mkDraw1D _x_min _x_max tab)
  else None.

(** ** Magnitudes of a synthetic star *)

(** Modelled from the spec: [NBANDS] is a constant of a header that is not
    part of the sources; the generators take [double (&mag_limit)[5]]. *)
Definition NBANDS : nat := 5.

(** [gsl_ran_gaussian_ziggurat(r, sigma)]: [sigma] times the next
    standard normal deviate of the generator. *)
Definition gsl_ran_gaussian_ziggurat (r : gsl_rng) (sigma : R) : R * gsl_rng :=
  (sigma * draws r (drawn r), mkRng (draws r) (Datatypes.S (drawn r))).

(** The local variables of the block that generates magnitudes. *)
Record mag_state : Type := mkMag {
  mag : list R;
  err : list R;
  observed : bool;
  N_nonobs : nat;
  rng : gsl_rng
}.

(** The body of the loop over the bands [k], for star [i] of the
    catalogue.  [cap] tells the two generators apart: the empirical one
    has the line [if(err[k] > 1.5) { err[k] = 1.5; }].  [A k] is
    [ext_model.get_A(RV, k)]. *)
Definition band_body (cap : bool) (i : nat) (absmag : list R) (DM EBV : R)
    (A : nat -> R) (mag_limit : list R) (k : nat) (s : mag_state)
  : option (ctl mag_state) :=
  a ← absmag !! k;
  mag1 ← store (mag s) k (a + DM + EBV * A k);
  mi ← mag1 !! i;
  li ← mag_limit !! i;
  let e := 0.02 + 0.1 * exp (mi - li - 1.5) in
  let e := if cap then (if decide (e > 1.5) then 1.5 else e) else e in
  err1 ← store (err s) k e;
  let '(noise, r) := gsl_ran_gaussian_ziggurat (rng s) e in
  mk ← mag1 !! k;
  mag2 ← store mag1 k (mk + noise);
  (* Require detection in g band and 3 other bands *)
  mk' ← mag2 !! k;
  lk ← mag_limit !! k;
  if decide (mk' > lk) then
    let n := Datatypes.S (N_nonobs s) in
    if decide (k = 0%nat \/ (1 < n)%nat)
    then Some (Break (mkMag mag2 err1 false n r))
    else Some (Next (mkMag mag2 err1 (observed s) n r))
  else Some (Next (mkMag mag2 err1 (observed s) (N_nonobs s) r)).

(** The block [// Generate magnitudes] of [draw_from_synth_model]
    ([cap = false]) and of [draw_from_emp_model] ([cap = true]), entered
    with whatever the arrays [mag] and [err] hold. *)
Definition generate_magnitudes (cap : bool) (i : nat) (absmag : list R)
    (DM EBV : R) (A : nat -> R) (mag_limit mag0 err0 : list R) (r : gsl_rng)
  : option mag_state :=
  c ← for_break NBANDS 0 (band_body cap i absmag DM EBV A mag_limit)
        (mkMag mag0 err0 true 0 r);
  Some (ctl_state c).

Definition generate_magnitudes_synth := generate_magnitudes false.
Definition generate_magnitudes_emp := generate_magnitudes true.

(** * Vocabulary of the properties *)

(** ** Traces of [los_integral] *)

(** The reddening bin [v] is off the grid: [floor(v) + 1 >= N_bins[1]] or
    [floor(v) < 0]. *)
Definition off_grid (N1 : nat) (v : R) : Prop :=
  (Z.of_nat N1 <= Int_part v + 1)%Z \/ (Int_part v < 0)%Z.

(** Both casts of the loop body, [(int)y_ceil] and [(int)y_floor], are
    defined at the reddening bin [v]. *)
Definition casts_defined (v : R) : Prop :=
  (- 2 ^ 31 <= Int_part v)%Z /\ (Int_part v + 1 < 2 ^ 31)%Z.

(** The fractional reddening bin of the reddening [e]:
    [(e - rect.min[1]) / rect.dx[1]]. *)
Definition y_of (r : TRect.t) (e : R) : R :=
  (e - (TRect.min r).2) / (TRect.dx r).2.

(** The bin [v] is well inside the range of [int]: within [2^30] bins of
    zero, so that the casts stay defined when [y += dy] rounds. *)
Definition fits_int (v : R) : Prop := - 2 ^ 30 <= v <= 2 ^ 30.

(** Every entry of the profile maps to a bin well inside the range of
    [int]. *)
Definition profile_fits_int (r : TRect.t) (EBV : list R) : Prop :=
  Forall (fun e => fits_int (y_of r e)) EBV.

Definition is_acc (e : event) : bool :=
  match e with EvAcc _ _ _ _ _ => true | EvY _ => false end.

Definition y_event_in_grid (N1 : nat) (e : event) : Prop :=
  match e with EvY v => ~ off_grid N1 v | EvAcc _ _ _ _ _ => True end.

(** The sum of the samples that a trace records for [ret[k]]. *)
Fixpoint acc_sum (k : nat) (tr : list event) : R :=
  match tr with
  | [] => 0
  | EvAcc k' _ _ _ v :: t =>
      if decide (k' = k) then acc_sum k t + v else acc_sum k t
  | EvY _ :: t => acc_sum k t
  end.

(** What holds of the locals of [los_integral] between two steps: [ret]
    has [N] entries, the latest event is the current [y] and every earlier
    [y] was on the grid, and [ret[k]] is the sum of the recorded samples. *)
Definition trace_inv (N N1 : nat) (s : los_state) : Prop :=
  length (ret s) = N /\
  (exists t, trace s = EvY (y s) :: t /\ Forall (y_event_in_grid N1) t) /\
  (forall k, (k < N)%nat -> ret s !! k = Some (acc_sum k (trace s))).

(** While the surfaces are sampled at one column, [x] and [y] keep their
    values and the trace grows by accumulations only. *)
Definition sampling_inv (s1 : los_state) (s2 : los_state) : Prop :=
  x s2 = x s1 /\ y s2 = y s1 /\
  y_floor s2 = y_floor s1 /\ y_ceil s2 = y_ceil s1 /\
  length (ret s2) = length (ret s1) /\
  (exists accs, trace s2 = accs ++ trace s1 /\
                Forall (fun e => is_acc e = true) accs) /\
  ((forall k, (k < length (ret s1))%nat ->
              ret s1 !! k = Some (acc_sum k (trace s1))) ->
   forall k, (k < length (ret s2))%nat ->
             ret s2 !! k = Some (acc_sum k (trace s2))).

(** ** An example stack *)

(** A stack used in examples: one 2 x 2 surface that is 3 everywhere, on
    the grid [[0, 2] x [0, 2]] with bins of width 1. *)
Definition ex_rect : TRect.t := TRect.mk (0, 0) (2, 2) (2%nat, 2%nat) (1, 1).
Definition ex_mat : Mat := mkMat 2 2 (fun _ _ => 3).
Definition ex_stack : TImgStack :=
  mkImgStack 1 (live [live ex_mat]) (live ex_rect).

(** Parameters over it: floor [p0 = 1], no reddening prior. *)
Definition ex_params : TLOSMCMCParams := TLOSMCMCParams_new ex_stack 1 0.


(** *** Exact values of binary64 inputs *)

Definition ptr_map {A B} (f : A -> B) (p : ptr A) : ptr B :=
  match p with
  | null => null
  | live a => live (f a)
  | dangling => dangling
  end.

Definition exact_rect (r : B64.TRect.t) : TRect.t :=
  TRect.mk (B64.to_R (B64.TRect.min r).1, B64.to_R (B64.TRect.min r).2)
           (B64.to_R (B64.TRect.max r).1, B64.to_R (B64.TRect.max r).2)
           (B64.TRect.N_bins r)
           (B64.to_R (B64.TRect.dx r).1, B64.to_R (B64.TRect.dx r).2).

Definition exact_mat (m : B64.Mat) : Mat :=
  mkMat (B64.rows m) (B64.cols m) (fun i j => B64.to_R (B64.elems m i j)).

(** The stack over [R] that a stack of binary64 numbers stands for. *)
Definition exact_stack (stk : B64.TImgStack) : TImgStack :=
  mkImgStack (B64.N_images stk)
    (ptr_map (fmap (ptr_map exact_mat)) (B64.img stk))
    (ptr_map exact_rect (B64.rect stk)).

(** ** Reads of [los_integral] *)

(** Every surface of the stack is allocated and has the shape of the
    grid, [(N_bins[0], N_bins[1])]. *)
Definition surfaces_shaped (stk : TImgStack) (r : TRect.t) : Prop :=
  forall k, (k < N_images stk)%nat ->
    exists slots m, img stk = live slots /\ slots !! k = Some (live m) /\
                    rows m = (TRect.N_bins r).1 /\ cols m = (TRect.N_bins r).2.

(** An accumulation reads inside the grid, at its floor and at its ceiling
    index. *)
Definition acc_in_bounds (r : TRect.t) (e : event) : Prop :=
  match e with
  | EvY _ => True
  | EvAcc _ x yf yc _ =>
      (0 <= x < Z.of_nat (TRect.N_bins r).1)%Z /\
      (0 <= yf < Z.of_nat (TRect.N_bins r).2)%Z /\
      (0 <= yc < Z.of_nat (TRect.N_bins r).2)%Z
  end.

(** The bilinear sample of surface [m] at column [x] and fractional bin
    [y], between the bins [yf] and [yc]. *)
Definition bilinear (m : Mat) (x : Z) (y yf yc : R) : R :=
  (yc - y) * elems m x (to_int yf) + (y - yf) * elems m x (to_int yc).

(** What sampling all surfaces at one column does to the locals. *)
Definition sampled (stk : TImgStack) (r : TRect.t) (yf yc : R) (n : nat)
    (s s2 : los_state) : Prop :=
  x s2 = x s /\ y s2 = y s /\
  y_floor s2 = y_floor s /\ y_ceil s2 = y_ceil s /\
  length (ret s2) = length (ret s) /\
  (Forall (acc_in_bounds r) (trace s) -> Forall (acc_in_bounds r) (trace s2)) /\
  (forall k slots m old, img stk = live slots -> slots !! k = Some (live m) ->
     ret s !! k = Some old ->
     ret s2 !! k =
       Some (if decide (k < n)%nat
             then old + bilinear m (x s) (y s) yf yc else old)).

(** The tests on [y_floor] and [y_ceil], as the loop over the regions
    repeats them after the loop over [j]. *)
Definition tests_pass (N1 : nat) (s : los_state) : Prop :=
  exists yf yc, y_floor s = Some yf /\ y_ceil s = Some yc /\
                int_cast yc = Some (to_int yc) /\
                int_cast yf = Some (to_int yf) /\
                ~ (Z.of_nat N1 <= to_int yc)%Z /\ ~ (to_int yf < 0)%Z.

Definition tests_fail (N1 : nat) (s : los_state) : Prop :=
  exists yf yc, y_floor s = Some yf /\ y_ceil s = Some yc /\
                int_cast yc = Some (to_int yc) /\
                ((Z.of_nat N1 <= to_int yc)%Z \/
                 (int_cast yf = Some (to_int yf) /\ (to_int yf < 0)%Z)).

(** ** Runs of [los_integral] *)

(** The reddening at distance bin [x] that the design document attaches
    to a profile: inside region [r = x / S], with [S] bins per region,
    [E[r] + ((E[r+1] - E[r]) / S) * (x - r * S)]. *)
Definition reddening_at (EBV : list R) (S x : nat) : R :=
  let r := (x `div` S)%nat in
  default 0 (EBV !! r)
  + (default 0 (EBV !! (r + 1)%nat) - default 0 (EBV !! r)) / INR S
    * (INR x - INR r * INR S).

(** The same in fractional bin units: offset by [-rect.min[1]] and divided
    by [rect.dx[1]]. *)
Definition y_hat (r : TRect.t) (EBV : list R) (S x : nat) : R :=
  (reddening_at EBV S x - (TRect.min r).2) / (TRect.dx r).2.

(** The locals at the head of the loop over [j], in region [i], when
    [n = i * N_samples + j] columns have been sampled: [x] and [y] are
    those of column [n], [ret] has its [N_images] entries, and [P n] holds
    of what has been accumulated. *)
Definition column_inv (stk : TImgStack) (r : TRect.t) (EBV : list R)
    (N_samples : nat) (P : nat -> los_state -> Prop) (i j : nat)
    (s : los_state) : Prop :=
  x s = Z.of_nat (i * N_samples + j) /\
  y s = y_hat r EBV N_samples (i * N_samples + j) /\
  length (ret s) = N_images stk /\
  P (i * N_samples + j)%nat s /\
  ((0 < j)%nat -> tests_pass (TRect.N_bins r).2 s).

(** The locals when the loop over [j] is left by [break], at a column [n]
    whose bin is off the grid. *)
Definition column_halted (stk : TImgStack) (r : TRect.t) (EBV : list R)
    (N_samples : nat) (P : nat -> los_state -> Prop) (s : los_state) : Prop :=
  exists n, (n < (TRect.N_bins r).1)%nat /\
    off_grid (TRect.N_bins r).2 (y_hat r EBV N_samples n) /\
    length (ret s) = N_images stk /\ P n s /\
    tests_fail (TRect.N_bins r).2 s.

(** The same at the head of the loop over the regions, and when that loop
    is left by [break]. *)
Definition region_inv (stk : TImgStack) (r : TRect.t) (EBV : list R)
    (N_samples : nat) (P : nat -> los_state -> Prop) (i : nat)
    (s : los_state) : Prop :=
  x s = Z.of_nat (i * N_samples) /\
  y s = y_hat r EBV N_samples (i * N_samples) /\
  length (ret s) = N_images stk /\
  P (i * N_samples)%nat s.

Definition run_halted (stk : TImgStack) (r : TRect.t) (EBV : list R)
    (N_samples : nat) (P : nat -> los_state -> Prop) (s : los_state) : Prop :=
  exists n, (n < (TRect.N_bins r).1)%nat /\
    off_grid (TRect.N_bins r).2 (y_hat r EBV N_samples n) /\
    length (ret s) = N_images stk /\ P n s.

(** Every read recorded so far is inside the grid. *)
Definition reads_in_bounds (r : TRect.t) (n : nat) (s : los_state) : Prop :=
  Forall (acc_in_bounds r) (trace s).

(** ** Constant surfaces *)

(** Every surface of the stack has the shape of the grid and is [c]
    everywhere. *)
Definition constant_surfaces (stk : TImgStack) (r : TRect.t) (c : R) : Prop :=
  forall k, (k < N_images stk)%nat ->
    exists slots m, img stk = live slots /\ slots !! k = Some (live m) /\
                    rows m = (TRect.N_bins r).1 /\ cols m = (TRect.N_bins r).2 /\
                    forall i j, elems m i j = c.

(** On constant surfaces every entry of [ret] is [c] times the number of
    columns sampled. *)
Definition const_ret (stk : TImgStack) (c : R) (n : nat) (s : los_state)
  : Prop :=
  forall k, (k < N_images stk)%nat -> ret s !! k = Some (c * INR n).



(** ** The log-posterior *)

(** The rejection set of the log-posterior, for a profile of [N] entries:
    (a) [E[N-1] >= rect.max[1]], (b) [E[0] < 0], or (c) some
    [E[i] < E[i-1]] with [1 <= i < N]. *)
Definition rejected (r : TRect.t) (EBV : list R) (N : nat) : Prop :=
  (exists eN, EBV !! (N - 1)%nat = Some eN /\ eN >= (TRect.max r).2) \/
  (exists e0, EBV !! 0%nat = Some e0 /\ e0 < 0) \/
  (exists i ei ej, (1 <= i < N)%nat /\
     EBV !! i = Some ei /\ EBV !! (i - 1)%nat = Some ej /\ ei < ej).

(** What one surface with raw line integral [L] adds to the log-posterior,
    in the words of the design document: [log(L + p0 * exp(-L / p0))]
    when [L < 10^5 * p0], and [log(L)] otherwise. *)
Definition soft_floor_term (p0 L : R) : xdouble :=
  if decide (L < 10 ^ 5 * p0) then log (L + p0 * exp (- L / p0)) else log L.

(** The reddening prior: when [EBV_max > 0] and [E[N-1] > EBV_max],
    subtract [0.5 * (E[N-1] - EBV_max)^2 / EBV_max^2]. *)
Definition with_prior (M eN : R) (lnp : xdouble) : xdouble :=
  if decide (M > 0 /\ eN > M)
  then xsub lnp (0.5 * (eN - M) * (eN - M) / (M * M))
  else lnp.

(** The soften-and-multiply loop after [i] surfaces: the entries of
    [line_int] from [i] on are still the raw integrals [L], and [lnp] is
    the sum of the terms of the first [i]. *)
Definition soften_inv (p0 : R) (L : list R) (i : nat)
    (st : list R * xdouble) : Prop :=
  length st.1 = length L /\
  (forall k, (i <= k)%nat -> st.1 !! k = L !! k) /\
  st.2 = foldl xadd (Fin 0) (soft_floor_term p0 <$> take i L).

(** ** Random initial states *)

(** The [j]-th scaled draw of [gen_rand_los_extinction]:
    [0.5 * mu * U(0,1)], for the generator [r] it is called with. *)
Definition scaled_draw (mu : R) (r : gsl_rng) (j : nat) : R :=
  0.5 * mu * draws r (drawn r + j)%nat.

(** The running sum as the fill loop builds it: [EBV[i] = d i], then
    [EBV[i] += EBV[i-1]] for [i > 0]. *)
Fixpoint psum (d : nat -> R) (j : nat) : R :=
  match j with
  | O => d O
  | Datatypes.S j' => d (Datatypes.S j') + psum d j'
  end.

Definition Rsum (l : list R) : R := foldr Rplus 0 l.

(** The cumulative sums of a list: entry [i] is the sum of the entries
    [0 .. i]. *)
Definition cumulative_sums (l : list R) : list R :=
  (fun i => Rsum (take (Datatypes.S i) l)) <$> seq 0 (length l).

(** The rescaling step of the design document: when the last of the [N]
    entries is at least [0.95 * ceil], every entry is multiplied by
    [0.9 * ceil / E[N-1]]. *)
Definition rescaled (ceil : R) (N : nat) (E : list R) : list R :=
  match E !! (N - 1)%nat with
  | Some eN =>
      if decide (eN >= 0.95 * ceil)
      then (fun e => e * (0.9 * ceil / eN)) <$> E
      else E
  | None => E
  end.

(** The fill loop after [i] entries. *)
Definition fill_inv (mu : R) (r : gsl_rng) (N : nat) (i : nat)
    (st : list R * gsl_rng) : Prop :=
  length st.1 = N /\
  st.2 = mkRng (draws r) (drawn r + i) /\
  (forall j, (j < i)%nat -> st.1 !! j = Some (psum (scaled_draw mu r) j)).

(** ** The main run *)

(** The recorded steps of an attempt of the main run, and the
    transitional steps and [clear()] that precede a retry. *)
Definition recorded {S Chain : Type} `{AffineSampler S Chain}
    (N_steps : Z) (attempt : nat) (sampler : S) : S :=
  step (2 ^ Z.of_nat attempt * N_steps) true 0 0.1 0 sampler.

Definition extended {S Chain : Type} `{AffineSampler S Chain}
    (N_steps : Z) (sampler : S) : S :=
  clear (step (N_steps `div` 5) false 0 1 0 sampler).

(** The recorded steps with the count as the [unsigned int] product
    [(1<<attempt)*N_steps] of the source has it. *)
Definition recorded_wrapped {S Chain : Type} `{AffineSampler S Chain}
    (N_steps : Z) (attempt : nat) (sampler : S) : S :=
  step (wrap32 (2 ^ Z.of_nat attempt * N_steps)) true 0 0.1 0 sampler.

(** Every one of the first [ndim] values of the diagnostic is at most the
    threshold 1.2. *)
Definition GR_converged (ndim : Z) (GR : list R) : Prop :=
  Forall (fun g => g <= 1.2) (take (Z.to_nat ndim) GR).

(** A sampler that only keeps the list of the calls made on it (latest
    first).  Its diagnostic, in two dimensions, is below the threshold
    once the latest call recorded at least 200 steps. *)
Inductive sampler_call : Type :=
  | CallStep (n : Z) (record : bool) (bandwidth : R)
  | CallClear.

Definition logging_GR (s : list sampler_call) : list R :=
  match s with
  | CallStep n true _ :: _ => if decide (200 <= n)%Z then [1; 1] else [1; 2]
  | _ => [1; 1]
  end.

#[global] Instance logging_sampler
  : AffineSampler (list sampler_call) (list sampler_call) := {|
  construct _ _ _ _ _ _ := [];
  set_scale _ s := s;
  set_replacement_bandwidth _ s := s;
  step n record _ bandwidth _ s := CallStep n record bandwidth :: s;
  clear s := CallClear :: s;
  get_GR_diagnostic := logging_GR;
  get_chain s := s
|}.

(** The same log with a diagnostic that never gets below the threshold. *)
Definition restless_sampler
  : AffineSampler (list sampler_call) (list sampler_call) := {|
  construct _ _ _ _ _ _ := [];
  set_scale _ s := s;
  set_replacement_bandwidth _ s := s;
  step n record _ bandwidth _ s := CallStep n record bandwidth :: s;
  clear s := CallClear :: s;
  get_GR_diagnostic _ := [2; 2];
  get_chain s := s
|}.

(** ** Inverse tables *)

(** The inverse table of the design document.  The knots are
    [x_k = x_min + k * dx]; for the target [p], [k] is the smallest index
    with [P(x_k) / P_norm >= p], and the entry is the linear interpolation
    of [x] between [x_{k-1}] and [x_k] at cumulative probability [p]. *)
Definition knot (x_min x_max : R) (samples k : nat) : R :=
  x_min + INR k * ((x_max - x_min) / INR (samples - 1)).

Definition smallest_knot (Pn : list R) (p : R) : option nat :=
  fst <$> list_find (fun v => v >= p) Pn.

Definition interpolated_inverse (x_min x_max : R) (samples : nat)
    (Pn : list R) (p : R) : option R :=
  k ← smallest_knot Pn p;
  match k with
  | O => Some (knot x_min x_max samples 0)
  | Datatypes.S k' =>
      Pk ← Pn !! k;
      Pk' ← Pn !! k';
      Some (knot x_min x_max samples k'
            + (p - Pk') / (Pk - Pk')
              * (knot x_min x_max samples k - knot x_min x_max samples k'))
  end.

Definition inverse_table_entry (func : R -> R) (x_min x_max : R)
    (samples : nat) (is_log : bool) (i : nat) : option R :=
  cum ← cumulative func x_min x_max samples is_log;
  interpolated_inverse x_min x_max samples
    ((fun P => P / cum.2) <$> cum.1) (INR i / INR (samples - 1)).

(** A density on [[0, 2]] that is not uniform: [f(x) = 1 + 2 x]. *)
Definition ex_density (x : R) : R := 1 + 2 * x.

(** ** Noise of the generators *)

(** The standard deviation of the noise that the design document gives a
    band with noiseless magnitude [m] and limit [l]:
    [0.02 + 0.1 * exp(m - l - 1.5)], capped at 1.5 in the empirical
    generator. *)
Definition noise_sd (cap : bool) (m l : R) : R :=
  let e := 0.02 + 0.1 * exp (m - l - 1.5) in
  if cap then (if decide (e > 1.5) then 1.5 else e) else e.

(** A star for the generators: absolute magnitudes 0, 1, 0, 0, 0 at
    distance modulus 0 without reddening, limits of 20 in every band, and
    a generator whose deviates are all zero. *)
Definition ex_absmag : list R := [0; 1; 0; 0; 0].
Definition ex_mag_limit : list R := [20; 20; 20; 20; 20].
Definition ex_rng : gsl_rng := mkRng (fun _ => 0) 0.

(** ** [TImgStack::cull] *)

(** [a[i] = v] on an array of any element type; a write outside the array
    is undefined. *)
Definition store_at {A} (a : list A) (i : nat) (v : A) : option (list A) :=
  if decide (i < length a)%nat then Some (<[i := v]> a) else None.

(** The body of the loop of [cull] over the mask; the state is the new
    array [img_tmp] and the next free index [k]. *)
Definition cull_body (keep : list bool) (p : ptr (list (ptr Mat))) (i : nat)
    (st : list (ptr Mat) * nat) : option (list (ptr Mat) * nat) :=
  kp ← keep !! i;
  slots ← deref p;
  q ← slots !! i;
  if (kp : bool) then
    img_tmp ← store_at st.1 st.2 q;
    Some (img_tmp, Datatypes.S st.2)
  else
    (* delete img[i]; *)
    _ ← delete_if_set q;
    Some st.

(** [TImgStack::cull].  The new array comes from [new cv::Mat*[N_tmp]]:
    its entries are not initialised. *)
Definition cull (s : TImgStack) (keep : list bool) : option TImgStack :=
  (* assert(keep.size() == N_images); *)
  if decide (length keep = N_images s) then
    let N_tmp := length (filter (fun kp => kp = true) keep) in
    st ← for_range (length keep) 0 (cull_body keep (img s))
           (replicate N_tmp dangling, 0%nat);
    (* delete[] img; *)
    _ ← delete_if_set (img s);
    Some (mkImgStack N_tmp (live st.1) (rect s))
  else None.

(** The surfaces whose mask entry is true, in their order. *)
Fixpoint kept (keep : list bool) (slots : list (ptr Mat)) : list (ptr Mat) :=
  match keep, slots with
  | kp :: keep', q :: slots' =>
      if kp then q :: kept keep' slots' else kept keep' slots'
  | _, _ => []
  end.

(** The loop of [cull] after [i] mask entries. *)
Definition cull_inv (keep : list bool) (slots : list (ptr Mat)) (i : nat)
    (st : list (ptr Mat) * nat) : Prop :=
  let done := kept (take i keep) slots in
  st.2 = length done /\
  st.1 = done ++ replicate
                   (length (filter (fun kp => kp = true) keep) - length done)
                   dangling.

(** A stack whose pointers can all be used: the array holds [N_images]
    slots, none of them deleted, and the rect is null or set. *)
Definition stack_ok (s : TImgStack) : Prop :=
  (exists slots, img s = live slots /\ length slots = N_images s /\
                 Forall (fun q => q <> dangling) slots) /\
  rect s <> dangling.

(** The stack of the design document's culling scenario: five surfaces
    holding 0, 1, 2, 3 and 4. *)
Definition ex_surface (v : R) : ptr Mat := live (mkMat 1 1 (fun _ _ => v)).
Definition ex_five : TImgStack :=
  mkImgStack 5
    (live [ex_surface 0; ex_surface 1; ex_surface 2; ex_surface 3; ex_surface 4])
    null.

(** ** Surfaces with bounded values *)

(** Every surface of the stack has the shape of the grid and values
    between 0 and [M]. *)
Definition bounded_surfaces (stk : TImgStack) (r : TRect.t) (M : R) : Prop :=
  forall k, (k < N_images stk)%nat ->
    exists slots m, img stk = live slots /\ slots !! k = Some (live m) /\
                    rows m = (TRect.N_bins r).1 /\ cols m = (TRect.N_bins r).2 /\
                    forall i j, 0 <= elems m i j <= M.

(** Every entry of [ret] lies between 0 and [M] times [n]. *)
Definition ret_in_range (stk : TImgStack) (M : R) (n : nat) (s : los_state)
  : Prop :=
  forall k, (k < N_images stk)%nat ->
    exists v, ret s !! k = Some v /\ 0 <= v <= M * INR n.

(** ** The burn-in *)

(** One of the four blocks of the burn-in: [N_steps / 5] steps with
    bandwidth 0.5, then [N_steps / 20] steps with bandwidth 1, none of
    them recorded. *)
Definition burn_in_block {S Chain : Type} `{AffineSampler S Chain}
    (N_steps : Z) (sampler : S) : S :=
  step (N_steps `div` 20) false 0 1 0
    (step (N_steps `div` 5) false 0 0.5 0 sampler).

(** ** [TStellarData::TMagnitudes::set] *)

(** Modelled from the spec: [TFileData] and [TMagnitudes] are declared in
    a header that is not part of the sources; these are the fields that
    [set] reads and writes, with arrays of [NBANDS] entries. *)
Module TFileData.
Record t : Type := mk {
  obj_id : Z;
  l : R;
  b : R;
  mag : list R;
  err : list R;
  N_det : list Z
}.
End TFileData.

Module TMagnitudes.
Record t : Type := mk {
  obj_id : Z;
  l : R;
  b : R;
  m : list R;
  err : list R;
  lnL_norm : xdouble;
  N_det : list Z
}.
End TMagnitudes.

(** The body of the loop of [set] over the bands; the state is the arrays
    [m], [err] and [N_det] and the running [lnL_norm]. *)
Definition set_body (dat : TFileData.t) (err_floor : R) (i : nat)
    (st : list R * list R * list Z * xdouble)
  : option (list R * list R * list Z * xdouble) :=
  let '(m, err, N_det, lnL_norm) := st in
  dm ← TFileData.mag dat !! i;
  m' ← store m i dm;
  de ← TFileData.err dat !! i;
  err' ← store err i (sqrt (de * de + err_floor * err_floor));
  e ← err' !! i;
  dn ← TFileData.N_det dat !! i;
  N_det' ← store_at N_det i dn;
  Some (m', err', N_det', xadd lnL_norm (log e)).

(** [TStellarData::TMagnitudes::set], called on the object [this]. *)
Definition TMagnitudes_set (this : TMagnitudes.t) (dat : TFileData.t)
    (err_floor : R) : option TMagnitudes.t :=
  st ← for_range NBANDS 0 (set_body dat err_floor)
         (TMagnitudes.m this, TMagnitudes.err this, TMagnitudes.N_det this,
          Fin (INR NBANDS * 0.9189385332));
  let '(m, err, N_det, lnL_norm) := st in
  Some (TMagnitudes.mk (TFileData.obj_id dat) (TFileData.l dat)
          (TFileData.b dat) m err lnL_norm N_det).

(** The loop of [set] after [i] bands. *)
Definition set_inv (this : TMagnitudes.t) (dat : TFileData.t) (err_floor : R)
    (i : nat) (st : list R * list R * list Z * xdouble) : Prop :=
  let '(m, err, N_det, lnL_norm) := st in
  length m = NBANDS /\ length err = NBANDS /\ length N_det = NBANDS /\
  take i m = take i (TFileData.mag dat) /\
  take i N_det = take i (TFileData.N_det dat) /\
  take i err =
    (fun de => sqrt (de * de + err_floor * err_floor))
      <$> take i (TFileData.err dat) /\
  lnL_norm = foldl xadd (Fin (INR NBANDS * 0.9189385332)) (log <$> take i err).

(** A record of the file and an object to set from it. *)
Definition ex_file : TFileData.t :=
  TFileData.mk 7 1 2 [15; 16; 17; 18; 19] [3; 0; 0; 0; 0] [1; 1; 1; 1; 1]%Z.
Definition ex_star : TMagnitudes.t :=
  TMagnitudes.mk 0 0 0 [0; 0; 0; 0; 0] [0; 0; 0; 0; 0] (Fin 0)
    [0; 0; 0; 0; 0]%Z.

(** ** Detection in the catalogue generators *)

(** Band [k] is above its limit: [mag[k] > mag_limit[k]]. *)
Definition above (mag_limit : list R) (s : mag_state) (k : nat) : Prop :=
  exists m l, mag s !! k = Some m /\ mag_limit !! k = Some l /\ m > l.

(** The deviation stored for a band is more than 0.02, and at most 1.5
    in the empirical generator. *)
Definition sd_in_range (cap : bool) (e : R) : Prop :=
  0.02 < e /\ (cap = true -> e <= 1.5).

(** The locals of the magnitude block at the head of the loop over the
    bands, before band [k]. *)
Definition band_inv (cap : bool) (mag_limit : list R) (r0 : gsl_rng)
    (k : nat) (s : mag_state) : Prop :=
  observed s = true /\
  length (mag s) = NBANDS /\ length (err s) = NBANDS /\
  (N_nonobs s <= 1)%nat /\
  (N_nonobs s = 0%nat -> forall k', (k' < k)%nat -> ~ above mag_limit s k') /\
  (N_nonobs s = 1%nat -> exists k', (k' < k)%nat /\ above mag_limit s k') /\
  (forall k1 k2, (k1 < k)%nat -> (k2 < k)%nat ->
     above mag_limit s k1 -> above mag_limit s k2 -> k1 = k2) /\
  ((0 < k)%nat -> ~ above mag_limit s 0) /\
  (forall k' e, (k' < k)%nat -> err s !! k' = Some e -> sd_in_range cap e) /\
  draws (rng s) = draws r0 /\ drawn (rng s) = (drawn r0 + k)%nat.

(** The same when the loop is left by [break]. *)
Definition band_given_up (mag_limit : list R) (r0 : gsl_rng)
    (s : mag_state) : Prop :=
  observed s = false /\
  (exists k, (k < NBANDS)%nat /\ above mag_limit s k /\
             (k = 0%nat \/ exists k', (k' < k)%nat /\ above mag_limit s k') /\
             drawn (rng s) = (drawn r0 + Datatypes.S k)%nat) /\
  draws (rng s) = draws r0.

(** * Properties *)

(** ** Numbers *)

Lemma Int_part_IZR (z : Z) : Int_part (IZR z) = z.
Proof. symmetry. apply Int_part_spec. lra. Qed.

Lemma to_int_IZR (z : Z) : to_int (IZR z) = z.
Proof.
  unfold to_int. case_decide.
  - apply Int_part_IZR.
  - rewrite <- opp_IZR, Int_part_IZR. lia.
Qed.

Lemma to_int_floor (v : R) : to_int (floor v) = Int_part v.
Proof. apply to_int_IZR. Qed.

Lemma to_int_floor_succ (v : R) : to_int (floor v + 1) = (Int_part v + 1)%Z.
Proof. unfold floor. rewrite <- plus_IZR. apply to_int_IZR. Qed.

Lemma Int_part_unique (v : R) (z : Z) : IZR z <= v < IZR z + 1 -> Int_part v = z.
Proof. intros Hz. symmetry. apply Int_part_spec. lra. Qed.

Lemma floor_spec (v : R) : floor v <= v < floor v + 1.
Proof.
  unfold floor. pose proof (base_Int_part v) as [H1 H2]. lra.
Qed.

Lemma int_cast_Some (v : R) (z : Z) : int_cast v = Some z -> z = to_int v.
Proof. unfold int_cast. case_decide; [by intros [= <-]|done]. Qed.

Lemma int_cast_defined (v : R) :
  (- 2 ^ 31 <= to_int v < 2 ^ 31)%Z -> int_cast v = Some (to_int v).
Proof. intros Hv. unfold int_cast. by rewrite decide_True. Qed.

Lemma int_cast_IZR (z : Z) :
  (- 2 ^ 31 <= z < 2 ^ 31)%Z -> int_cast (IZR z) = Some z.
Proof.
  intros Hz. rewrite int_cast_defined; rewrite to_int_IZR; done.
Qed.

Lemma int_cast_floor (v : R) :
  casts_defined v -> int_cast (floor v) = Some (to_int (floor v)).
Proof.
  intros [H1 H2]. apply int_cast_defined. rewrite to_int_floor. lia.
Qed.

Lemma int_cast_floor_succ (v : R) :
  casts_defined v -> int_cast (floor v + 1) = Some (to_int (floor v + 1)).
Proof.
  intros [H1 H2]. apply int_cast_defined. rewrite to_int_floor_succ. lia.
Qed.

Lemma fits_int_casts_defined (v : R) : fits_int v -> casts_defined v.
Proof.
  intros [Hlo Hhi]. pose proof (floor_spec v) as [Hf1 Hf2]. unfold floor in *.
  assert (IZR (-1073741825) < IZR (Int_part v)) as H1 by lra.
  assert (IZR (Int_part v) <= IZR 1073741824) as H2 by lra.
  apply lt_IZR in H1. apply le_IZR in H2. unfold casts_defined. lia.
Qed.

Lemma to_int_div (n d : Z) :
  (0 <= n)%Z -> (0 < d)%Z -> to_int (IZR n / IZR d) = (n `div` d)%Z.
Proof.
  intros Hn Hd.
  assert (0 < IZR d) as Hd' by (apply (IZR_lt 0); lia).
  pose proof (Z.div_mod n d ltac:(lia)) as Hdm.
  pose proof (Z.mod_pos_bound n d Hd) as Hm.
  assert (IZR n = IZR d * IZR (n `div` d) + IZR (n `mod` d)) as Hr.
  { rewrite <- mult_IZR, <- plus_IZR. f_equal. exact Hdm. }
  assert (0 <= IZR (n `mod` d) < IZR d) as [Hm0 Hm1].
  { split; [apply (IZR_le 0) | apply IZR_lt]; lia. }
  assert (IZR (n `div` d) <= IZR n / IZR d < IZR (n `div` d) + 1) as Hq.
  { split.
    - apply Rmult_le_reg_r with (IZR d); [exact Hd'|].
      unfold Rdiv. rewrite Rmult_assoc, Rinv_l by lra. lra.
    - apply Rmult_lt_reg_r with (IZR d); [exact Hd'|].
      unfold Rdiv. rewrite Rmult_assoc, Rinv_l by lra. lra. }
  unfold to_int. case_decide as H0.
  - apply Int_part_unique. exact Hq.
  - exfalso. apply H0.
    assert (0 <= IZR (n `div` d)) by (apply (IZR_le 0); apply Z.div_pos; lia).
    lra.
Qed.

(** ** Loops *)

Section LoopRules.
Context {S : Type}.

Lemma for_range_inv (I : nat -> S -> Prop) body n lo s s' :
  for_range n lo body s = Some s' ->
  I lo s ->
  (forall j t t', (lo <= j < lo + n)%nat -> I j t -> body j t = Some t' ->
                  I (Datatypes.S j) t') ->
  I (lo + n)%nat s'.
Proof.
  revert lo s. induction n as [|n IH]; intros lo s Hrun Hlo Hstep; simpl in Hrun.
  - injection Hrun as <-. by rewrite Nat.add_0_r.
  - destruct (body lo s) as [t|] eqn:Hb; simpl in Hrun; [|done].
    replace (lo + Datatypes.S n)%nat with (Datatypes.S lo + n)%nat by lia.
    apply (IH _ t); [done| |].
    + apply (Hstep lo s t); [lia|done|done].
    + intros j u u' Hj. apply Hstep. lia.
Qed.

Lemma for_range_total (I : nat -> S -> Prop) body n lo s :
  I lo s ->
  (forall j t, (lo <= j < lo + n)%nat -> I j t ->
               exists t', body j t = Some t' /\ I (Datatypes.S j) t') ->
  exists s', for_range n lo body s = Some s' /\ I (lo + n)%nat s'.
Proof.
  revert lo s. induction n as [|n IH]; intros lo s Hlo Hstep; simpl.
  - exists s. by rewrite Nat.add_0_r.
  - destruct (Hstep lo s) as (t & Hb & Ht); [lia|done|].
    rewrite Hb. simpl.
    replace (lo + Datatypes.S n)%nat with (Datatypes.S lo + n)%nat by lia.
    apply IH; [done|]. intros j u Hj. apply Hstep. lia.
Qed.

Lemma for_break_inv (I : nat -> S -> Prop) (Q : S -> Prop) body n lo s c :
  for_break n lo body s = Some c ->
  I lo s ->
  (forall j t c', (lo <= j < lo + n)%nat -> I j t -> body j t = Some c' ->
     match c' with Next t' => I (Datatypes.S j) t' | Break t' => Q t' end) ->
  match c with Next s' => I (lo + n)%nat s' | Break s' => Q s' end.
Proof.
  revert lo s. induction n as [|n IH]; intros lo s Hrun Hlo Hstep; simpl in Hrun.
  - injection Hrun as <-. by rewrite Nat.add_0_r.
  - destruct (body lo s) as [c'|] eqn:Hb; simpl in Hrun; [|done].
    pose proof (Hstep lo s c' ltac:(lia) Hlo Hb) as Hc'.
    destruct c' as [t|t].
    + replace (lo + Datatypes.S n)%nat with (Datatypes.S lo + n)%nat by lia.
      apply (IH _ t); [done|done|].
      intros j u u' Hj. apply Hstep. lia.
    + by injection Hrun as <-.
Qed.

Lemma for_break_total (I : nat -> S -> Prop) (Q : S -> Prop) body n lo s :
  I lo s ->
  (forall j t, (lo <= j < lo + n)%nat -> I j t ->
     exists c', body j t = Some c' /\
       match c' with Next t' => I (Datatypes.S j) t' | Break t' => Q t' end) ->
  exists c, for_break n lo body s = Some c /\
    match c with Next s' => I (lo + n)%nat s' | Break s' => Q s' end.
Proof.
  revert lo s. induction n as [|n IH]; intros lo s Hlo Hstep; simpl.
  - exists (Next s). by rewrite Nat.add_0_r.
  - destruct (Hstep lo s) as (c' & Hb & Hc'); [lia|done|].
    rewrite Hb. simpl. destruct c' as [t|t].
    + replace (lo + Datatypes.S n)%nat with (Datatypes.S lo + n)%nat by lia.
      apply IH; [done|]. intros j u Hj. apply Hstep. lia.
    + by exists (Break t).
Qed.
End LoopRules.

(** ** Running [los_integral] on an example *)

Lemma floor_IZR z : floor (IZR z) = IZR z.
Proof. unfold floor. by rewrite Int_part_IZR. Qed.

Example ex_inner_body_0 :
  inner_body ex_stack 2 1 0 (mkLos 0 0 None None [0] [EvY 0]) =
  Some (Next (mkLos 1 1 (Some 0) (Some 1) [3] [EvY 1; EvAcc 0 0 0 1 3; EvY 0])).
Proof.
  unfold inner_body. cbn [x y ret trace y_floor y_ceil].
  rewrite (floor_IZR 0). replace (0 + 1) with 1 by lra.
  rewrite !int_cast_IZR by lia. cbn [mbind option_bind].
  rewrite decide_False by lia. rewrite decide_False by lia.
  cbn [for_range ex_stack N_images]. unfold accumulate. simpl.
  rewrite !int_cast_IZR by lia. unfold Mat_at. simpl.
  repeat f_equal; lra.
Qed.

Example ex_inner_body_1 :
  inner_body ex_stack 2 1 1
    (mkLos 1 1 (Some 0) (Some 1) [3] [EvY 1; EvAcc 0 0 0 1 3; EvY 0]) =
  Some (Break (mkLos 1 1 (Some 1) (Some 2) [3] [EvY 1; EvAcc 0 0 0 1 3; EvY 0])).
Proof.
  unfold inner_body. cbn [x y ret trace y_floor y_ceil].
  rewrite (floor_IZR 1). replace (1 + 1) with 2 by lra.
  rewrite !int_cast_IZR by lia. cbn [mbind option_bind].
  by rewrite decide_True by lia.
Qed.

Example los_integral_run_example :
  los_integral_run ex_stack [0; 2] 1 =
  Some (mkLos 1 1 (Some 1) (Some 2) [3] [EvY 1; EvAcc 0 0 0 1 3; EvY 0]).
Proof.
  unfold los_integral_run. cbn -[for_break outer_body].
  case_decide; [done|]. case_decide; [done|].
  replace ((0 - 0) / 1) with 0 by lra.
  cbn [for_break]. unfold outer_body. cbn -[for_break inner_body].
  replace ((2 - 0) / (1 + 1) / 1) with 1 by lra.
  cbn [for_break]. change (Z.of_nat 2) with 2%Z.
  rewrite ex_inner_body_0. cbn [mbind option_bind].
  rewrite ex_inner_body_1. cbn [mbind option_bind ctl_state y_ceil].
  rewrite int_cast_IZR by lia. cbn [mbind option_bind].
  by rewrite decide_True by lia.
Qed.

(** ** The trace of [los_integral] *)

Lemma accumulate_Some stk yf yc k s s' :
  accumulate stk yf yc k s = Some s' ->
  exists slots m a b old,
    img stk = live slots /\ slots !! k = Some (live m) /\
    Mat_at m (x s) (to_int yf) = Some a /\
    Mat_at m (x s) (to_int yc) = Some b /\
    ret s !! k = Some old /\
    s' = mkLos (x s) (y s) (y_floor s) (y_ceil s)
           (<[k := old + ((yc - y s) * a + (y s - yf) * b)]> (ret s))
           (EvAcc k (x s) (to_int yf) (to_int yc)
              ((yc - y s) * a + (y s - yf) * b) :: trace s).
Proof.
  unfold accumulate. intros Hacc.
  destruct (img stk) as [|slots|] eqn:Himg; simpl in Hacc; try done.
  destruct (slots !! k) as [[|m|]|] eqn:Hk; simpl in Hacc; try done.
  destruct (int_cast yf) as [jf|] eqn:Hjf; simpl in Hacc; try done.
  apply int_cast_Some in Hjf as ->.
  destruct (Mat_at m (x s) (to_int yf)) as [a|] eqn:Ha; simpl in Hacc; try done.
  destruct (int_cast yc) as [jc|] eqn:Hjc; simpl in Hacc; try done.
  apply int_cast_Some in Hjc as ->.
  destruct (Mat_at m (x s) (to_int yc)) as [b|] eqn:Hb; simpl in Hacc; try done.
  destruct (ret s !! k) as [old|] eqn:Hold; simpl in Hacc; try done.
  injection Hacc as <-. by exists slots, m, a, b, old.
Qed.

Lemma sampling_inv_refl s : sampling_inv s s.
Proof.
  split_and!; try done. by exists [].
Qed.

Lemma accumulate_sampling_inv stk yf yc k s1 s s' :
  sampling_inv s1 s -> accumulate stk yf yc k s = Some s' -> sampling_inv s1 s'.
Proof.
  intros (Hx & Hy & Hf & Hc & Hlen & (accs & Htr & Haccs) & Hsum) Hacc.
  apply accumulate_Some in Hacc as (slots & m & a & b & old & _ & _ & _ & _ & Hold & ->).
  unfold sampling_inv. simpl. split_and!; try done.
  - by rewrite length_insert.
  - eexists (_ :: accs). rewrite Htr. split; [done|]. by constructor.
  - intros H1 k'. rewrite length_insert. intros Hk'.
    specialize (Hsum H1 k' Hk').
    simpl. destruct (decide (k = k')) as [->|Hne].
    + rewrite list_lookup_insert_eq by done.
      rewrite Hold in Hsum. by injection Hsum as ->.
    + by rewrite list_lookup_insert_ne.
Qed.

Lemma sample_all_sampling_inv stk yf yc n lo s1 s2 :
  for_range n lo (accumulate stk yf yc) s1 = Some s2 -> sampling_inv s1 s2.
Proof.
  intros Hrun.
  apply (for_range_inv (fun _ s => sampling_inv s1 s) _ _ _ _ _ Hrun).
  - apply sampling_inv_refl.
  - intros j t t' _. apply accumulate_sampling_inv.
Qed.

Lemma off_grid_tests (N1 : nat) (v : R) :
  ~ (Z.of_nat N1 <= to_int (floor v + 1))%Z -> ~ (to_int (floor v) < 0)%Z ->
  ~ off_grid N1 v.
Proof.
  rewrite to_int_floor_succ, to_int_floor. unfold off_grid. tauto.
Qed.

Lemma inner_body_trace_inv stk N N1 dy j s c :
  trace_inv N N1 s ->
  inner_body stk (Z.of_nat N1) dy j s = Some c ->
  trace_inv N N1 (ctl_state c).
Proof.
  intros (Hlen & (t & Htr & Ht) & Hsum). unfold inner_body.
  destruct (int_cast (floor (y s) + 1)) as [jc|] eqn:Hjc; simpl; [|done].
  apply int_cast_Some in Hjc as ->.
  case_decide as Hc; [intros [= <-]; split_and!; simpl; eauto|].
  destruct (int_cast (floor (y s))) as [jf|] eqn:Hjf; simpl; [|done].
  apply int_cast_Some in Hjf as ->.
  case_decide as Hf; [intros [= <-]; split_and!; simpl; eauto|].
  destruct (for_range _ _ _ _) as [s2|] eqn:Hk; simpl; [|done].
  intros [= <-]. simpl.
  apply sample_all_sampling_inv in Hk
    as (Hx & Hy & _ & _ & Hlen2 & (accs & Hacc & Haccs) & Hsum2).
  simpl in *. unfold trace_inv. simpl. split_and!.
  - congruence.
  - eexists. split; [done|]. rewrite Hacc, Htr.
    apply Forall_app. split.
    + eapply Forall_impl; [exact Haccs|]. by intros [].
    + constructor; [|done]. simpl. by apply off_grid_tests.
  - intros k Hk'. apply Hsum2; [|lia].
    intros k' Hk''. apply Hsum. lia.
Qed.

Lemma outer_body_trace_inv stk r EBV N_samples N N1 i s c :
  trace_inv N N1 s ->
  outer_body stk r EBV N_samples (Z.of_nat N1) i s = Some c ->
  trace_inv N N1 (ctl_state c).
Proof.
  intros Hs. unfold outer_body.
  destruct (EBV !! (i + 1)%nat) as [e1|]; simpl; [|done].
  destruct (EBV !! i) as [e0|]; simpl; [|done].
  destruct (for_break _ _ _ _) as [c'|] eqn:Hin; simpl; [|done].
  assert (trace_inv N N1 (ctl_state c')) as Hc'.
  { pose proof (for_break_inv (fun _ t => trace_inv N N1 t) (trace_inv N N1)
                  _ _ _ _ _ Hin Hs) as Hinv.
    destruct c'; apply Hinv; intros j t c'' _ Ht Hb;
      apply inner_body_trace_inv with (N := N) in Hb; try done; by destruct c''. }
  destruct (y_ceil _); simpl; [|done].
  destruct (int_cast _); simpl; [|done].
  case_decide; [by intros [= <-]|].
  destruct (y_floor _); simpl; [|done].
  destruct (int_cast _); simpl; [|done].
  case_decide; by intros [= <-].
Qed.

Lemma los_integral_run_trace_inv stk EBV N_regions s :
  los_integral_run stk EBV N_regions = Some s ->
  exists r, rect stk = live r /\ trace_inv (N_images stk) (TRect.N_bins r).2 s.
Proof.
  unfold los_integral_run.
  destruct (rect stk) as [|r|]; simpl; try done.
  case_decide; [done|]. case_decide; [done|].
  destruct (EBV !! 0%nat) as [e0|]; simpl; [|done].
  destruct (for_break _ _ _ _) as [c|] eqn:Hout; simpl; [|done].
  intros [= <-]. exists r. split; [done|].
  set (N := N_images stk). set (N1 := (TRect.N_bins r).2).
  assert (trace_inv N N1
            (mkLos 0 ((e0 - (TRect.min r).2) / (TRect.dx r).2) None None
               (replicate N 0) [EvY ((e0 - (TRect.min r).2) / (TRect.dx r).2)]))
    as Hinit.
  { unfold trace_inv. simpl. split_and!.
    - apply length_replicate.
    - by exists [].
    - intros k Hk. by rewrite lookup_replicate_2. }
  pose proof (for_break_inv (fun _ t => trace_inv N N1 t) (trace_inv N N1)
                _ _ _ _ _ Hout Hinit) as Hinv.
  destruct c; apply Hinv; intros j t c' _ Ht Hb;
    apply outer_body_trace_inv with (N := N) in Hb; try done; by destruct c'.
Qed.

(** C7: in the trace of any run of [los_integral], nothing follows a
    value of [y] with [floor(y) + 1 >= N_bins[1]] or [floor(y) < 0]: once
    [y] reaches such a value no further bilinear sample is accumulated,
    neither for the remaining [x] of the region nor in any later region,
    and every [ret[k]] is the sum of the samples recorded before. *)
Theorem los_integral_halts_off_grid stk r EBV N_regions s later v earlier :
  los_integral_run stk EBV N_regions = Some s ->
  rect stk = live r ->
  trace s = later ++ EvY v :: earlier ->
  off_grid (TRect.N_bins r).2 v ->
  later = [] /\
  forall k, (k < N_images stk)%nat -> ret s !! k = Some (acc_sum k earlier).
Proof.
  intros Hrun Hr Htr Hoff.
  apply los_integral_run_trace_inv in Hrun as (r' & Hr' & Hlen & (t & Ht & Hgood) & Hsum).
  rewrite Hr in Hr'. injection Hr' as <-.
  assert (later = []) as ->.
  { destruct later as [|e later]; [done|]. exfalso.
    rewrite Ht in Htr. injection Htr as _ ->.
    apply Forall_app in Hgood as [_ Hgood].
    apply Forall_cons in Hgood as [Hv _]. by apply Hv. }
  split; [done|]. intros k Hk. rewrite (Hsum k Hk), Htr. done.
Qed.

(** ** Reads of [los_integral] stay inside the surfaces *)

Lemma Mat_at_in_range m i j :
  (0 <= i < Z.of_nat (rows m))%Z -> (0 <= j < Z.of_nat (cols m))%Z ->
  Mat_at m i j = Some (elems m i j).
Proof.
  intros Hi Hj. unfold Mat_at. by rewrite !decide_True.
Qed.

Lemma sample_all_total stk r yf yc s :
  surfaces_shaped stk r ->
  length (ret s) = N_images stk ->
  (0 <= x s < Z.of_nat (TRect.N_bins r).1)%Z ->
  int_cast yf = Some (to_int yf) -> int_cast yc = Some (to_int yc) ->
  (0 <= to_int yf < Z.of_nat (TRect.N_bins r).2)%Z ->
  (0 <= to_int yc < Z.of_nat (TRect.N_bins r).2)%Z ->
  exists s2, for_range (N_images stk) 0 (accumulate stk yf yc) s = Some s2 /\
             sampled stk r yf yc (N_images stk) s s2.
Proof.
  intros Hshape Hlen Hx Hjf Hjc Hyf Hyc.
  apply (for_range_total (fun k t => sampled stk r yf yc k s t)).
  - unfold sampled. split_and!; try done.
  - intros k t Hk (Htx & Hty & Htf & Htc & Htlen & Httr & Htret).
    destruct (Hshape k ltac:(lia)) as (slots & m & Himg & Hslot & Hrows & Hcols).
    destruct (lookup_lt_is_Some_2 (ret s) k ltac:(lia)) as [old Hold].
    pose proof (Htret k slots m old Himg Hslot Hold) as Hcur.
    rewrite decide_False in Hcur by lia.
    unfold accumulate. rewrite Himg. simpl. rewrite Hslot. simpl.
    rewrite Hjf. simpl.
    rewrite Mat_at_in_range by (rewrite ?Hrows, ?Hcols; lia). simpl.
    rewrite Hjc. simpl.
    rewrite Mat_at_in_range by (rewrite ?Hrows, ?Hcols; lia). simpl.
    rewrite Hcur. simpl.
    eexists. split; [done|].
    unfold sampled. simpl. split_and!; try done.
    + by rewrite length_insert.
    + intros Htr. constructor; [|by apply Httr]. simpl. lia.
    + intros k' slots' m' old' Himg' Hslot' Hold'.
      destruct (decide (k' = k)) as [->|Hne].
      * rewrite list_lookup_insert_eq by lia.
        rewrite Himg in Himg'. injection Himg' as <-.
        rewrite Hslot in Hslot'. injection Hslot' as <-.
        rewrite Hold in Hold'. injection Hold' as <-.
        rewrite decide_True by lia. unfold bilinear. by rewrite Htx, Hty.
      * rewrite list_lookup_insert_ne by done.
        rewrite (Htret k' slots' m' old' Himg' Hslot' Hold').
        repeat case_decide; try done; lia.
Qed.

Lemma inner_body_off_grid stk N1 dy j s :
  casts_defined (y s) ->
  off_grid N1 (y s) ->
  inner_body stk (Z.of_nat N1) dy j s =
  Some (Break (mkLos (x s) (y s) (Some (floor (y s))) (Some (floor (y s) + 1))
                 (ret s) (trace s))).
Proof.
  intros Hcast Hoff. unfold inner_body, off_grid in *.
  rewrite int_cast_floor_succ by done. cbn [mbind option_bind].
  rewrite to_int_floor_succ. case_decide; [done|].
  rewrite int_cast_floor by done. cbn [mbind option_bind].
  rewrite to_int_floor. case_decide; [done|]. lia.
Qed.

Lemma inner_body_in_grid stk r dy j s :
  surfaces_shaped stk r ->
  length (ret s) = N_images stk ->
  (0 <= x s < Z.of_nat (TRect.N_bins r).1)%Z ->
  casts_defined (y s) ->
  ~ off_grid (TRect.N_bins r).2 (y s) ->
  exists s2,
    sampled stk r (floor (y s)) (floor (y s) + 1) (N_images stk)
      (mkLos (x s) (y s) (Some (floor (y s))) (Some (floor (y s) + 1))
         (ret s) (trace s)) s2 /\
    inner_body stk (Z.of_nat (TRect.N_bins r).2) dy j s =
    Some (Next (mkLos (x s2 + 1) (y s2 + dy) (y_floor s2) (y_ceil s2)
                  (ret s2) (EvY (y s2 + dy) :: trace s2))).
Proof.
  intros Hshape Hlen Hx Hcast Hin. unfold inner_body, off_grid in *.
  destruct (sample_all_total stk r (floor (y s)) (floor (y s) + 1)
              (mkLos (x s) (y s) (Some (floor (y s))) (Some (floor (y s) + 1))
                 (ret s) (trace s))) as (s2 & Hrun & Hs2); try done.
  - by apply int_cast_floor.
  - by apply int_cast_floor_succ.
  - rewrite to_int_floor. lia.
  - rewrite to_int_floor_succ. lia.
  - exists s2. split; [done|].
    rewrite int_cast_floor_succ by done. cbn [mbind option_bind].
    rewrite to_int_floor_succ. rewrite decide_False by lia.
    rewrite int_cast_floor by done. cbn [mbind option_bind].
    rewrite to_int_floor. rewrite decide_False by lia.
    by rewrite Hrun.
Qed.

Lemma outer_tests_pass N1 s :
  tests_pass N1 s ->
  (yc ← y_ceil s;
   jc ← int_cast yc;
   if decide (Z.of_nat N1 <= jc)%Z then Some (Break s)
   else yf ← y_floor s;
        jf ← int_cast yf;
        if decide (jf < 0)%Z then Some (Break s) else Some (Next s))
  = Some (Next s).
Proof.
  intros (yf & yc & Hf & Hc & Hjc & Hjf & H1 & H2).
  rewrite Hc, Hf. simpl. rewrite Hjc. simpl.
  rewrite decide_False by done. rewrite Hjf. simpl. by rewrite decide_False.
Qed.

Lemma outer_tests_fail N1 s :
  tests_fail N1 s ->
  (yc ← y_ceil s;
   jc ← int_cast yc;
   if decide (Z.of_nat N1 <= jc)%Z then Some (Break s)
   else yf ← y_floor s;
        jf ← int_cast yf;
        if decide (jf < 0)%Z then Some (Break s) else Some (Next s))
  = Some (Break s).
Proof.
  intros (yf & yc & Hf & Hc & Hjc & H).
  rewrite Hc, Hf. simpl. rewrite Hjc. simpl.
  case_decide; [done|]. destruct H as [H|[Hjf H]]; [done|].
  rewrite Hjf. simpl. by rewrite decide_True.
Qed.

Lemma outer_body_eq stk r EBV N_samples y_max i s e0 e1 :
  EBV !! (i + 1)%nat = Some e1 -> EBV !! i = Some e0 ->
  outer_body stk r EBV N_samples y_max i s =
  c ← for_break N_samples 0
        (inner_body stk y_max ((e1 - e0) / INR N_samples / (TRect.dx r).2)) s;
  yc ← y_ceil (ctl_state c);
  jc ← int_cast yc;
  if decide (y_max <= jc)%Z then Some (Break (ctl_state c))
  else
    yf ← y_floor (ctl_state c);
    jf ← int_cast yf;
    if decide (jf < 0)%Z then Some (Break (ctl_state c))
    else Some (Next (ctl_state c)).
Proof. intros H1 H0. unfold outer_body. by rewrite H1, H0. Qed.

(** ** The profile that [y] follows *)

Section Profile.
Context (r : TRect.t) (N_regions : nat).
Hypothesis Hdiv : ((TRect.N_bins r).1 `mod` N_regions = 0)%nat.
Hypothesis Hreg : (1 <= N_regions)%nat.
Hypothesis Hbins : (1 <= (TRect.N_bins r).1)%nat.

Local Abbreviation N0 := (TRect.N_bins r).1.
Local Abbreviation N_samples := ((TRect.N_bins r).1 `div` N_regions)%nat.

Lemma bins_split : (N0 = N_regions * N_samples)%nat.
Proof.
  pose proof (Nat.div_mod (TRect.N_bins r).1 N_regions ltac:(lia)). lia.
Qed.

Lemma samples_pos : (1 <= N_samples)%nat.
Proof.
  pose proof bins_split. destruct N_samples; [nia|lia].
Qed.

Lemma column_in_range i j :
  (i < N_regions)%nat -> (j < N_samples)%nat ->
  (0 <= Z.of_nat (i * N_samples + j) < Z.of_nat N0)%Z.
Proof.
  intros Hi Hj. pose proof bins_split. split; [lia|].
  apply Nat2Z.inj_lt. nia.
Qed.

Lemma y_hat_0 (EBV : list R) e0 :
  EBV !! 0%nat = Some e0 -> y_hat r EBV N_samples 0 = y_of r e0.
Proof.
  intros H0. unfold y_hat, y_of, reddening_at.
  rewrite Nat.Div0.div_0_l, H0. simpl. unfold Rdiv. ring.
Qed.

(** Within a region the code's [y += dy] follows the profile. *)
Lemma y_hat_step (EBV : list R) i j e0 e1 :
  (j < N_samples)%nat ->
  EBV !! i = Some e0 -> EBV !! (i + 1)%nat = Some e1 ->
  y_hat r EBV N_samples (i * N_samples + j)
  + (e1 - e0) / INR N_samples / (TRect.dx r).2
  = (e0 + (e1 - e0) / INR N_samples * INR (Datatypes.S j) - (TRect.min r).2)
    / (TRect.dx r).2.
Proof.
  intros Hj H0 H1. unfold y_hat, reddening_at.
  replace ((i * N_samples + j) `div` N_samples)%nat with i
    by (apply Nat.div_unique with j; lia).
  rewrite H0, H1. simpl default.
  rewrite plus_INR, mult_INR, S_INR. unfold Rdiv. ring.
Qed.

Lemma y_hat_next (EBV : list R) i j e0 e1 :
  (j < N_samples)%nat ->
  EBV !! i = Some e0 -> EBV !! (i + 1)%nat = Some e1 ->
  y_hat r EBV N_samples (i * N_samples + j)
  + (e1 - e0) / INR N_samples / (TRect.dx r).2
  = y_hat r EBV N_samples (i * N_samples + Datatypes.S j).
Proof.
  intros Hj H0 H1. rewrite (y_hat_step EBV i j e0 e1) by done.
  pose proof samples_pos as Hpos.
  assert (INR N_samples <> 0) as HS by (apply not_0_INR; lia).
  unfold y_hat, reddening_at.
  destruct (decide (Datatypes.S j = N_samples)) as [Heq|Hne].
  - replace (i * N_samples + Datatypes.S j)%nat
      with ((i + 1) * N_samples)%nat by lia.
    rewrite Nat.div_mul by lia. rewrite H1, Heq. simpl default.
    rewrite mult_INR. unfold Rdiv.
    replace ((e1 - e0) * / INR N_samples * INR N_samples) with (e1 - e0)
      by (field; done).
    ring.
  - replace ((i * N_samples + Datatypes.S j) `div` N_samples)%nat with i
      by (apply Nat.div_unique with (Datatypes.S j); lia).
    rewrite H0, H1. simpl default.
    rewrite plus_INR, mult_INR. unfold Rdiv. ring.
Qed.

(** Between two entries the profile is their weighted mean, so it stays
    within the bound that the entries keep. *)
Lemma y_hat_fits (EBV : list R) n :
  (N_regions < length EBV)%nat -> profile_fits_int r EBV ->
  (n < N0)%nat -> fits_int (y_hat r EBV N_samples n).
Proof.
  intros Hlen Hfit Hn.
  pose proof samples_pos as Hpos. pose proof bins_split as Hsplit.
  remember (n `div` N_samples)%nat as i eqn:Hi.
  remember (n `mod` N_samples)%nat as j eqn:Hj.
  assert (n = i * N_samples + j)%nat as Hnij.
  { subst i j. pose proof (Nat.div_mod n N_samples ltac:(lia)). lia. }
  assert (j < N_samples)%nat as Hjlt
    by (subst j; apply Nat.mod_upper_bound; lia).
  assert (i < N_regions)%nat as Hilt by nia.
  destruct (lookup_lt_is_Some_2 EBV i ltac:(lia)) as [e0 H0].
  destruct (lookup_lt_is_Some_2 EBV (i + 1) ltac:(lia)) as [e1 H1].
  unfold profile_fits_int in Hfit. rewrite Forall_lookup in Hfit.
  pose proof (Hfit i e0 H0) as [Ha0 Ha1].
  pose proof (Hfit (i + 1)%nat e1 H1) as [Hb0 Hb1].
  assert (0 < INR N_samples) as HS by (apply lt_0_INR; lia).
  remember (INR j / INR N_samples) as t eqn:Ht.
  assert (0 <= t <= 1) as [Ht0 Ht1].
  { subst t. split.
    - apply Rmult_le_pos; [apply pos_INR|]. apply Rlt_le, Rinv_0_lt_compat, HS.
    - apply Rmult_le_reg_r with (INR N_samples); [done|].
      unfold Rdiv. rewrite Rmult_assoc, Rinv_l by lra.
      apply lt_INR in Hjlt. lra. }
  assert (y_hat r EBV N_samples n = (1 - t) * y_of r e0 + t * y_of r e1) as ->.
  { unfold y_hat, y_of, reddening_at. rewrite <- Hi, H0, H1. simpl default.
    rewrite Hnij at 1. rewrite plus_INR, mult_INR. subst t.
    unfold Rdiv. ring. }
  unfold fits_int in *.
  assert (0 <= t * (2 ^ 30 - y_of r e1)) by (apply Rmult_le_pos; lra).
  assert (0 <= t * (y_of r e1 + 2 ^ 30)) by (apply Rmult_le_pos; lra).
  assert (0 <= (1 - t) * (2 ^ 30 - y_of r e0)) by (apply Rmult_le_pos; lra).
  assert (0 <= (1 - t) * (y_of r e0 + 2 ^ 30)) by (apply Rmult_le_pos; lra).
  split; lra.
Qed.
End Profile.

(** ** Runs of [los_integral] that complete *)

Section Run.
Context (stk : TImgStack) (r : TRect.t) (EBV : list R) (N_regions : nat).
Hypothesis Hshape : surfaces_shaped stk r.
Hypothesis Hdiv : ((TRect.N_bins r).1 `mod` N_regions = 0)%nat.
Hypothesis Hreg : (1 <= N_regions)%nat.
Hypothesis Hbins : (1 <= (TRect.N_bins r).1)%nat.
Hypothesis Hlen : (N_regions < length EBV)%nat.

Local Abbreviation N0 := (TRect.N_bins r).1.
Local Abbreviation N1 := (TRect.N_bins r).2.
Local Abbreviation N_samples := ((TRect.N_bins r).1 `div` N_regions)%nat.

Hypothesis Hcasts :
  forall n, (n < N0)%nat -> casts_defined (y_hat r EBV N_samples n).

Context (P : nat -> los_state -> Prop).
Hypothesis P_frame :
  forall n s yf yc,
    P n s -> P n (mkLos (x s) (y s) yf yc (ret s) (trace s)).
Hypothesis P_step :
  forall n s s2 dy,
    (n < N0)%nat -> x s = Z.of_nat n -> length (ret s) = N_images stk ->
    P n s -> ~ off_grid N1 (y s) ->
    sampled stk r (floor (y s)) (floor (y s) + 1) (N_images stk)
      (mkLos (x s) (y s) (Some (floor (y s))) (Some (floor (y s) + 1))
         (ret s) (trace s)) s2 ->
    P (Datatypes.S n)
      (mkLos (x s2 + 1) (y s2 + dy) (y_floor s2) (y_ceil s2) (ret s2)
         (EvY (y s2 + dy) :: trace s2)).

Lemma inner_body_run i j e0 e1 s :
  (i < N_regions)%nat -> (j < N_samples)%nat ->
  EBV !! i = Some e0 -> EBV !! (i + 1)%nat = Some e1 ->
  column_inv stk r EBV N_samples P i j s ->
  exists c,
    inner_body stk (Z.of_nat N1)
      ((e1 - e0) / INR N_samples / (TRect.dx r).2) j s = Some c /\
    match c with
    | Next s' => column_inv stk r EBV N_samples P i (Datatypes.S j) s'
    | Break s' => column_halted stk r EBV N_samples P s'
    end.
Proof.
  intros Hi Hj H0 H1 (Hx & Hy & Hret & HP & _).
  pose proof (column_in_range r N_regions Hdiv Hreg Hbins i j Hi Hj) as Hcol.
  assert (i * N_samples + j < N0)%nat as Hn by lia.
  pose proof (Hcasts _ Hn) as Hcast. rewrite <- Hy in Hcast.
  destruct (decide (off_grid N1 (y s))) as [Hoff|Hin].
  - eexists. split; [by apply inner_body_off_grid|].
    exists (i * N_samples + j)%nat. split; [done|].
    split; [by rewrite <- Hy|]. split; [done|].
    split; [by apply P_frame|].
    exists (floor (y s)), (floor (y s) + 1). simpl.
    split; [done|]. split; [done|].
    split; [by apply int_cast_floor_succ|].
    destruct Hoff as [Hoff|Hoff].
    + left. by rewrite to_int_floor_succ.
    + right. split; [by apply int_cast_floor|]. by rewrite to_int_floor.
  - destruct (inner_body_in_grid stk r
                ((e1 - e0) / INR N_samples / (TRect.dx r).2) j s)
      as (s2 & Hs2 & ->); try done.
    { by rewrite Hx. }
    pose proof (P_step _ s s2 ((e1 - e0) / INR N_samples / (TRect.dx r).2)
                  Hn Hx Hret HP Hin Hs2) as HP'.
    destruct Hs2 as (Hx2 & Hy2 & Hf2 & Hc2 & Hlen2 & _ & _). simpl in *.
    eexists. split; [done|]. unfold column_inv. simpl.
    replace (i * N_samples + Datatypes.S j)%nat
      with (Datatypes.S (i * N_samples + j)) by lia.
    split_and!; try done.
    + rewrite Hx2, Hx. lia.
    + rewrite Hy2, Hy.
      replace (Datatypes.S (i * N_samples + j))
        with (i * N_samples + Datatypes.S j)%nat by lia.
      by apply y_hat_next.
    + congruence.
    + intros _. exists (floor (y s)), (floor (y s) + 1).
      rewrite Hf2, Hc2.
      split; [done|]. split; [done|].
      split; [by apply int_cast_floor_succ|].
      split; [by apply int_cast_floor|].
      rewrite to_int_floor_succ, to_int_floor.
      unfold off_grid in Hin. lia.
Qed.

Lemma outer_body_run i s :
  (i < N_regions)%nat ->
  region_inv stk r EBV N_samples P i s ->
  exists c, outer_body stk r EBV N_samples (Z.of_nat N1) i s = Some c /\
    match c with
    | Next s' => region_inv stk r EBV N_samples P (Datatypes.S i) s'
    | Break s' => run_halted stk r EBV N_samples P s'
    end.
Proof.
  intros Hi (Hx & Hy & Hret & HP).
  destruct (lookup_lt_is_Some_2 EBV (i + 1) ltac:(lia)) as [e1 H1].
  destruct (lookup_lt_is_Some_2 EBV i ltac:(lia)) as [e0 H0].
  rewrite (outer_body_eq _ _ _ _ _ i _ e0 e1) by done.
  destruct (for_break_total (column_inv stk r EBV N_samples P i)
              (column_halted stk r EBV N_samples P)
              (inner_body stk (Z.of_nat N1)
                 ((e1 - e0) / INR N_samples / (TRect.dx r).2))
              N_samples 0 s) as (c & -> & Hc).
  - unfold column_inv. rewrite Nat.add_0_r. split_and!; try done. lia.
  - intros j t Hj Ht. apply inner_body_run; [done|lia|done|done|done].
  - cbn [mbind option_bind]. destruct c as [s'|s']; cbn [ctl_state].
    + destruct Hc as (Hx' & Hy' & Hret' & HP' & Htests).
      pose proof (samples_pos r N_regions Hdiv Hreg Hbins).
      rewrite (outer_tests_pass N1 s') by (apply Htests; lia).
      eexists. split; [done|].
      assert (i * N_samples + (0 + N_samples) = Datatypes.S i * N_samples)%nat
        as Heq by lia.
      rewrite Heq in Hx', Hy', HP'. by split_and!.
    + destruct Hc as (n & Hn & Hoff & Hret' & HP' & Htests).
      rewrite (outer_tests_fail N1 s') by done.
      eexists. split; [done|]. by exists n.
Qed.

(** The run completes; it has sampled every column, or it has stopped at
    the first column whose bin is off the grid. *)
Lemma los_integral_run_cases :
  rect stk = live r ->
  (forall y0, P 0%nat (mkLos 0 y0 None None (replicate (N_images stk) 0)
                         [EvY y0])) ->
  exists s n,
    los_integral_run stk EBV N_regions = Some s /\
    (n <= N0)%nat /\ length (ret s) = N_images stk /\ P n s /\
    ((n < N0)%nat -> off_grid N1 (y_hat r EBV N_samples n)).
Proof.
  intros Hrect Hinit. unfold los_integral_run. rewrite Hrect. simpl.
  rewrite decide_False by lia. rewrite decide_False by (intros Hne; done).
  destruct (lookup_lt_is_Some_2 EBV 0 ltac:(lia)) as [e0 H0].
  rewrite H0. simpl.
  destruct (for_break_total (region_inv stk r EBV N_samples P)
              (run_halted stk r EBV N_samples P)
              (outer_body stk r EBV N_samples (Z.of_nat N1)) N_regions 0
              (mkLos 0 ((e0 - (TRect.min r).2) / (TRect.dx r).2) None None
                 (replicate (N_images stk) 0)
                 [EvY ((e0 - (TRect.min r).2) / (TRect.dx r).2)]))
    as (c & -> & Hc).
  - unfold region_inv. simpl. split_and!; try done.
    + by rewrite (y_hat_0 r N_regions EBV e0).
    + apply length_replicate.
  - intros i t Hi Ht. apply outer_body_run; [lia|done].
  - simpl. pose proof (bins_split r N_regions Hdiv Hreg Hbins) as Hsplit.
    destruct c as [s'|s']; simpl.
    + destruct Hc as (_ & _ & Hret' & HP').
      exists s', ((0 + N_regions) * N_samples)%nat.
      split_and!; try done; lia.
    + destruct Hc as (n & Hn & Hoff & Hret' & HP').
      exists s', n. split_and!; try done. lia.
Qed.
End Run.

Lemma los_integral_run_bounds stk r EBV N_regions :
  rect stk = live r ->
  (1 <= N_regions)%nat ->
  ((TRect.N_bins r).1 `mod` N_regions = 0)%nat ->
  surfaces_shaped stk r ->
  (1 <= (TRect.N_bins r).1)%nat ->
  (N_regions < length EBV)%nat ->
  profile_fits_int r EBV ->
  exists s, los_integral_run stk EBV N_regions = Some s /\
            length (ret s) = N_images stk /\
            Forall (acc_in_bounds r) (trace s).
Proof.
  intros Hrect Hreg Hdiv Hshape Hbins Hlen Hfit.
  destruct (los_integral_run_cases stk r EBV N_regions Hshape Hdiv Hreg Hbins
              Hlen) with (P := reads_in_bounds r)
    as (s & n & Hrun & _ & Hret & Htr & _); try done.
  - intros n Hn. apply fits_int_casts_defined.
    by apply (y_hat_fits r N_regions).
  - intros n s s2 dy _ _ _ Htr _ (_ & _ & _ & _ & _ & Htr2 & _).
    unfold reads_in_bounds in *. simpl in *.
    constructor; [done|]. by apply Htr2.
  - intros y0. unfold reads_in_bounds. simpl. by constructor.
  - by exists s.
Qed.

(** C10: when the rect is set, [N_regions >= 1] divides
    [N_bins[0]], every surface has the shape [(N_bins[0], N_bins[1])] and
    every entry of the profile maps to a bin within [2^30] of zero, so
    that the casts [(int)y_floor] and [(int)y_ceil] are defined (with room
    for the rounding of [y += dy]), [los_integral] runs to its end and
    every read [img[k]->at(x, y)] it performs has [0 <= x < N_bins[0]] and
    [0 <= y < N_bins[1]], for the floor and for the ceiling index.  The
    grid has at least one distance bin and [EBV] its [N_regions + 1]
    entries, as the data model requires. *)
Theorem los_integral_reads_in_bounds stk r EBV N_regions :
  rect stk = live r ->
  (1 <= N_regions)%nat ->
  ((TRect.N_bins r).1 `mod` N_regions = 0)%nat ->
  surfaces_shaped stk r ->
  (1 <= (TRect.N_bins r).1)%nat ->
  length EBV = (N_regions + 1)%nat ->
  profile_fits_int r EBV ->
  exists s, los_integral_run stk EBV N_regions = Some s /\
            Forall (acc_in_bounds r) (trace s).
Proof.
  intros Hrect Hreg Hdiv Hshape Hbins Hlen Hfit.
  destruct (los_integral_run_bounds stk r EBV N_regions) as (s & Hrun & _ & Htr);
    try done; [lia|].
  by exists s.
Qed.

Lemma los_integral_halts_off_grid_witness :
  @nil event = [] /\
  forall k, (k < N_images ex_stack)%nat ->
    ret (mkLos 1 1 (Some 1) (Some 2) [3] [EvY 1; EvAcc 0 0 0 1 3; EvY 0]) !! k =
    Some (acc_sum k [EvAcc 0 0 0 1 3; EvY 0]).
Proof.
  apply (los_integral_halts_off_grid ex_stack ex_rect [0; 2] 1
           (mkLos 1 1 (Some 1) (Some 2) [3] [EvY 1; EvAcc 0 0 0 1 3; EvY 0])
           [] 1 [EvAcc 0 0 0 1 3; EvY 0]).
  - exact los_integral_run_example.
  - reflexivity.
  - reflexivity.
  - left. rewrite Int_part_IZR. simpl. lia.
Defined.

Lemma ex_stack_shaped : surfaces_shaped ex_stack ex_rect.
Proof.
  intros k Hk. simpl in Hk. exists [live ex_mat], ex_mat.
  destruct k; [done|lia].
Qed.

Lemma ex_profile_fits (a b : R) :
  - 2 ^ 30 <= a <= 2 ^ 30 -> - 2 ^ 30 <= b <= 2 ^ 30 ->
  profile_fits_int ex_rect [a; b].
Proof.
  intros Ha Hb. unfold profile_fits_int.
  apply Forall_cons. split; [|apply Forall_cons; split; [|apply Forall_nil]];
    unfold fits_int, y_of; cbn [TRect.min TRect.dx ex_rect snd]; lra.
Qed.

Lemma los_integral_reads_in_bounds_witness :
  exists s, los_integral_run ex_stack [0; 2] 1 = Some s /\
            Forall (acc_in_bounds ex_rect) (trace s).
Proof.
  apply (los_integral_reads_in_bounds ex_stack ex_rect [0; 2] 1).
  - reflexivity.
  - simpl. lia.
  - reflexivity.
  - exact ex_stack_shaped.
  - simpl. lia.
  - reflexivity.
  - apply ex_profile_fits; lra.
Defined.

(** Without the bound on the bins the reads are not safe (C10).  The
    first reddening [2147483647.5] is in bin [2147483647] of [ex_rect],
    whose ceiling [2147483648] is not an [int]; the cast [(int)y_ceil] of
    the first column is undefined, and no run with every read in bounds
    exists. *)
Lemma los_integral_cast_out_of_range :
  rect ex_stack = live ex_rect /\
  (1 <= 1)%nat /\
  ((TRect.N_bins ex_rect).1 `mod` 1 = 0)%nat /\
  surfaces_shaped ex_stack ex_rect /\
  length [2147483647.5; 2147483647.5] = (1 + 1)%nat /\
  los_integral_run ex_stack [2147483647.5; 2147483647.5] 1 = None /\
  ~ exists s,
      los_integral_run ex_stack [2147483647.5; 2147483647.5] 1 = Some s /\
      Forall (acc_in_bounds ex_rect) (trace s).
Proof.
  assert (los_integral_run ex_stack [2147483647.5; 2147483647.5] 1 = None)
    as Hrun.
  { unfold los_integral_run. cbn -[for_break outer_body].
    case_decide; [done|]. case_decide; [done|].
    replace ((2147483647.5 - 0) / 1) with 2147483647.5 by lra.
    cbn [for_break]. unfold outer_body. cbn -[for_break inner_body].
    cbn [for_break].
    assert (inner_body ex_stack (Z.of_nat 2)
              ((2147483647.5 - 2147483647.5) / (1 + 1) / 1) 0
              (mkLos 0 2147483647.5 None None [0] [EvY 2147483647.5]) = None)
      as ->; [|done].
    unfold inner_body. cbn [y].
    assert (Int_part 2147483647.5 = 2147483647%Z) as HI
      by (apply Int_part_unique; lra).
    unfold int_cast. rewrite to_int_floor_succ, HI.
    rewrite (decide_False (P := (- 2 ^ 31 <= 2147483647 + 1 < 2 ^ 31)%Z)).
    - reflexivity.
    - intros [_ Hlt]. apply Z.ltb_lt in Hlt. vm_compute in Hlt. done. }
  split_and!; try done.
  - exact ex_stack_shaped.
  - intros (s & Hs & _). by rewrite Hrun in Hs.
Qed.

(** ** [los_integral] on constant surfaces *)

Lemma constant_surfaces_shaped stk r c :
  constant_surfaces stk r c -> surfaces_shaped stk r.
Proof.
  intros Hc k Hk. destruct (Hc k Hk) as (slots & m & ? & ? & ? & ? & _).
  by exists slots, m.
Qed.

Lemma bilinear_constant m c x v :
  (forall i j, elems m i j = c) ->
  bilinear m x v (floor v) (floor v + 1) = c.
Proof.
  intros Hm. unfold bilinear. rewrite !Hm. ring.
Qed.

Lemma los_integral_on_constant stk r EBV N_regions c :
  rect stk = live r ->
  constant_surfaces stk r c ->
  (1 <= N_regions)%nat ->
  ((TRect.N_bins r).1 `mod` N_regions = 0)%nat ->
  (1 <= (TRect.N_bins r).1)%nat ->
  (N_regions < length EBV)%nat ->
  (forall j, (j < (TRect.N_bins r).1)%nat ->
     casts_defined (y_hat r EBV ((TRect.N_bins r).1 `div` N_regions) j) /\
     ~ off_grid (TRect.N_bins r).2
         (y_hat r EBV ((TRect.N_bins r).1 `div` N_regions) j)) ->
  los_integral stk EBV N_regions =
  Some (replicate (N_images stk) (c * INR (TRect.N_bins r).1)).
Proof.
  intros Hrect Hconst Hreg Hdiv Hbins Hlen Hgrid.
  destruct (los_integral_run_cases stk r EBV N_regions
              (constant_surfaces_shaped _ _ _ Hconst) Hdiv Hreg Hbins Hlen)
    with (P := const_ret stk c)
    as (s & n & Hrun & Hn & Hret & Hval & Hoff); try done.
  - intros n Hn. by apply Hgrid.
  - intros n s s2 dy Hn Hx Hret Hval Hin (_ & _ & _ & _ & _ & _ & Hret2).
    intros k Hk. cbn [ret].
    destruct (Hconst k Hk) as (slots & m & Himg & Hslot & _ & _ & Hm).
    rewrite (Hret2 k slots m _ Himg Hslot (Hval k Hk)).
    rewrite decide_True by done. cbn [x y].
    rewrite (bilinear_constant m c) by done.
    f_equal. rewrite S_INR. ring.
  - intros y0 k Hk. simpl. rewrite lookup_replicate_2 by done. f_equal. ring.
  - assert (n = (TRect.N_bins r).1) as ->.
    { destruct (decide (n < (TRect.N_bins r).1)%nat) as [Hlt|Hge]; [|lia].
      exfalso. by apply (Hgrid n Hlt), Hoff. }
    unfold los_integral. rewrite Hrun. simpl. f_equal.
    apply list_eq. intros k.
    destruct (decide (k < N_images stk)%nat) as [Hk|Hk].
    + rewrite lookup_replicate_2 by done. by apply Hval.
    + rewrite !lookup_ge_None_2; [done| |]; rewrite ?length_replicate; lia.
Qed.


Lemma ex_stack_constant : constant_surfaces ex_stack ex_rect 3.
Proof.
  intros k Hk. simpl in Hk. exists [live ex_mat], ex_mat.
  destruct k; [done|lia].
Qed.

Lemma ex_y_hat_flat j : (j < 2)%nat -> y_hat ex_rect [0; 0] 2 j = 0.
Proof.
  intros Hj. unfold y_hat, reddening_at.
  destruct j as [|[|j]]; [| |lia]; simpl; lra.
Qed.

Example ex_los_integral_flat :
  los_integral ex_stack [0; 0] 1 = Some [3 * INR 2].
Proof.
  apply (los_integral_on_constant ex_stack ex_rect [0; 0] 1 3).
  - reflexivity.
  - exact ex_stack_constant.
  - simpl. lia.
  - reflexivity.
  - simpl. lia.
  - simpl. lia.
  - intros j Hj. simpl in Hj.
    change ((TRect.N_bins ex_rect).1 `div` 1)%nat with 2%nat.
    rewrite (ex_y_hat_flat j Hj). unfold off_grid, casts_defined.
    rewrite (Int_part_IZR 0). simpl. lia.
Qed.

(** A taller grid for examples: two distance bins and three reddening
    bins, with one surface that is 3 everywhere. *)
(** Evaluates the exact value of the closed doubles of the goal. *)
Ltac b64_exact :=
  repeat match goal with
  | |- context [B64.to_R ?v] =>
      let s := eval vm_compute in (FloatOps.Prim2SF v) in
      change (B64.to_R v) with (B64.SF2R s)
  end;
  cbn [B64.SF2R];
  repeat match goal with
  | |- context [Z.pow_pos 2 ?p] =>
      let z := eval vm_compute in (Z.pow_pos 2 p) in
      change (Z.pow_pos 2 p) with z
  end.

Lemma ex_wide_rect_exact :
  exact_rect B64.ex_wide_rect = TRect.mk (0, 0) (4, 2) (4%nat, 2%nat) (1, 1).
Proof.
  unfold exact_rect, B64.ex_wide_rect.
  cbn [B64.TRect.min B64.TRect.max B64.TRect.dx B64.TRect.N_bins fst snd].
  b64_exact. f_equal; f_equal; lra.
Qed.

Lemma ex_edge_EBV_exact :
  B64.to_R <$> B64.ex_edge_EBV = [0; 6004799503160661 / 4503599627370496].
Proof.
  unfold B64.ex_edge_EBV. cbn [fmap list_fmap].
  b64_exact.
  apply (f_equal2 cons); [lra|]. apply (f_equal2 cons); [|done].
  unfold Rdiv. lra.
Qed.

Lemma ex_wide_constant :
  constant_surfaces (exact_stack B64.ex_wide_stack)
    (exact_rect B64.ex_wide_rect) 3.
Proof.
  intros k Hk. simpl in Hk.
  exists [live (exact_mat (B64.mkMat 4 2 (fun _ _ => B64.of_Z 3)))],
         (exact_mat (B64.mkMat 4 2 (fun _ _ => B64.of_Z 3))).
  destruct k; [|lia]. split_and!; try done.
  intros i j. cbn [elems exact_mat B64.elems]. b64_exact. lra.
Qed.

Lemma ex_wide_y_hat j :
  (j < 4)%nat ->
  y_hat (exact_rect B64.ex_wide_rect) (B64.to_R <$> B64.ex_edge_EBV) 4 j
  = 6004799503160661 / 4503599627370496 / 4 * INR j.
Proof.
  intros Hj. rewrite ex_wide_rect_exact, ex_edge_EBV_exact.
  unfold y_hat, reddening_at. cbn [TRect.min TRect.dx snd].
  rewrite (Nat.div_small j 4 Hj). cbn [lookup list_lookup default Nat.add].
  unfold Datatypes.id. replace (INR 4) with 4 by (simpl; lra).
  change (INR 0) with 0. lra.
Qed.

Lemma ex_wide_in_grid j :
  (j < 4)%nat ->
  Int_part (y_hat (exact_rect B64.ex_wide_rect)
              (B64.to_R <$> B64.ex_edge_EBV) 4 j) = 0%Z.
Proof.
  intros Hj. rewrite (ex_wide_y_hat j Hj).
  assert (0 <= INR j) as H0 by apply pos_INR.
  assert (INR j <= INR 3) as H3 by (apply le_INR; lia).
  simpl in H3. symmetry. apply Int_part_spec. lra.
Qed.


(** On a flat profile, where nothing is rounded, the binary64 run gives
    [c * N_bins[0]]. *)
Lemma los_integral_b64_flat :
  B64.los_integral B64.ex_wide_stack [B64.of_Z 0; B64.of_Z 0] 1
  = Some [B64.of_Z 12].
Proof. vm_compute. reflexivity. Qed.

(** In exact arithmetic the input at the edge gives [c * N_bins[0]]. *)
Lemma los_integral_exact_on_edge :
  los_integral (exact_stack B64.ex_wide_stack)
    (B64.to_R <$> B64.ex_edge_EBV) 1 = Some [3 * INR 4].
Proof.
  apply (los_integral_on_constant (exact_stack B64.ex_wide_stack)
           (exact_rect B64.ex_wide_rect) _ 1 3); try done.
  - exact ex_wide_constant.
  - simpl. lia.
  - rewrite ex_edge_EBV_exact. simpl. lia.
  - intros j Hj. cbn in Hj.
    change ((TRect.N_bins (exact_rect B64.ex_wide_rect)).1 `div` 1)%nat
      with 4%nat.
    unfold casts_defined, off_grid. rewrite (ex_wide_in_grid j Hj).
    simpl. lia.
Qed.




(** ** [resize] and the rect *)

Lemma delete_images_allocated (N : nat) (slots : list (ptr Mat)) :
  length slots = N -> Forall (fun q => q <> dangling) slots ->
  delete_images N (live slots) = Some dangling.
Proof.
  intros Hlen Hok. unfold delete_images.
  destruct (for_range_total (fun _ _ => True)
              (fun i (u : unit) =>
                 q ← slots !! i; _ ← delete_if_set q; Some u)
              N 0 tt) as (u & -> & _); [done| |done].
  intros j [] Hj _. exists tt. split; [|done].
  destruct (lookup_lt_is_Some_2 slots j ltac:(lia)) as [q Hq].
  rewrite Hq. simpl.
  rewrite Forall_lookup in Hok. specialize (Hok j q Hq).
  by destruct q.
Qed.

(** What [resize] does in general: the surfaces are as claimed, and a
    rect that was set is left dangling. *)
Lemma resize_result (s s' : TImgStack) (N' : nat) :
  resize s N' = Some s' ->
  N_images s' = N' /\
  img s' = live (replicate N' (live empty_Mat)) /\
  rect s' = match rect s with null => null | _ => dangling end.
Proof.
  unfold resize. destruct (delete_images _ _); simpl; [|done].
  destruct (rect s); simpl; [| |done]; by intros [= <-].
Qed.

(** C8 (the code departs from it): [resize] on a stack that owns a rect
    does leave [N'] empty surfaces and [N_images = N'], but it deletes the
    rect without resetting the pointer.  The stack is not the one a
    constructor without rect builds: [rect] is not null, and the next
    [set_rect], [resize] or destructor works on the freed rect. *)
Theorem resize_keeps_deleted_rect (N N' N'' : nat) (r r2 : TRect.t) :
  let s' := mkImgStack N' (live (replicate N' (live empty_Mat))) dangling in
  resize (TImgStack_new_rect N r) N' = Some s' /\
  rect s' <> null /\
  s' <> TImgStack_new N' /\
  set_rect s' r2 = None /\
  resize s' N'' = None /\
  destroy s' = None.
Proof.
  intros s'. split_and!; try done.
  - unfold resize, TImgStack_new_rect. cbn [N_images img rect].
    rewrite delete_images_allocated; [done|apply length_replicate|].
    apply Forall_replicate. done.
  - unfold resize, s'. cbn [N_images img rect].
    rewrite delete_images_allocated; [done|apply length_replicate|].
    apply Forall_replicate. done.
  - unfold destroy, s'. cbn [N_images img rect].
    rewrite delete_images_allocated; [done|apply length_replicate|].
    apply Forall_replicate. done.
Qed.

(** ** The rejection set of [lnp_los_extinction] *)

Lemma monotone_body_eq EBV i ei ej u :
  EBV !! i = Some ei -> EBV !! (i - 1)%nat = Some ej ->
  monotone_body EBV i u =
  if decide (ei - ej < 0) then Some (Break u) else Some (Next u).
Proof. intros Hi Hj. unfold monotone_body. by rewrite Hi, Hj. Qed.

Lemma monotone_loop EBV n lo :
  (1 <= lo)%nat -> (lo + n <= length EBV)%nat ->
  exists c, for_break n lo (monotone_body EBV) tt = Some c /\
    (is_break c = true <->
     exists i ei ej, (lo <= i < lo + n)%nat /\
       EBV !! i = Some ei /\ EBV !! (i - 1)%nat = Some ej /\ ei < ej).
Proof.
  revert lo. induction n as [|n IH]; intros lo Hlo Hlen; cbn [for_break].
  - exists (Next tt). split; [done|]. split; [done|].
    intros (i & _ & _ & Hi & _). lia.
  - destruct (lookup_lt_is_Some_2 EBV lo ltac:(lia)) as [ei Hei].
    destruct (lookup_lt_is_Some_2 EBV (lo - 1) ltac:(lia)) as [ej Hej].
    rewrite (monotone_body_eq EBV lo ei ej) by done.
    case_decide as Hd; simpl.
    + exists (Break tt). split; [done|]. split; [|done].
      intros _. exists lo, ei, ej. split_and!; try done; [lia..|lra].
    + destruct (IH (Datatypes.S lo)) as (c & -> & Hc); [lia..|].
      exists c. split; [done|]. rewrite Hc. split.
      * intros (i & ei' & ej' & Hi & Hrest). exists i, ei', ej'.
        split; [lia|done].
      * intros (i & ei' & ej' & Hi & Hi1 & Hi2 & Hlt).
        destruct (decide (i = lo)) as [->|Hne].
        -- rewrite Hei in Hi1. rewrite Hej in Hi2.
           injection Hi1 as <-. injection Hi2 as <-. lra.
        -- exists i, ei', ej'. split_and!; try done; lia.
Qed.

(** C1: for a vector [EBV] of length [N >= 1] and parameters whose image
    stack has a rect, [lnp_los_extinction] returns minus infinity whenever
    [E[N-1] >= rect.max[1]], or [E[0] < 0], or [E[i] < E[i-1]] for some
    [i] in [[1, N)]. *)
Theorem lnp_rejects (r : TRect.t) (EBV : list R) (N : nat)
    (params : TLOSMCMCParams) :
  length EBV = N -> (1 <= N)%nat ->
  rect (img_stack params) = live r ->
  rejected r EBV N ->
  lnp_los_extinction EBV N params = Some NegInf.
Proof.
  intros Hlen HN Hrect Hrej. unfold lnp_los_extinction.
  destruct N as [|n]; [lia|]. simpl at_last.
  destruct (lookup_lt_is_Some_2 EBV n ltac:(lia)) as [eN HeN].
  destruct (lookup_lt_is_Some_2 EBV 0 ltac:(lia)) as [e0 He0].
  rewrite HeN, Hrect. simpl.
  case_decide as Hmax; [done|]. rewrite He0. simpl.
  case_decide as Hneg; [done|].
  replace (n - 0)%nat with n by lia.
  destruct (monotone_loop EBV n 1) as (c & -> & Hc); [lia..|]. simpl.
  destruct (is_break c) eqn:Hbr; [done|]. exfalso.
  destruct Hrej as [(eN' & HeN' & Hge)|[(e0' & He0' & Hlt)|Hmono]].
  - replace (Datatypes.S n - 1)%nat with n in HeN' by lia.
    rewrite HeN in HeN'. injection HeN' as <-. done.
  - rewrite He0 in He0'. injection He0' as <-. done.
  - destruct Hmono as (i & ei & ej & Hi & Hrest).
    assert (false = true) as Hff; [|done].
    apply Hc. exists i, ei, ej. split; [lia|done].
Qed.

Lemma lnp_rejects_witness :
  lnp_los_extinction [0; 0.1; 0.05] 3 ex_params = Some NegInf.
Proof.
  apply (lnp_rejects ex_rect [0; 0.1; 0.05] 3 ex_params).
  - reflexivity.
  - lia.
  - reflexivity.
  - right. right. exists 2%nat, 0.05, 0.1. split_and!; try done; [lia..|lra].
Defined.

(** ** The soft floor of [lnp_los_extinction] *)

Lemma soften_loop p0 L :
  exists st, for_range (length L) 0 (soften_body p0) (L, Fin 0) = Some st /\
             st.2 = foldl xadd (Fin 0) (soft_floor_term p0 <$> L).
Proof.
  destruct (for_range_total (soften_inv p0 L) (soften_body p0)
              (length L) 0 (L, Fin 0)) as (st & Hrun & _ & _ & Hst).
  - unfold soften_inv. simpl. split_and!; try done.
  - intros i [line_int lnp] Hi (Hlen & Hrest & Hlnp). simpl in *.
    destruct (lookup_lt_is_Some_2 L i ltac:(lia)) as [li Hli].
    unfold soften_body. simpl. rewrite (Hrest i) by lia. rewrite Hli. simpl.
    assert (exists li',
              (if decide (li < 100000 * p0)
               then <[i := li + p0 * exp (- li / p0)]> line_int
               else line_int) !! i = Some li' /\
              log li' = soft_floor_term p0 li) as (li' & -> & Hterm).
    { unfold soft_floor_term. replace (10 ^ 5) with 100000 by lra.
      case_decide.
      - eexists. split; [|done]. apply list_lookup_insert_eq. lia.
      - exists li. split; [|done]. rewrite (Hrest i) by lia. done. }
    simpl. eexists. split; [done|].
    unfold soften_inv. simpl. split_and!.
    + case_decide; [by rewrite length_insert|done].
    + intros k Hk. case_decide; [|apply Hrest; lia].
      rewrite list_lookup_insert_ne by lia. apply Hrest. lia.
    + rewrite (take_S_r L i li) by done.
      rewrite fmap_app, foldl_app. simpl. by rewrite Hlnp, Hterm.
  - exists st. split; [done|]. by rewrite Nat.add_0_l, take_ge in Hst.
Qed.

Lemma soft_floor_term_zero p0 : 0 <= p0 -> soft_floor_term p0 0 = log p0.
Proof.
  intros Hp. unfold soft_floor_term. case_decide as Hlt.
  - f_equal. replace (- 0 / p0) with 0 by (field; lra).
    rewrite exp_0. lra.
  - f_equal. lra.
Qed.

(** C2: for an accepted state (one outside the rejection set) with raw
    line integrals [L], [lnp_los_extinction] accumulates, surface by
    surface from zero, [log(L_i + p0 * exp(-L_i / p0))] when
    [L_i < 10^5 * p0] and [log(L_i)] otherwise, before the reddening
    prior; a line integral that is exactly zero contributes [log(p0)]
    (for a floor [p0 >= 0]; the data model has [p0 > 0]). *)
Theorem lnp_soft_floor (r : TRect.t) (EBV L : list R) (N : nat)
    (params : TLOSMCMCParams) (eN : R) :
  length EBV = N -> (1 <= N)%nat ->
  rect (img_stack params) = live r ->
  ~ rejected r EBV N ->
  los_integral (img_stack params) EBV (N - 1) = Some L ->
  EBV !! (N - 1)%nat = Some eN ->
  lnp_los_extinction EBV N params =
    Some (with_prior (EBV_max params) eN
            (foldl xadd (Fin 0) (soft_floor_term (p0 params) <$> L))) /\
  (0 <= p0 params -> soft_floor_term (p0 params) 0 = log (p0 params)).
Proof.
  intros Hlen HN Hrect Hacc Hlos HeN.
  split; [|apply soft_floor_term_zero].
  unfold lnp_los_extinction.
  destruct N as [|n]; [lia|]. simpl at_last.
  replace (Datatypes.S n - 1)%nat with n in * by lia.
  destruct (lookup_lt_is_Some_2 EBV 0 ltac:(lia)) as [e0 He0].
  rewrite HeN, Hrect. simpl.
  case_decide as Hmax.
  { exfalso. apply Hacc. left. exists eN.
    by replace (Datatypes.S n - 1)%nat with n by lia. }
  rewrite He0. simpl.
  case_decide as Hneg.
  { exfalso. apply Hacc. right. left. by exists e0. }
  destruct (monotone_loop EBV n 1) as (c & -> & Hc); [lia..|]. simpl.
  destruct (is_break c) eqn:Hbr.
  { exfalso. apply Hacc. right. right.
    destruct Hc as [Hc _]. destruct (Hc eq_refl) as (i & ei & ej & Hi & Hrest).
    exists i, ei, ej. split; [lia|done]. }
  rewrite Hlos. simpl.
  assert (length L = N_images (img_stack params)) as HL.
  { unfold los_integral in Hlos.
    destruct (los_integral_run _ _ _) as [s|] eqn:Hrun; [|done].
    simpl in Hlos. injection Hlos as <-.
    by apply los_integral_run_trace_inv in Hrun as (_ & _ & ? & _). }
  rewrite <- HL.
  destruct (soften_loop (p0 params) L) as (st & -> & Hst). simpl.
  f_equal. rewrite Hst. unfold with_prior.
  repeat case_decide; try done; tauto.
Qed.

Lemma ex_accepted : ~ rejected ex_rect [0; 0] 2.
Proof.
  intros [(eN & [= <-] & Hge)|[(e0 & [= <-] & Hlt)|(i & ei & ej & Hi & Hei & Hej & Hlt)]].
  - simpl in Hge. lra.
  - lra.
  - destruct i as [|[|i]]; [lia| |lia].
    injection Hei as <-. injection Hej as <-. lra.
Qed.

Lemma lnp_soft_floor_witness :
  lnp_los_extinction [0; 0] 2 ex_params =
    Some (with_prior (EBV_max ex_params) 0
            (foldl xadd (Fin 0) (soft_floor_term (p0 ex_params) <$> [3 * INR 2]))) /\
  (0 <= p0 ex_params -> soft_floor_term (p0 ex_params) 0 = log (p0 ex_params)).
Proof.
  apply (lnp_soft_floor ex_rect [0; 0] [3 * INR 2] 2 ex_params 0).
  - reflexivity.
  - lia.
  - reflexivity.
  - exact ex_accepted.
  - exact ex_los_integral_flat.
  - reflexivity.
Defined.

(** ** [gen_rand_los_extinction] *)

Lemma store_in_range (a : list R) i v :
  (i < length a)%nat -> store a i v = Some (<[i := v]> a).
Proof. intros Hi. unfold store. by rewrite decide_True. Qed.

Lemma fill_loop mu r N EBV :
  length EBV = N ->
  exists st, for_range N 0 (fill_body mu) (EBV, r) = Some st /\
             fill_inv mu r N N st.
Proof.
  intros Hlen.
  destruct (for_range_total (fill_inv mu r N) (fill_body mu) N 0 (EBV, r))
    as (st & Hrun & Hst).
  - unfold fill_inv. simpl. split_and!; try done.
    + destruct r. simpl. f_equal. lia.
    + intros j Hj. lia.
  - intros i [a g] Hi (Ha & Hg & Hval). simpl in *. subst g.
    unfold fill_body, gsl_rng_uniform. simpl.
    rewrite store_in_range by lia. simpl.
    fold (scaled_draw mu r i).
    destruct i as [|i].
    + rewrite decide_False by lia. simpl. eexists. split; [done|].
      unfold fill_inv. simpl. split_and!.
      * by rewrite length_insert.
      * f_equal. lia.
      * intros j Hj. replace j with 0%nat by lia.
        rewrite list_lookup_insert_eq by lia. done.
    + rewrite decide_True by lia.
      rewrite list_lookup_insert_eq by lia. simpl.
      replace (i - 0)%nat with i by lia.
      rewrite list_lookup_insert_ne by lia.
      rewrite (Hval i) by lia. simpl.
      rewrite store_in_range by (rewrite length_insert; lia). simpl.
      eexists. split; [done|].
      unfold fill_inv. simpl. split_and!.
      * by rewrite !length_insert.
      * f_equal. lia.
      * intros j Hj. destruct (decide (j = Datatypes.S i)) as [->|Hne].
        -- rewrite list_lookup_insert_eq by (rewrite length_insert; lia). done.
        -- rewrite !list_lookup_insert_ne by lia. apply Hval. lia.
  - exists st. split; [done|]. by rewrite Nat.add_0_l in Hst.
Qed.

Section Draws.
Context (d : nat -> R) (b : R).
Hypothesis Hd : forall j, 0 <= d j < b.

Lemma psum_nonneg j : 0 <= psum d j.
Proof.
  induction j as [|j IH]; simpl; [apply Hd|].
  pose proof (Hd (Datatypes.S j)). lra.
Qed.

Lemma psum_mono j : psum d j <= psum d (Datatypes.S j).
Proof. simpl. pose proof (Hd (Datatypes.S j)). lra. Qed.

Lemma psum_bound j : psum d j < INR (Datatypes.S j) * b.
Proof.
  induction j as [|j IH].
  - simpl. pose proof (Hd 0%nat). lra.
  - rewrite (S_INR (Datatypes.S j)). simpl psum.
    pose proof (Hd (Datatypes.S j)). lra.
Qed.
End Draws.

Lemma Rsum_app l1 l2 : Rsum (l1 ++ l2) = Rsum l1 + Rsum l2.
Proof.
  unfold Rsum. induction l1 as [|v l1 IH]; simpl; [lra|]. rewrite IH. lra.
Qed.

Lemma Rsum_take_psum d N j :
  (j < N)%nat -> Rsum (take (Datatypes.S j) (d <$> seq 0 N)) = psum d j.
Proof.
  intros Hj. induction j as [|j IH].
  - destruct N; [lia|]. simpl. unfold Rsum. simpl. lra.
  - assert ((d <$> seq 0 N) !! Datatypes.S j = Some (d (Datatypes.S j))) as Hl.
    { rewrite list_lookup_fmap, lookup_seq_lt by lia. done. }
    rewrite (take_S_r _ _ _ Hl), Rsum_app, IH by lia.
    unfold Rsum. simpl. lra.
Qed.

Lemma cumulative_sums_lookup d N j :
  (j < N)%nat -> cumulative_sums (d <$> seq 0 N) !! j = Some (psum d j).
Proof.
  intros Hj. unfold cumulative_sums.
  rewrite length_fmap, length_seq, list_lookup_fmap, lookup_seq_lt by lia.
  simpl. by rewrite Rsum_take_psum.
Qed.

Lemma cumulative_sums_length (l : list R) :
  length (cumulative_sums l) = length l.
Proof. unfold cumulative_sums. by rewrite length_fmap, length_seq. Qed.

(** C4: with [N >= 1] and [rect.max[1] > 0], whatever the uniform draws
    in [[0, 1)], the vector that [gen_rand_los_extinction] produces has
    [E[0] >= 0], [E[i] >= E[i-1]] for [i >= 1] and [E[N-1] < rect.max[1]];
    it is the cumulative sum of the draws [0.5 * (rect.max[1] / N) * U],
    rescaled by [0.9 * rect.max[1] / E[N-1]] when
    [E[N-1] >= 0.95 * rect.max[1]]. *)
Theorem gen_rand_los_extinction_monotone (rc : TRect.t) (EBV : list R)
    (N : nat) (r : gsl_rng) (params : TLOSMCMCParams) :
  rect (img_stack params) = live rc ->
  (1 <= N)%nat ->
  (TRect.max rc).2 > 0 ->
  (forall n, 0 <= draws r n < 1) ->
  length EBV = N ->
  exists E r',
    gen_rand_los_extinction EBV N r params = Some (E, r') /\
    length E = N /\
    (forall e0, E !! 0%nat = Some e0 -> e0 >= 0) /\
    (forall i ei ej, (1 <= i)%nat -> E !! i = Some ei ->
                     E !! (i - 1)%nat = Some ej -> ei >= ej) /\
    (forall eN, E !! (N - 1)%nat = Some eN -> eN < (TRect.max rc).2) /\
    E = rescaled (TRect.max rc).2 N
          (cumulative_sums
             (scaled_draw ((TRect.max rc).2 / INR N) r <$> seq 0 N)).
Proof.
  intros Hrect HN Hmax Hdraws Hlen.
  remember (TRect.max rc).2 as ceil eqn:Hceil.
  remember (ceil / INR N) as mu eqn:Hmudef.
  assert (0 < INR N) as HNpos by (apply lt_0_INR; lia).
  assert (0 < mu) as Hmu by (subst mu; apply Rdiv_lt_0_compat; lra).
  assert (forall j, 0 <= scaled_draw mu r j < 0.5 * mu) as Hd.
  { intros j. unfold scaled_draw.
    pose proof (Hdraws (drawn r + j)%nat). nra. }
  destruct (fill_loop mu r N EBV Hlen) as ([E g] & Hfill & HE & Hg & Hval).
  simpl in *.
  assert (forall j, (j < N)%nat -> psum (scaled_draw mu r) j < 0.95 * ceil)
    as Hsmall.
  { intros j Hj.
    pose proof (psum_bound _ _ Hd j) as Hb.
    pose proof (psum_nonneg _ _ Hd j) as H0.
    assert (INR (Datatypes.S j) <= INR N) as Hle by (apply le_INR; lia).
    assert (INR N * mu = ceil) as Hprod by (subst mu; field; lra).
    nra. }
  assert (E = cumulative_sums (scaled_draw mu r <$> seq 0 N)) as HEq.
  { apply list_eq. intros j. destruct (decide (j < N)%nat) as [Hj|Hj].
    - by rewrite cumulative_sums_lookup, Hval.
    - rewrite !lookup_ge_None_2; [done| |];
        rewrite ?cumulative_sums_length, ?length_fmap, ?length_seq; lia. }
  exists E, g. split_and!.
  - unfold gen_rand_los_extinction. rewrite Hrect. simpl.
    rewrite <- Hceil, <- Hmudef, Hfill. simpl.
    destruct N as [|n]; [lia|]. simpl at_last.
    rewrite (Hval n) by lia. simpl.
    rewrite decide_False; [done|].
    pose proof (Hsmall n ltac:(lia)). lra.
  - done.
  - intros e0. rewrite (Hval 0%nat) by lia. intros [= <-].
    pose proof (psum_nonneg _ _ Hd 0) as H0. simpl in H0. lra.
  - intros i ei ej Hi Hei Hej.
    assert (i < N)%nat as HiN.
    { apply lookup_lt_Some in Hei. lia. }
    destruct i as [|i]; [lia|].
    replace (Datatypes.S i - 1)%nat with i in Hej by lia.
    rewrite Hval in Hei, Hej by lia.
    injection Hei as <-. injection Hej as <-.
    pose proof (psum_mono _ _ Hd i) as Hm. simpl in Hm. simpl. lra.
  - intros eN. rewrite Hval by lia. intros [= <-].
    pose proof (Hsmall (N - 1)%nat ltac:(lia)). lra.
  - unfold rescaled. rewrite <- HEq. rewrite (Hval (N - 1)%nat) by lia.
    rewrite decide_False; [done|].
    pose proof (Hsmall (N - 1)%nat ltac:(lia)). lra.
Qed.

Lemma gen_rand_los_extinction_monotone_witness :
  exists E r',
    gen_rand_los_extinction [0; 0] 2 (mkRng (fun _ => 0.5) 0) ex_params
      = Some (E, r') /\
    length E = 2%nat /\
    (forall e0, E !! 0%nat = Some e0 -> e0 >= 0) /\
    (forall i ei ej, (1 <= i)%nat -> E !! i = Some ei ->
                     E !! (i - 1)%nat = Some ej -> ei >= ej) /\
    (forall eN, E !! (2 - 1)%nat = Some eN -> eN < (TRect.max ex_rect).2) /\
    E = rescaled (TRect.max ex_rect).2 2
          (cumulative_sums
             (scaled_draw ((TRect.max ex_rect).2 / INR 2)
                (mkRng (fun _ => 0.5) 0) <$> seq 0 2)).
Proof.
  apply (gen_rand_los_extinction_monotone ex_rect [0; 0] 2
           (mkRng (fun _ => 0.5) 0) ex_params).
  - reflexivity.
  - lia.
  - simpl. lra.
  - intros n. simpl. lra.
  - reflexivity.
Defined.

(** ** The main run of [sample_los_extinction] *)

Section MainRun.
Context {S Chain : Type} `{AffineSampler S Chain}.
Context (N_steps ndim : Z).
Hypothesis Hsteps : (0 <= N_steps)%Z.
Hypothesis Hwrap : (4 * N_steps < 2 ^ 32)%Z.
Hypothesis HGR :
  forall s : S, (Z.to_nat ndim <= length (get_GR_diagnostic s))%nat.

Lemma GR_body_eq attempt GR i g (st : S * bool) :
  GR !! i = Some g ->
  GR_body N_steps attempt GR i st =
  if decide (g > GR_threshold) then
    Some (Break (if decide (attempt ≠ max_attempts - 1)%nat
                 then clear (step (to_int (IZR N_steps * 1 / 5)) false 0 1 0 st.1)
                 else st.1, false))
  else Some (Next st).
Proof. intros Hg. unfold GR_body. by rewrite Hg. Qed.

Lemma GR_scan attempt GR sampler n lo :
  (lo + n <= length GR)%nat ->
  for_break n lo (GR_body N_steps attempt GR) (sampler, true) =
  Some (if decide (Forall (fun g => g <= 1.2) (take n (drop lo GR)))
        then Next (sampler, true)
        else Break (if decide (attempt ≠ max_attempts - 1)%nat
                    then extended N_steps sampler else sampler, false)).
Proof.
  revert lo. induction n as [|n IH]; intros lo Hlen; cbn [for_break].
  - rewrite take_0. by rewrite decide_True by constructor.
  - destruct (lookup_lt_is_Some_2 GR lo ltac:(lia)) as [g Hg].
    rewrite (drop_S GR g lo Hg). cbn [take].
    rewrite (GR_body_eq attempt GR lo g) by done. unfold GR_threshold.
    destruct (decide (g > 1.2)) as [Hgt|Hgt]; cbn [mbind option_bind fst].
    + destruct (decide (Forall (fun g0 => g0 <= 1.2)
                          (g :: take n (drop (Datatypes.S lo) GR))))
        as [Hall|_].
      { apply Forall_cons in Hall as [Hle _]. lra. }
      do 3 f_equal. case_decide; [|done]. unfold extended.
      replace (IZR N_steps * 1 / 5) with (IZR N_steps / IZR 5)
        by (unfold Rdiv; ring).
      by rewrite to_int_div by lia.
    + rewrite IH by lia.
      destruct (decide (Forall (fun g0 => g0 <= 1.2)
                          (take n (drop (Datatypes.S lo) GR))))
        as [Hall|Hall].
      * rewrite decide_True; [done|]. constructor; [lra|done].
      * rewrite (decide_False (P := Forall _ (g :: _))); [done|].
        intros Hall'. by apply Forall_cons in Hall' as [_ ?].
Qed.

Lemma attempt_body_wrapped attempt sampler :
  attempt_body N_steps ndim attempt (sampler, false) =
  let s' := recorded_wrapped N_steps attempt sampler in
  Some (Next (if decide (GR_converged ndim (get_GR_diagnostic s'))
              then (s', true)
              else (if decide (attempt ≠ max_attempts - 1)%nat
                    then extended N_steps s' else s', false))).
Proof.
  unfold attempt_body. simpl.
  fold (recorded_wrapped N_steps attempt sampler).
  rewrite GR_scan by (rewrite Nat.add_0_l; apply HGR).
  rewrite drop_0. unfold GR_converged. by case_decide.
Qed.

Lemma attempt_body_done attempt sampler :
  attempt_body N_steps ndim attempt (sampler, true) =
  Some (Break (sampler, true)).
Proof. done. Qed.

Lemma main_run_wrapped_eq (s0 : S) :
  let s1 := recorded_wrapped N_steps 0 s0 in
  let s2 := recorded_wrapped N_steps 1 (extended N_steps s1) in
  let s3 := recorded_wrapped N_steps 2 (extended N_steps s2) in
  let ok s := GR_converged ndim (get_GR_diagnostic s) in
  main_run N_steps ndim s0 =
  Some (if decide (ok s1) then (s1, true)
        else if decide (ok s2) then (s2, true)
        else (s3, bool_decide (ok s3))).
Proof.
  intros s1 s2 s3 ok. unfold main_run, max_attempts. cbn [for_break].
  rewrite attempt_body_wrapped.
  cbn [mbind option_bind]. fold s1. fold (ok s1).
  destruct (decide (ok s1)) as [H1|H1].
  { by rewrite attempt_body_done. }
  rewrite decide_True by (unfold max_attempts; lia).
  rewrite attempt_body_wrapped.
  cbn [mbind option_bind]. fold s2. fold (ok s2).
  destruct (decide (ok s2)) as [H2|H2].
  { by rewrite attempt_body_done. }
  rewrite decide_True by (unfold max_attempts; lia).
  rewrite attempt_body_wrapped.
  cbn [mbind option_bind]. fold s3. fold (ok s3).
  destruct (decide (ok s3)) as [H3|H3].
  - by rewrite bool_decide_eq_true_2.
  - rewrite decide_False by (unfold max_attempts; lia).
    by rewrite bool_decide_eq_false_2.
Qed.

Lemma recorded_wrapped_eq attempt sampler :
  (attempt < max_attempts)%nat ->
  recorded_wrapped N_steps attempt sampler = recorded N_steps attempt sampler.
Proof.
  intros Ha. unfold recorded_wrapped, recorded. f_equal.
  unfold wrap32, max_attempts in *. apply Z.mod_small.
  assert (attempt = 0 \/ attempt = 1 \/ attempt = 2)%nat as Hcases by lia.
  destruct Hcases as [Ha0|[Ha1|Ha2]]; subst attempt; simpl; lia.
Qed.

Lemma main_run_eq (s0 : S) :
  let s1 := recorded N_steps 0 s0 in
  let s2 := recorded N_steps 1 (extended N_steps s1) in
  let s3 := recorded N_steps 2 (extended N_steps s2) in
  let ok s := GR_converged ndim (get_GR_diagnostic s) in
  main_run N_steps ndim s0 =
  Some (if decide (ok s1) then (s1, true)
        else if decide (ok s2) then (s2, true)
        else (s3, bool_decide (ok s3))).
Proof.
  intros s1 s2 s3 ok. rewrite main_run_wrapped_eq.
  by rewrite !recorded_wrapped_eq by (unfold max_attempts; lia).
Qed.
End MainRun.

(** C5: the main run of [sample_los_extinction], from the sampler [s0]
    that the burn-in leaves, when [4 * N_steps] fits the [unsigned int] of
    the source.  Attempt 0 records [N_steps] steps, attempt 1
    [2 * N_steps] and attempt 2 [4 * N_steps], each with bandwidth 0.1.
    The run stops, converged, after the first attempt whose diagnostic is
    at most 1.2 in every dimension; otherwise, when attempts remain (after
    attempts 0 and 1), [N_steps / 5] unrecorded steps with bandwidth 1 are
    made and the chain is cleared.  The chain of the final sampler is
    saved whether or not the run converged.  The sampler fills the
    diagnostic for each of the [ndim] dimensions. *)
Theorem sample_los_extinction_main_run {S Chain : Type} `{AffineSampler S Chain}
    (out_fname : String.string) (options : TMCMCOptions) (stk : TImgStack)
    (N_regions : Z) (p0 EBV_max : R) (healpix_index : Z) :
  let N_steps := steps options in
  let ndim := wrap32 (N_regions + 1) in
  (0 <= N_steps)%Z ->
  (4 * N_steps < 2 ^ 32)%Z ->
  (forall s : S, (Z.to_nat ndim <= length (get_GR_diagnostic s))%nat) ->
  let s0 :=
    burn_in N_steps
      (set_replacement_bandwidth 0.75
         (set_scale 1.1
            (construct lnp_los_extinction gen_rand_los_extinction ndim
               (wrap32 (samplers options * ndim))
               (TLOSMCMCParams_new stk p0 EBV_max) (N_threads options)))) in
  let s1 := recorded N_steps 0 s0 in
  let s2 := recorded N_steps 1 (extended N_steps s1) in
  let s3 := recorded N_steps 2 (extended N_steps s2) in
  let ok s := GR_converged ndim (get_GR_diagnostic s) in
  let final :=
    if decide (ok s1) then (s1, true)
    else if decide (ok s2) then (s2, true)
    else (s3, bool_decide (ok s3)) in
  sample_los_extinction out_fname options stk N_regions p0 EBV_max healpix_index
  = Some (mkOutput (get_chain final.1) out_fname healpix_index final.2 final.1).
Proof.
  intros N_steps ndim Hsteps Hwrap HGR s0 s1 s2 s3 ok final.
  unfold sample_los_extinction.
  fold N_steps. fold ndim. fold s0.
  rewrite (main_run_eq N_steps ndim Hsteps Hwrap HGR s0).
  done.
Qed.

Lemma logging_GR_length s : length (logging_GR s) = 2%nat.
Proof.
  destruct s as [|[n [] bw|] s]; simpl; try done. by case_decide.
Qed.

Lemma sample_los_extinction_main_run_witness :
  exists out rest,
    sample_los_extinction (S := list sampler_call) String.EmptyString
      (mkOptions 100 2 1) ex_stack 1 1 0 7 = Some out /\
    converged out = true /\
    saved_chain out =
      CallStep 200 true 0.1 :: CallClear :: CallStep 20 false 1
      :: CallStep 100 true 0.1 :: rest.
Proof.
  eexists _, _. split.
  - apply (sample_los_extinction_main_run (S := list sampler_call)
             String.EmptyString (mkOptions 100 2 1) ex_stack 1 1 0 7).
    + simpl. lia.
    + simpl. lia.
    + intros s. change (get_GR_diagnostic s) with (logging_GR s).
      rewrite logging_GR_length. vm_compute. lia.
  - cbn [converged saved_chain steps].
    rewrite decide_False.
    2:{ unfold GR_converged, recorded. simpl.
        intros Hall. apply Forall_cons in Hall as [_ Hall].
        apply Forall_cons in Hall as [Hle _]. lra. }
    rewrite decide_True.
    2:{ unfold GR_converged, recorded, extended. simpl.
        repeat constructor; lra. }
    split; reflexivity.
Defined.

Lemma restless_not_converged (s : list sampler_call) :
  ~ GR_converged (wrap32 (1 + 1))
      (get_GR_diagnostic (AffineSampler := restless_sampler) s).
Proof.
  unfold GR_converged. intros Hall.
  change (take _ _) with [2; 2] in Hall.
  apply Forall_cons in Hall as [Hle _]. lra.
Qed.

(** A run at [N_steps = 2^30] with a sampler that never converges (C5).
    Attempt 0 records [2^30] steps and attempt 1 [2^31]; in attempt 2 the
    [unsigned int] product [(1<<2)*N_steps] is [2^32], which is 0, and
    the sampler is asked for 0 recorded steps, not [2^2 * N_steps]. *)
Lemma sample_los_extinction_count_wraps :
  exists out rest,
    sample_los_extinction (H := restless_sampler) String.EmptyString
      (mkOptions (2 ^ 30) 2 1) ex_stack 1 1 0 7 = Some out /\
    converged out = false /\
    saved_chain out =
      CallStep 0 true 0.1 :: CallClear :: CallStep 214748364 false 1
      :: CallStep 2147483648 true 0.1 :: CallClear
      :: CallStep 214748364 false 1
      :: CallStep 1073741824 true 0.1 :: rest /\
    (2 ^ 2 * steps (mkOptions (2 ^ 30) 2 1))%Z = 4294967296%Z.
Proof.
  eexists _, _. split.
  - unfold sample_los_extinction. cbn [steps samplers N_threads].
    rewrite (main_run_wrapped_eq (H := restless_sampler) (2 ^ 30)
               (wrap32 (1 + 1)) ltac:(lia)).
    2:{ intros s. vm_compute. lia. }
    cbv zeta.
    rewrite decide_False by apply restless_not_converged.
    rewrite decide_False by apply restless_not_converged.
    rewrite bool_decide_eq_false_2 by apply restless_not_converged.
    cbn [mbind option_bind fst snd]. reflexivity.
  - cbn [converged saved_chain]. split_and!; reflexivity.
Qed.

(** ** The inverse table of [TDraw1D] *)

Lemma pred_double_3 : pred_double 3 = 2.
Proof. reflexivity. Qed.

Lemma pred_double_0 : pred_double 0 = 4294967295.
Proof. reflexivity. Qed.

Example ex_cumulative :
  cumulative ex_density 0 2 3 false = Some ([0; 1; 4], 4).
Proof.
  unfold cumulative. rewrite pred_double_3.
  replace ((2 - 0) / 2) with 1 by lra.
  unfold ex_density, cumulate_body, new_interp. simpl.
  repeat f_equal; lra.
Qed.

Lemma pred_double_1 : pred_double 1 = 0.
Proof. reflexivity. Qed.
Lemma pred_double_2 : pred_double 2 = 1.
Proof. reflexivity. Qed.

Lemma search_body_eq P_of_x x_min dx dP P_norm P i k Pk (st : R * nat) :
  P_of_x !! k = Some Pk ->
  search_body P_of_x x_min dx dP P_norm P i k st =
  if decide (Pk / P_norm >= P) then
    Some (Break (x_min + pred_double k * dx
                 + dP / ((Pk / P_norm - pred_double i * dP) / dx),
                 (k - 1)%nat))
  else Some (Next (x_min + INR k * dx, st.2)).
Proof. intros Hk. unfold search_body. by rewrite Hk. Qed.

Example ex_invert_0 (x a b c : R) :
  exists x0,
    invert_body [0; 1; 4] 0 1 (1 / 2) 4 3 0 ([a; b; c], (x, 0%nat)) =
    Some ([x0; b; c], (x0, 0%nat)) /\ x0 < 0.
Proof.
  unfold invert_body. cbn [fst snd Nat.add Nat.sub for_break].
  rewrite (search_body_eq _ _ _ _ _ _ _ 1 1) by done.
  rewrite pred_double_0, pred_double_1. simpl INR.
  rewrite decide_True by lra.
  cbn [mbind option_bind ctl_state fst]. unfold store. simpl.
  eexists. split; [reflexivity|]. lra.
Qed.

Example ex_invert_1 (x0 b c : R) :
  invert_body [0; 1; 4] 0 1 (1 / 2) 4 3 1 ([x0; b; c], (x0, 0%nat)) =
  Some ([x0; 3 / 2; c], (3 / 2, 1%nat)).
Proof.
  unfold invert_body. cbn [fst snd Nat.add Nat.sub for_break].
  rewrite (search_body_eq _ _ _ _ _ _ _ 1 1) by done. simpl INR.
  rewrite decide_False by lra. cbn [mbind option_bind fst snd].
  rewrite (search_body_eq _ _ _ _ _ _ _ 2 4) by done.
  rewrite decide_True by lra.
  rewrite pred_double_1, pred_double_2.
  cbn [mbind option_bind ctl_state fst]. unfold store. simpl.
  repeat f_equal; lra.
Qed.

Example ex_invert_2 (x0 c : R) :
  invert_body [0; 1; 4] 0 1 (1 / 2) 4 3 2 ([x0; 3 / 2; c], (3 / 2, 1%nat)) =
  Some ([x0; 3 / 2; 2], (2, 1%nat)).
Proof.
  unfold invert_body. cbn [fst snd Nat.add Nat.sub for_break].
  rewrite (search_body_eq _ _ _ _ _ _ _ 2 4) by done. simpl INR.
  rewrite decide_True by lra.
  rewrite pred_double_2.
  cbn [mbind option_bind ctl_state fst]. unfold store. simpl.
  repeat f_equal; lra.
Qed.

Example ex_TDraw1D :
  exists x0,
    TDraw1D_new ex_density 0 2 3 false = Some (mkDraw1D 0 2 [x0; 3 / 2; 2]) /\
    x0 < 0.
Proof.
  destruct (ex_invert_0 (0 + INR 2 * 1) (-1) (-1) (-1)) as (x0 & H0 & Hneg).
  exists x0. split; [|done].
  unfold TDraw1D_new. rewrite decide_True by lia.
  rewrite ex_cumulative. cbn [mbind option_bind fst snd].
  rewrite pred_double_3.
  replace ((2 - 0) / 2) with 1 by lra.
  unfold new_interp. cbn [for_range replicate Nat.sub].
  unfold TMultiLinearInterp in *. rewrite H0. cbn [mbind option_bind].
  rewrite ex_invert_1. cbn [mbind option_bind].
  rewrite ex_invert_2. cbn [mbind option_bind fst].
  unfold store. simpl. done.
Qed.

Example ex_inverse_table_entry :
  exists v, inverse_table_entry ex_density 0 2 3 false 1 = Some v /\ v = 4 / 3.
Proof.
  unfold inverse_table_entry. rewrite ex_cumulative.
  cbn [mbind option_bind fst snd fmap list_fmap].
  unfold interpolated_inverse, smallest_knot. cbn [list_find]. simpl INR.
  rewrite decide_False by lra. rewrite decide_False by lra.
  rewrite decide_True by lra. simpl.
  eexists. split; [reflexivity|]. unfold knot. simpl. lra.
Qed.

(** The endpoint is forced: the last entry of the table is [x_max]. *)
Lemma TDraw1D_new_endpoint func _x_min _x_max samples is_log d :
  TDraw1D_new func _x_min _x_max samples is_log = Some d ->
  x_of_P d !! (samples - 1)%nat = Some _x_max.
Proof.
  unfold TDraw1D_new. case_decide; [|done].
  destruct (cumulative _ _ _ _ _); simpl; [|done].
  destruct (for_range _ _ _ _) as [st|]; simpl; [|done].
  unfold store. case_decide as Hlen; simpl; [|done].
  intros [= <-]. simpl. by apply list_lookup_insert_eq.
Qed.

(** C6 (the code departs from it): for the density [1 + 2 x] on [[0, 2]]
    with three knots, the cumulative table is [0, 1/4, 1].  At the target
    [p_1 = 1/2] the smallest knot is [k = 2], and the linear
    interpolation between [x_1 = 1] and [x_2 = 2] is [4/3]; the
    constructor stores [3/2], because its slope is taken from the
    previous target [(i-1) * dP] instead of [P(x_{k-1})].  At [p_0] the
    unsigned [i - 1] wraps and the entry lies below [x_min].  The entry at
    cumulative probability 1 is [x_max], as claimed. *)
Theorem TDraw1D_inverse_not_interpolated :
  exists x0 v,
    TDraw1D_new ex_density 0 2 3 false = Some (mkDraw1D 0 2 [x0; 3 / 2; 2]) /\
    x0 < 0 /\
    inverse_table_entry ex_density 0 2 3 false 1 = Some v /\
    v = 4 / 3 /\ v <> 3 / 2.
Proof.
  destruct ex_TDraw1D as (x0 & Hnew & Hneg).
  destruct ex_inverse_table_entry as (v & Hv & Heq).
  exists x0, v. split_and!; try done. lra.
Qed.

(** ** The noise of the catalogue generators *)

(** A band that is detected: the loop goes on to the next band. *)
Lemma band_body_detected cap i absmag DM EBV A mag_limit k s a mi li lk :
  absmag !! k = Some a ->
  (k < length (mag s))%nat -> (k < length (err s))%nat ->
  <[k := a + DM + EBV * A k]> (mag s) !! i = Some mi ->
  mag_limit !! i = Some li ->
  mag_limit !! k = Some lk ->
  let e := noise_sd cap mi li in
  let m := a + DM + EBV * A k + e * draws (rng s) (drawn (rng s)) in
  ~ m > lk ->
  band_body cap i absmag DM EBV A mag_limit k s =
  Some (Next (mkMag (<[k := m]> (mag s)) (<[k := e]> (err s)) (observed s)
                (N_nonobs s)
                (mkRng (draws (rng s)) (Datatypes.S (drawn (rng s)))))).
Proof.
  intros Ha Hm He Hmi Hli Hlk e m Hdet. unfold band_body.
  rewrite Ha. simpl. rewrite store_in_range by done. simpl.
  rewrite Hmi, Hli. simpl.
  fold (noise_sd cap mi li). fold e.
  rewrite store_in_range by done. simpl.
  rewrite list_lookup_insert_eq by (rewrite ?length_insert; lia). simpl.
  rewrite store_in_range by (rewrite ?length_insert; lia). simpl.
  rewrite list_lookup_insert_eq by (rewrite ?length_insert; lia). simpl.
  rewrite Hlk. simpl. fold m. rewrite decide_False by done.
  by rewrite list_insert_insert_eq.
Qed.

Lemma noise_sd_at_limit_20 cap m :
  m < 20 -> noise_sd cap m 20 = 0.02 + 0.1 * exp (m - 20 - 1.5).
Proof.
  intros Hm. unfold noise_sd.
  assert (exp (m - 20 - 1.5) < 1) as Hexp.
  { rewrite <- exp_0. apply exp_increasing. lra. }
  destruct cap; [|done]. rewrite decide_False; [done|lra].
Qed.

Example ex_generate_magnitudes (cap : bool) :
  exists s,
    generate_magnitudes cap 0 ex_absmag 0 0 (fun _ => 0) ex_mag_limit
      [0; 0; 0; 0; 0] [0; 0; 0; 0; 0] ex_rng = Some s /\
    observed s = true /\
    err s !! 1%nat = Some (noise_sd cap (0 + 0 + 0 * 0 + noise_sd cap (0 + 0 + 0 * 0) 20 * 0) 20).
Proof.
  unfold generate_magnitudes, NBANDS. cbn [for_break].
  rewrite (band_body_detected cap 0 ex_absmag 0 0 _ ex_mag_limit 0 _
             0 (0 + 0 + 0 * 0) 20 20); try done; [|simpl; lia..|simpl; lra].
  cbn [mbind option_bind mag err observed N_nonobs rng draws drawn ex_rng].
  rewrite (band_body_detected cap 0 ex_absmag 0 0 _ ex_mag_limit 1 _
             1 (0 + 0 + 0 * 0 + noise_sd cap (0 + 0 + 0 * 0) 20 * 0) 20 20);
    try done; [|simpl; lia..|simpl; lra].
  cbn [mbind option_bind mag err observed N_nonobs rng draws drawn].
  rewrite (band_body_detected cap 0 ex_absmag 0 0 _ ex_mag_limit 2 _
             0 (0 + 0 + 0 * 0 + noise_sd cap (0 + 0 + 0 * 0) 20 * 0) 20 20);
    try done; [|simpl; lia..|simpl; lra].
  cbn [mbind option_bind mag err observed N_nonobs rng draws drawn].
  rewrite (band_body_detected cap 0 ex_absmag 0 0 _ ex_mag_limit 3 _
             0 (0 + 0 + 0 * 0 + noise_sd cap (0 + 0 + 0 * 0) 20 * 0) 20 20);
    try done; [|simpl; lia..|simpl; lra].
  cbn [mbind option_bind mag err observed N_nonobs rng draws drawn].
  rewrite (band_body_detected cap 0 ex_absmag 0 0 _ ex_mag_limit 4 _
             0 (0 + 0 + 0 * 0 + noise_sd cap (0 + 0 + 0 * 0) 20 * 0) 20 20);
    try done; [|simpl; lia..|simpl; lra].
  cbn [mbind option_bind ctl_state].
  eexists. split; [reflexivity|]. split; reflexivity.
Qed.

(** C9 (the code departs from it): both generators compute the deviation
    for band [k] from [mag[i]] and [mag_limit[i]], [i] being the number
    of the star, not from band [k].  For the first star ([i = 0]) the
    deviation of band 1 is the one of band 0's (already noisy) magnitude:
    here [0.02 + 0.1 * exp(0 - 20 - 1.5)], where the band's own noiseless
    magnitude 1 gives [0.02 + 0.1 * exp(1 - 20 - 1.5)].  From the sixth
    star on ([i >= NBANDS]) the reads are outside the arrays. *)
Theorem generators_noise_from_star_index (cap : bool) :
  (exists s sd,
     generate_magnitudes cap 0 ex_absmag 0 0 (fun _ => 0) ex_mag_limit
       [0; 0; 0; 0; 0] [0; 0; 0; 0; 0] ex_rng = Some s /\
     err s !! 1%nat = Some sd /\
     sd = 0.02 + 0.1 * exp (0 - 20 - 1.5) /\
     noise_sd cap (1 + 0 + 0 * 0) 20 = 0.02 + 0.1 * exp (1 - 20 - 1.5) /\
     sd <> noise_sd cap (1 + 0 + 0 * 0) 20) /\
  generate_magnitudes cap 5 ex_absmag 0 0 (fun _ => 0) ex_mag_limit
    [0; 0; 0; 0; 0] [0; 0; 0; 0; 0] ex_rng = None.
Proof.
  split; [|reflexivity].
  destruct (ex_generate_magnitudes cap) as (s & Hs & _ & Herr).
  eexists s, _. split; [exact Hs|]. split; [exact Herr|].
  rewrite !noise_sd_at_limit_20 by lra.
  replace (0 + 0 + 0 * 0 + (0.02 + 0.1 * exp (0 + 0 + 0 * 0 - 20 - 1.5)) * 0
           - 20 - 1.5) with (0 - 20 - 1.5) by lra.
  replace (1 + 0 + 0 * 0 - 20 - 1.5) with (1 - 20 - 1.5) by lra.
  split; [done|]. split; [done|].
  assert (exp (0 - 20 - 1.5) < exp (1 - 20 - 1.5)) by (apply exp_increasing; lra).
  lra.
Qed.

(** ** [cull] *)

Lemma kept_snoc keep slots kp q :
  slots !! length keep = Some q ->
  kept (keep ++ [kp]) slots = kept keep slots ++ (if kp then [q] else []).
Proof.
  revert slots. induction keep as [|k keep IH]; intros [|q' slots] Hq;
    simpl in *; try done.
  - injection Hq as ->. by destruct kp.
  - rewrite (IH slots Hq). by destruct k.
Qed.

Lemma kept_length keep slots :
  (length keep <= length slots)%nat ->
  length (kept keep slots) = length (filter (fun kp => kp = true) keep).
Proof.
  revert slots. induction keep as [|k keep IH]; intros [|q slots] Hlen;
    simpl in *; try done; try lia.
  destruct k.
  - rewrite filter_cons_True by done. simpl. f_equal. apply IH. lia.
  - rewrite filter_cons_False by done. apply IH. lia.
Qed.

Lemma filter_true_take_le (keep : list bool) i :
  (length (filter (fun kp => kp = true) (take i keep))
   <= length (filter (fun kp => kp = true) keep))%nat.
Proof.
  rewrite <- (take_drop i keep) at 2. rewrite filter_app, length_app. lia.
Qed.

Lemma kept_all_true slots :
  kept (replicate (length slots) true) slots = slots.
Proof. induction slots as [|q slots IH]; simpl; [done|]. by rewrite IH. Qed.

Lemma cull_loop keep slots :
  length keep = length slots ->
  (forall i, keep !! i = Some false -> slots !! i <> Some dangling) ->
  for_range (length keep) 0 (cull_body keep (live slots))
    (replicate (length (filter (fun kp => kp = true) keep)) dangling, 0%nat)
  = Some (kept keep slots, length (kept keep slots)).
Proof.
  intros Hlen Hdrop.
  destruct (for_range_total (cull_inv keep slots) (cull_body keep (live slots))
              (length keep) 0
              (replicate (length (filter (fun kp => kp = true) keep)) dangling,
               0%nat)) as ([tmp k] & -> & Hk & Htmp); cycle 2.
  - unfold cull_inv in *. simpl in *. rewrite take_ge in Hk, Htmp by lia.
    rewrite kept_length in Htmp by lia.
    rewrite Nat.sub_diag, app_nil_r in Htmp. by subst.
  - unfold cull_inv. rewrite take_0. simpl. split; [done|].
    by rewrite Nat.sub_0_r.
  - intros i [tmp k] Hi [Hk Htmp]. simpl in *.
    destruct (lookup_lt_is_Some_2 keep i ltac:(lia)) as [kp Hkp].
    destruct (lookup_lt_is_Some_2 slots i ltac:(lia)) as [q Hq].
    unfold cull_body. rewrite Hkp. simpl. rewrite Hq. simpl.
    assert (kept (take (Datatypes.S i) keep) slots
            = kept (take i keep) slots ++ (if kp then [q] else [])) as Hnext.
    { rewrite (take_S_r keep i kp Hkp). apply kept_snoc.
      rewrite length_take. by replace (i `min` length keep)%nat with i by lia. }
    pose proof (kept_length (take (Datatypes.S i) keep) slots
                  ltac:(rewrite length_take; lia)) as Hcount.
    pose proof (filter_true_take_le keep (Datatypes.S i)) as Hle.
    rewrite Hnext in Hcount.
    destruct kp.
    + rewrite length_app in Hcount. simpl in Hcount.
      unfold store_at. rewrite decide_True.
      2:{ rewrite Htmp, length_app, length_replicate. lia. }
      simpl. eexists. split; [done|]. unfold cull_inv. simpl.
      rewrite Hnext, length_app. simpl. split; [lia|].
      rewrite Htmp, Hk.
      rewrite insert_app_r_alt by lia. rewrite Nat.sub_diag.
      remember (length (filter (fun kp => kp = true) keep)
                - length (kept (take i keep) slots))%nat as n eqn:Hn.
      destruct n as [|n]; [lia|]. simpl.
      rewrite <- app_assoc. simpl. do 3 f_equal. lia.
    + destruct q; simpl.
      * eexists. split; [done|]. unfold cull_inv. simpl.
        by rewrite Hnext, app_nil_r.
      * eexists. split; [done|]. unfold cull_inv. simpl.
        by rewrite Hnext, app_nil_r.
      * by destruct (Hdrop i Hkp).
Qed.

Lemma cull_result (s : TImgStack) (keep : list bool) (slots : list (ptr Mat)) :
  img s = live slots ->
  length slots = N_images s ->
  length keep = N_images s ->
  (forall i, keep !! i = Some false -> slots !! i <> Some dangling) ->
  cull s keep =
    Some (mkImgStack (length (filter (fun kp => kp = true) keep))
            (live (kept keep slots)) (rect s)).
Proof.
  intros Himg Hslots Hkeep Hdrop.
  unfold cull. rewrite decide_True by done. rewrite Himg.
  rewrite cull_loop by (done || lia). done.
Qed.

(** X1: [cull] keeps the surfaces whose mask entry is true, in their order,
    drops the rest, and counts what it keeps; the rect is untouched. *)
Theorem cull_keeps_marked (s : TImgStack) (keep : list bool)
    (slots : list (ptr Mat)) :
  img s = live slots ->
  length slots = N_images s ->
  length keep = N_images s ->
  (forall i, keep !! i = Some false -> slots !! i <> Some dangling) ->
  cull s keep =
    Some (mkImgStack (length (filter (fun kp => kp = true) keep))
            (live (kept keep slots)) (rect s)) /\
  length (kept keep slots) = length (filter (fun kp => kp = true) keep).
Proof.
  intros Himg Hslots Hkeep Hdrop. split; [|apply kept_length; lia].
  by apply cull_result.
Qed.

Lemma cull_keeps_marked_witness :
  cull ex_five [true; false; true; true; false] =
    Some (mkImgStack
            (length (filter (fun kp => kp = true) [true; false; true; true; false]))
            (live (kept [true; false; true; true; false]
                     [ex_surface 0; ex_surface 1; ex_surface 2; ex_surface 3;
                      ex_surface 4]))
            (rect ex_five)) /\
  length (kept [true; false; true; true; false]
            [ex_surface 0; ex_surface 1; ex_surface 2; ex_surface 3;
             ex_surface 4])
  = length (filter (fun kp => kp = true) [true; false; true; true; false]).
Proof.
  apply (cull_keeps_marked ex_five [true; false; true; true; false]).
  - reflexivity.
  - reflexivity.
  - reflexivity.
  - intros i Hi. destruct i as [|[|[|[|[|i]]]]]; simpl in *; done.
Defined.

Example ex_cull_five :
  kept [true; false; true; true; false]
    [ex_surface 0; ex_surface 1; ex_surface 2; ex_surface 3; ex_surface 4]
  = [ex_surface 0; ex_surface 2; ex_surface 3].
Proof. reflexivity. Qed.

Lemma kept_all_false slots :
  kept (replicate (length slots) false) slots = [].
Proof. induction slots as [|q slots IH]; simpl; [done|]. by rewrite IH. Qed.

Lemma filter_true_replicate (b : bool) n :
  length (filter (fun kp => kp = true) (replicate n b))
  = if b then n else 0%nat.
Proof.
  induction n as [|n IH]; simpl; [by destruct b|]. destruct b.
  - rewrite filter_cons_True by done. simpl. by rewrite IH.
  - by rewrite filter_cons_False by done.
Qed.

(** X2: [cull] with a mask that is true everywhere changes nothing; with a
    mask that is false everywhere it leaves an empty stack. *)
Theorem cull_all_or_nothing (s : TImgStack) :
  stack_ok s ->
  cull s (replicate (N_images s) true) = Some s /\
  cull s (replicate (N_images s) false)
    = Some (mkImgStack 0 (live []) (rect s)).
Proof.
  intros [(slots & Himg & Hlen & Hok) _]. split.
  - rewrite (cull_result s _ slots); try done.
    + rewrite filter_true_replicate, <- Hlen, kept_all_true.
      destruct s. simpl in *. by subst.
    + apply length_replicate.
    + intros i Hi. apply lookup_replicate in Hi as [? _]. done.
  - rewrite (cull_result s _ slots); try done.
    + by rewrite filter_true_replicate, <- Hlen, kept_all_false.
    + apply length_replicate.
    + intros i _ Hi. rewrite Forall_lookup in Hok. by apply (Hok i _ Hi).
Qed.

Lemma ex_five_ok : stack_ok ex_five.
Proof.
  split; [|done]. eexists. split; [reflexivity|]. split; [reflexivity|].
  unfold ex_surface. repeat constructor; done.
Qed.

Lemma cull_all_or_nothing_witness :
  cull ex_five (replicate (N_images ex_five) true) = Some ex_five /\
  cull ex_five (replicate (N_images ex_five) false)
    = Some (mkImgStack 0 (live []) (rect ex_five)).
Proof. apply (cull_all_or_nothing ex_five). exact ex_five_ok. Defined.

Lemma kept_no_dangling keep slots :
  Forall (fun q => q <> dangling) slots ->
  Forall (fun q => q <> dangling) (kept keep slots).
Proof.
  intros Hok. revert keep. induction Hok as [|q slots Hq _ IH]; intros [|k keep];
    simpl; try done.
  destruct k; [constructor; [done|apply IH]|apply IH].
Qed.

(** X3: A usable stack stays usable: [set_rect] and [cull] succeed on it and
    keep it usable, and [resize] on a stack without rect gives the stack
    the constructor builds. *)
Theorem stack_ok_preserved (s : TImgStack) (r : TRect.t) (keep : list bool)
    (N' : nat) :
  stack_ok s ->
  (exists s', set_rect s r = Some s' /\ rect s' = live r /\ stack_ok s') /\
  (length keep = N_images s ->
   exists s', cull s keep = Some s' /\ stack_ok s') /\
  (rect s = null -> resize s N' = Some (TImgStack_new N')).
Proof.
  intros [(slots & Himg & Hlen & Hok) Hrect]. split_and!.
  - unfold set_rect. destruct (rect s); [| |done];
      (eexists; split; [done|]; split; [done|]; split; [|done];
       by exists slots).
  - intros Hkeep. rewrite (cull_result s keep slots); try done.
    2:{ intros i _ Hi. rewrite Forall_lookup in Hok. by apply (Hok i _ Hi). }
    eexists. split; [done|]. split; [|done]. simpl.
    eexists. split; [done|]. split; [apply kept_length; lia|].
    by apply kept_no_dangling.
  - intros Hnull. unfold resize. rewrite Himg, Hnull.
    by rewrite delete_images_allocated.
Qed.

Lemma stack_ok_preserved_witness :
  (exists s', set_rect ex_five ex_rect = Some s' /\ rect s' = live ex_rect /\
              stack_ok s') /\
  (length [true; false; true; true; false] = N_images ex_five ->
   exists s', cull ex_five [true; false; true; true; false] = Some s' /\
              stack_ok s') /\
  (rect ex_five = null -> resize ex_five 2 = Some (TImgStack_new 2)).
Proof. apply (stack_ok_preserved ex_five). exact ex_five_ok. Defined.

Lemma constructors_ok (N : nat) (r : TRect.t) :
  stack_ok (TImgStack_new N) /\ stack_ok (TImgStack_new_rect N r).
Proof.
  split.
  - split; [|done]. eexists. split; [done|].
    split; [apply length_replicate|]. by apply Forall_replicate.
  - split; [|done]. eexists. split; [done|].
    split; [apply length_replicate|]. by apply Forall_replicate.
Qed.

(** X4: The destructor of a usable stack deletes each surface, the array and
    the rect once: it never deletes a freed pointer. *)
Theorem destroy_usable_stack (s : TImgStack) :
  stack_ok s -> destroy s = Some tt.
Proof.
  intros [(slots & Himg & Hlen & Hok) Hrect]. unfold destroy.
  rewrite Himg, delete_images_allocated by done. simpl.
  by destruct (rect s).
Qed.

Lemma destroy_usable_stack_witness :
  destroy (TImgStack_new_rect 2 ex_rect) = Some tt.
Proof. apply destroy_usable_stack. apply (constructors_ok 2 ex_rect). Defined.

(** ** More on [los_integral] *)

Example ex_los_integral_steep : los_integral ex_stack [0; 2] 1 = Some [3].
Proof. unfold los_integral. by rewrite los_integral_run_example. Qed.




Lemma bilinear_in_range m M x v :
  (forall i j, 0 <= elems m i j <= M) ->
  0 <= bilinear m x v (floor v) (floor v + 1) <= M.
Proof.
  intros Hm. unfold bilinear.
  pose proof (floor_spec v) as [Hlo Hhi].
  pose proof (Hm x (to_int (floor v))) as [Ha0 Ha1].
  pose proof (Hm x (to_int (floor v + 1))) as [Hb0 Hb1].
  split; nra.
Qed.

Lemma bounded_surfaces_shaped stk r M :
  bounded_surfaces stk r M -> surfaces_shaped stk r.
Proof.
  intros Hb k Hk. destruct (Hb k Hk) as (slots & m & ? & ? & ? & ? & _).
  by exists slots, m.
Qed.

Lemma los_integral_in_range stk r EBV N_regions M :
  rect stk = live r ->
  bounded_surfaces stk r M -> 0 <= M ->
  (1 <= N_regions)%nat ->
  ((TRect.N_bins r).1 `mod` N_regions = 0)%nat ->
  (1 <= (TRect.N_bins r).1)%nat ->
  (N_regions < length EBV)%nat ->
  profile_fits_int r EBV ->
  exists L, los_integral stk EBV N_regions = Some L /\
            length L = N_images stk /\
            Forall (fun v => 0 <= v <= M * INR (TRect.N_bins r).1) L.
Proof.
  intros Hrect Hb HM Hreg Hdiv Hbins Hlen Hfit.
  destruct (los_integral_run_cases stk r EBV N_regions
              (bounded_surfaces_shaped _ _ _ Hb) Hdiv Hreg Hbins Hlen)
    with (P := ret_in_range stk M)
    as (s & n & Hrun & Hn & Hret & Hval & _); try done.
  - intros n Hn. apply fits_int_casts_defined.
    by apply (y_hat_fits r N_regions).
  - intros n s s2 dy Hn Hx Hret Hval Hin (_ & _ & _ & _ & _ & _ & Hret2).
    intros k Hk. cbn [ret].
    destruct (Hb k Hk) as (slots & m & Himg & Hslot & _ & _ & Hm).
    destruct (Hval k Hk) as (v & Hv & Hv0 & Hv1).
    rewrite (Hret2 k slots m v Himg Hslot Hv).
    rewrite decide_True by done. cbn [x y]. eexists. split; [done|].
    pose proof (bilinear_in_range m M (x s) (y s) Hm) as [Hb0 Hb1].
    rewrite S_INR. split; nra.
  - intros y0 k Hk. exists 0. cbn [ret].
    rewrite lookup_replicate_2 by done. split; [done|]. simpl. lra.
  - exists (ret s). unfold los_integral. rewrite Hrun. split; [done|].
    split; [done|]. apply Forall_lookup. intros k v Hv.
    assert (k < N_images stk)%nat as Hk.
    { apply lookup_lt_Some in Hv. lia. }
    destruct (Hval k Hk) as (v' & Hv' & Hlo & Hhi).
    rewrite Hv in Hv'. injection Hv' as <-.
    apply le_INR in Hn. split; [done|]. nra.
Qed.

(** X7: Over surfaces with values between 0 and [M], and for a profile
    whose entries map to bins within [2^30] of zero (so that the casts to
    [int] are defined), [los_integral] runs to its end and every output
    lies between 0 and [M * N_bins[0]]. *)
Theorem los_integral_bounded stk r EBV N_regions M :
  rect stk = live r ->
  bounded_surfaces stk r M -> 0 <= M ->
  (1 <= N_regions)%nat ->
  ((TRect.N_bins r).1 `mod` N_regions = 0)%nat ->
  (1 <= (TRect.N_bins r).1)%nat ->
  length EBV = (N_regions + 1)%nat ->
  profile_fits_int r EBV ->
  exists L, los_integral stk EBV N_regions = Some L /\
            Forall (fun v => 0 <= v <= M * INR (TRect.N_bins r).1) L.
Proof.
  intros Hrect Hb HM Hreg Hdiv Hbins Hlen Hfit.
  destruct (los_integral_in_range stk r EBV N_regions M)
    as (L & HL & _ & Hrange); try done; [lia|].
  by exists L.
Qed.

Lemma ex_stack_bounded : bounded_surfaces ex_stack ex_rect 3.
Proof.
  intros k Hk. simpl in Hk. exists [live ex_mat], ex_mat.
  destruct k; [|lia]. split_and!; try done. intros i j. simpl. lra.
Qed.

Lemma los_integral_bounded_witness :
  exists L, los_integral ex_stack [0; 2] 1 = Some L /\
            Forall (fun v => 0 <= v <= 3 * INR (TRect.N_bins ex_rect).1) L.
Proof.
  apply (los_integral_bounded ex_stack ex_rect [0; 2] 1 3).
  - reflexivity.
  - exact ex_stack_bounded.
  - lra.
  - lia.
  - reflexivity.
  - simpl. lia.
  - reflexivity.
  - apply ex_profile_fits; lra.
Defined.

(** ** More on [lnp_los_extinction] *)

Lemma los_integral_Some_length stk EBV N_regions L :
  los_integral stk EBV N_regions = Some L -> length L = N_images stk.
Proof.
  unfold los_integral. intros HL.
  destruct (los_integral_run stk EBV N_regions) as [s|] eqn:Hrun; [|done].
  injection HL as <-.
  by apply los_integral_run_trace_inv in Hrun as (_ & _ & ? & _).
Qed.

Lemma lnp_accepted (r : TRect.t) (EBV : list R) (N : nat)
    (params : TLOSMCMCParams) (eN : R) :
  length EBV = N -> (1 <= N)%nat ->
  rect (img_stack params) = live r ->
  ~ rejected r EBV N ->
  EBV !! (N - 1)%nat = Some eN ->
  lnp_los_extinction EBV N params =
    L ← los_integral (img_stack params) EBV (N - 1);
    Some (with_prior (EBV_max params) eN
            (foldl xadd (Fin 0) (soft_floor_term (p0 params) <$> L))).
Proof.
  intros Hlen HN Hrect Hacc HeN.
  unfold lnp_los_extinction.
  destruct N as [|n]; [lia|]. simpl at_last.
  replace (Datatypes.S n - 1)%nat with n in * by lia.
  destruct (lookup_lt_is_Some_2 EBV 0 ltac:(lia)) as [e0 He0].
  rewrite HeN, Hrect. simpl.
  case_decide as Hmax.
  { exfalso. apply Hacc. left. exists eN.
    by replace (Datatypes.S n - 1)%nat with n by lia. }
  rewrite He0. simpl.
  case_decide as Hneg.
  { exfalso. apply Hacc. right. left. by exists e0. }
  destruct (monotone_loop EBV n 1) as (c & -> & Hc); [lia..|]. simpl.
  destruct (is_break c) eqn:Hbr.
  { exfalso. apply Hacc. right. right.
    destruct Hc as [Hc _]. destruct (Hc eq_refl) as (i & ei & ej & Hi & Hrest).
    exists i, ei, ej. split; [lia|done]. }
  destruct (los_integral (img_stack params) EBV n) as [L|] eqn:Hlos; [|done].
  simpl.
  pose proof (los_integral_Some_length _ _ _ _ Hlos) as HL.
  rewrite <- HL.
  destruct (soften_loop (p0 params) L) as (st & -> & Hst). simpl.
  f_equal. rewrite Hst. unfold with_prior.
  repeat case_decide; try done; tauto.
Qed.

(** X8: With a single entry ([N = 1], no region) a state that passes the
    three guards makes [los_integral] take [N_bins[0] % 0]: the value of
    the log-posterior is undefined. *)
Theorem lnp_single_entry_undefined (r : TRect.t) (EBV : list R)
    (params : TLOSMCMCParams) :
  length EBV = 1%nat ->
  rect (img_stack params) = live r ->
  ~ rejected r EBV 1 ->
  lnp_los_extinction EBV 1 params = None.
Proof.
  intros Hlen Hrect Hacc.
  destruct (lookup_lt_is_Some_2 EBV 0 ltac:(lia)) as [e0 He0].
  rewrite (lnp_accepted r EBV 1 params e0); try done.
  unfold los_integral, los_integral_run. by rewrite Hrect.
Qed.

Lemma lnp_single_entry_undefined_witness :
  lnp_los_extinction [1] 1 ex_params = None.
Proof.
  apply (lnp_single_entry_undefined ex_rect [1] ex_params).
  - reflexivity.
  - reflexivity.
  - intros [(eN & [= <-] & Hge)|[(e0 & [= <-] & Hlt)|(i & ei & ej & Hi & _)]].
    + simpl in Hge. lra.
    + lra.
    + lia.
Defined.

Lemma soft_floor_term_finite p0 L :
  0 < p0 -> 0 <= L -> exists v, soft_floor_term p0 L = Fin v.
Proof.
  intros Hp HL. unfold soft_floor_term, log.
  pose proof (exp_pos (- L / p0)) as Hexp.
  case_decide as Hlt.
  - rewrite decide_True by nra. by eexists.
  - rewrite decide_True by nra. by eexists.
Qed.

Lemma foldl_xadd_finite (terms : list xdouble) (a : R) :
  Forall (fun t => exists v, t = Fin v) terms ->
  exists v, foldl xadd (Fin a) terms = Fin v.
Proof.
  intros Hterms. revert a.
  induction Hterms as [|t terms [v ->] _ IH]; intros a; simpl; [by eexists|].
  apply IH.
Qed.

Lemma with_prior_finite M eN v :
  exists v', with_prior M eN (Fin v) = Fin v'.
Proof. unfold with_prior. case_decide; simpl; by eexists. Qed.

(** X9: The soft floor at work: over surfaces without negative values and
    with a floor [p0 > 0], the log-posterior of every state outside the
    rejection set whose reddenings, in bin units, are within [2^30] (so
    that the casts to [int] of [los_integral] are defined) is a finite
    number, never minus infinity or NaN. *)
Theorem lnp_accepted_finite (r : TRect.t) (EBV : list R) (N : nat)
    (params : TLOSMCMCParams) (M : R) :
  length EBV = N -> (2 <= N)%nat ->
  rect (img_stack params) = live r ->
  bounded_surfaces (img_stack params) r M -> 0 <= M ->
  ((TRect.N_bins r).1 `mod` (N - 1) = 0)%nat ->
  (1 <= (TRect.N_bins r).1)%nat ->
  0 < p0 params ->
  ~ rejected r EBV N ->
  profile_fits_int r EBV ->
  exists v, lnp_los_extinction EBV N params = Some (Fin v).
Proof.
  intros Hlen HN Hrect Hb HM Hdiv Hbins Hp Hacc Hfit.
  destruct (lookup_lt_is_Some_2 EBV (N - 1) ltac:(lia)) as [eN HeN].
  rewrite (lnp_accepted r EBV N params eN); try done; [|lia].
  destruct (los_integral_in_range (img_stack params) r EBV (N - 1) M)
    as (L & -> & _ & Hrange); try done; [lia..|].
  simpl.
  destruct (foldl_xadd_finite (soft_floor_term (p0 params) <$> L) 0)
    as [v ->].
  { apply Forall_fmap. eapply Forall_impl; [exact Hrange|].
    intros l [Hl _]. by apply soft_floor_term_finite. }
  destruct (with_prior_finite (EBV_max params) eN v) as [v' ->].
  by exists v'.
Qed.

Lemma lnp_accepted_finite_witness :
  exists v, lnp_los_extinction [0; 0] 2 ex_params = Some (Fin v).
Proof.
  apply (lnp_accepted_finite ex_rect [0; 0] 2 ex_params 3).
  - reflexivity.
  - lia.
  - reflexivity.
  - exact ex_stack_bounded.
  - lra.
  - reflexivity.
  - simpl. lia.
  - simpl. lra.
  - exact ex_accepted.
  - apply ex_profile_fits; lra.
Defined.

(** X10: With no surface in the stack the log-posterior of an accepted state
    whose reddenings, in bin units, are within [2^30] (so that the casts
    to [int] of [los_integral] are defined) is the reddening prior alone:
    0, minus the penalty above [EBV_max]. *)
Theorem lnp_empty_stack (r : TRect.t) (EBV : list R) (N : nat)
    (params : TLOSMCMCParams) (eN : R) :
  length EBV = N -> (2 <= N)%nat ->
  rect (img_stack params) = live r ->
  N_images (img_stack params) = 0%nat ->
  ((TRect.N_bins r).1 `mod` (N - 1) = 0)%nat ->
  (1 <= (TRect.N_bins r).1)%nat ->
  ~ rejected r EBV N ->
  profile_fits_int r EBV ->
  EBV !! (N - 1)%nat = Some eN ->
  lnp_los_extinction EBV N params
  = Some (with_prior (EBV_max params) eN (Fin 0)).
Proof.
  intros Hlen HN Hrect Hempty Hdiv Hbins Hacc Hfit HeN.
  rewrite (lnp_accepted r EBV N params eN); try done; [|lia].
  assert (bounded_surfaces (img_stack params) r 0) as Hb.
  { intros k Hk. lia. }
  destruct (los_integral_in_range (img_stack params) r EBV (N - 1) 0
              Hrect Hb ltac:(lra) ltac:(lia) Hdiv Hbins ltac:(lia) Hfit)
    as (L & -> & HL & _).
  rewrite Hempty in HL. destruct L; [done|]. done.
Qed.

Lemma lnp_empty_stack_witness :
  lnp_los_extinction [0; 1] 2
    (TLOSMCMCParams_new (mkImgStack 0 null (live ex_rect)) 1 0.5)
  = Some (with_prior 0.5 1 (Fin 0)).
Proof.
  apply (lnp_empty_stack ex_rect [0; 1] 2
           (TLOSMCMCParams_new (mkImgStack 0 null (live ex_rect)) 1 0.5) 1).
  - reflexivity.
  - lia.
  - reflexivity.
  - reflexivity.
  - reflexivity.
  - simpl. lia.
  - intros [(eN & [= <-] & Hge)|[(e0 & [= <-] & Hlt)|(i & ei & ej & Hi & Hei & Hej & Hlt)]].
    + simpl in Hge. lra.
    + lra.
    + destruct i as [|[|i]]; [lia| |lia].
      injection Hei as <-. injection Hej as <-. lra.
  - apply ex_profile_fits; lra.
  - reflexivity.
Defined.




(** ** Initial states and the log-posterior *)

Lemma gen_rand_result (rc : TRect.t) (EBV : list R) (N : nat) (r : gsl_rng)
    (params : TLOSMCMCParams) :
  rect (img_stack params) = live rc ->
  (1 <= N)%nat ->
  (TRect.max rc).2 > 0 ->
  (forall n, 0 <= draws r n < 1) ->
  length EBV = N ->
  exists E,
    gen_rand_los_extinction EBV N r params
      = Some (E, mkRng (draws r) (drawn r + N)) /\
    length E = N /\
    forall j, (j < N)%nat ->
      exists v, E !! j = Some v /\ 0 <= v < 0.95 * (TRect.max rc).2 /\
                (forall j' v', (j' < j)%nat -> E !! j' = Some v' -> v' <= v).
Proof.
  intros Hrect HN Hmax Hdraws Hlen.
  remember (TRect.max rc).2 as ceil eqn:Hceil.
  remember (ceil / INR N) as mu eqn:Hmudef.
  assert (0 < INR N) as HNpos by (apply lt_0_INR; lia).
  assert (0 < mu) as Hmu by (subst mu; apply Rdiv_lt_0_compat; lra).
  assert (forall j, 0 <= scaled_draw mu r j < 0.5 * mu) as Hd.
  { intros j. unfold scaled_draw.
    pose proof (Hdraws (drawn r + j)%nat). nra. }
  destruct (fill_loop mu r N EBV Hlen) as ([E g] & Hfill & HE & Hg & Hval).
  simpl in *.
  assert (forall j, (j < N)%nat -> psum (scaled_draw mu r) j < 0.95 * ceil)
    as Hsmall.
  { intros j Hj.
    pose proof (psum_bound _ _ Hd j) as Hb.
    pose proof (psum_nonneg _ _ Hd j) as H0.
    assert (INR (Datatypes.S j) <= INR N) as Hle by (apply le_INR; lia).
    assert (INR N * mu = ceil) as Hprod by (subst mu; field; lra).
    nra. }
  assert (forall j' j, (j' <= j)%nat ->
            psum (scaled_draw mu r) j' <= psum (scaled_draw mu r) j) as Hmono.
  { intros j' j Hle. induction Hle as [|j Hle IH]; [lra|].
    pose proof (psum_mono _ _ Hd j). lra. }
  exists E. split_and!.
  - unfold gen_rand_los_extinction. rewrite Hrect. simpl.
    rewrite <- Hceil, <- Hmudef, Hfill. simpl.
    destruct N as [|n]; [lia|]. simpl at_last.
    rewrite (Hval n) by lia. simpl.
    rewrite decide_False; [by subst g|].
    pose proof (Hsmall n ltac:(lia)). lra.
  - done.
  - intros j Hj. eexists. split; [by apply Hval|]. split.
    + pose proof (psum_nonneg _ _ Hd j). pose proof (Hsmall j Hj). lra.
    + intros j' v' Hj'. rewrite Hval by lia. intros [= <-].
      apply Hmono. lia.
Qed.

(** X11: The state that [gen_rand_los_extinction] draws is outside the
    rejection set of the log-posterior, and the generator has advanced by
    exactly [N] draws. *)
Theorem gen_rand_state_accepted (rc : TRect.t) (EBV : list R) (N : nat)
    (r : gsl_rng) (params : TLOSMCMCParams) :
  rect (img_stack params) = live rc ->
  (1 <= N)%nat ->
  (TRect.max rc).2 > 0 ->
  (forall n, 0 <= draws r n < 1) ->
  length EBV = N ->
  exists E r',
    gen_rand_los_extinction EBV N r params = Some (E, r') /\
    ~ rejected rc E N /\
    draws r' = draws r /\ drawn r' = (drawn r + N)%nat.
Proof.
  intros Hrect HN Hmax Hdraws Hlen.
  destruct (gen_rand_result rc EBV N r params) as (E & Hgen & HE & Hval);
    try done.
  exists E, (mkRng (draws r) (drawn r + N)). split_and!; try done.
  intros [(eN & HeN & Hge)|[(e0 & He0 & Hlt)|(i & ei & ej & Hi & Hei & Hej & Hlt)]].
  - destruct (Hval (N - 1)%nat ltac:(lia)) as (v & Hv & [_ Hhi] & _).
    rewrite Hv in HeN. injection HeN as <-. lra.
  - destruct (Hval 0%nat ltac:(lia)) as (v & Hv & [Hlo _] & _).
    rewrite Hv in He0. injection He0 as <-. lra.
  - destruct (Hval i ltac:(lia)) as (v & Hv & _ & Hprev).
    rewrite Hv in Hei. injection Hei as <-.
    pose proof (Hprev (i - 1)%nat ej ltac:(lia) Hej). lra.
Qed.

Lemma gen_rand_state_accepted_witness :
  exists E r',
    gen_rand_los_extinction [0; 0] 2 (mkRng (fun _ => 0.5) 0) ex_params
      = Some (E, r') /\
    ~ rejected ex_rect E 2 /\
    draws r' = (fun _ => 0.5) /\
    drawn r' = (0 + 2)%nat.
Proof.
  apply (gen_rand_state_accepted ex_rect [0; 0] 2
           (mkRng (fun _ => 0.5) 0) ex_params).
  - reflexivity.
  - lia.
  - simpl. lra.
  - intros n. simpl. lra.
  - reflexivity.
Defined.

(** ** More on [sample_los_extinction] *)

Lemma to_int_percent (n a b d : Z) :
  (0 <= n)%Z -> (0 < d)%Z -> (0 < a)%Z -> (b = a * d)%Z ->
  to_int (IZR n * IZR a / IZR b) = (n `div` d)%Z.
Proof.
  intros Hn Hd Ha ->. rewrite <- (to_int_div n d) by done. f_equal.
  rewrite mult_IZR. field.
  split; apply not_0_IZR; lia.
Qed.

(** The casts [int(N_steps*20./100.)], [int(N_steps*5./100.)] and
    [int(N_steps*1./5.)] of the driver are defined for every
    [unsigned int N_steps]. *)
Lemma int_cast_percent (n a b d : Z) :
  (0 <= n < 2 ^ 32)%Z -> (5 <= d)%Z -> (0 < a)%Z -> (b = a * d)%Z ->
  int_cast (IZR n * IZR a / IZR b) = Some (n `div` d)%Z.
Proof.
  intros [Hn0 Hn1] Hd Ha Hb. unfold int_cast.
  rewrite (to_int_percent n a b d) by lia.
  assert (0 <= n `div` d)%Z by (apply Z.div_pos; lia).
  assert (n `div` d < 2 ^ 31)%Z.
  { apply Z.div_lt_upper_bound; [lia|].
    change (2 ^ 32)%Z with 4294967296%Z in Hn1.
    change (2 ^ 31)%Z with 2147483648%Z. lia. }
  rewrite decide_True; [done|]. split; [|done].
  change (- 2 ^ 31)%Z with (-2147483648)%Z. lia.
Qed.

(** X12: The burn-in is four blocks of [N_steps / 5] steps with bandwidth 0.5
    and [N_steps / 20] steps with bandwidth 1 (integer divisions), none
    recorded, followed by [clear()]. *)
Theorem burn_in_schedule {S Chain : Type} `{AffineSampler S Chain}
    (N_steps : Z) (sampler : S) :
  (0 <= N_steps)%Z ->
  burn_in N_steps sampler =
  clear (burn_in_block N_steps (burn_in_block N_steps
          (burn_in_block N_steps (burn_in_block N_steps sampler)))).
Proof.
  intros Hn. unfold burn_in, burn_in_block.
  rewrite !(to_int_percent N_steps 20 100 5) by lia.
  rewrite !(to_int_percent N_steps 5 100 20) by lia.
  done.
Qed.

Lemma burn_in_schedule_witness :
  burn_in (S := list sampler_call) 100 [] =
  clear (burn_in_block 100 (burn_in_block 100
          (burn_in_block 100 (burn_in_block 100 [])))).
Proof. apply (burn_in_schedule (S := list sampler_call) 100 []). lia. Defined.

(** X13: The convergence that the driver reports is the one of the sampler
    whose chain it saves: the flag is set exactly when the diagnostic of
    the final sampler is within the threshold in every dimension, and the
    last thing done to that sampler is a recorded block of the main run
    (the chain is never cleared after it). *)
Theorem sample_los_extinction_reports_final {S Chain : Type}
    `{AffineSampler S Chain}
    (out_fname : String.string) (options : TMCMCOptions) (stk : TImgStack)
    (N_regions : Z) (p0 EBV_max : R) (healpix_index : Z) :
  (0 <= steps options)%Z ->
  (4 * steps options < 2 ^ 32)%Z ->
  (forall s : S, (Z.to_nat (wrap32 (N_regions + 1))
                  <= length (get_GR_diagnostic s))%nat) ->
  exists out,
    sample_los_extinction out_fname options stk N_regions p0 EBV_max
      healpix_index = Some out /\
    saved_chain out = get_chain (final_sampler out) /\
    (converged out = true <->
     GR_converged (wrap32 (N_regions + 1))
       (get_GR_diagnostic (final_sampler out))) /\
    exists attempt s, (attempt < max_attempts)%nat /\
      final_sampler out = recorded (steps options) attempt s.
Proof.
  intros Hsteps Hwrap HGR. unfold sample_los_extinction.
  rewrite (main_run_eq (steps options) (wrap32 (N_regions + 1))
             Hsteps Hwrap HGR).
  cbn zeta.
  set (s0 := burn_in (steps options) _).
  set (s1 := recorded (steps options) 0 s0).
  set (s2 := recorded (steps options) 1 (extended (steps options) s1)).
  set (s3 := recorded (steps options) 2 (extended (steps options) s2)).
  unfold max_attempts.
  destruct (decide (GR_converged (wrap32 (N_regions + 1))
                      (get_GR_diagnostic s1))) as [H1|H1].
  { eexists. split; [done|]. simpl. split_and!; try done.
    exists 0%nat, s0. split; [lia|done]. }
  destruct (decide (GR_converged (wrap32 (N_regions + 1))
                      (get_GR_diagnostic s2))) as [H2|H2].
  { eexists. split; [done|]. simpl. split_and!; try done.
    exists 1%nat, (extended (steps options) s1). split; [lia|done]. }
  eexists. split; [done|]. simpl. split_and!; try done.
  - apply bool_decide_eq_true.
  - exists 2%nat, (extended (steps options) s2). split; [lia|done].
Qed.

(** X23: The main run for every [unsigned int N_steps]: attempt [a] asks
    the sampler for [(2^a * N_steps) mod 2^32] recorded steps with
    bandwidth 0.1, the [unsigned int] product of the source; the
    rest of the run is as in the main-run property: it stops converged
    after the first attempt whose diagnostic is at most 1.2 in every
    dimension, [N_steps / 5] unrecorded steps with bandwidth 1 and a
    [clear()] come before a retry, and the chain of the final sampler is
    saved in every case. *)
Theorem sample_los_extinction_wrapped_counts {S Chain : Type}
    `{AffineSampler S Chain}
    (out_fname : String.string) (options : TMCMCOptions) (stk : TImgStack)
    (N_regions : Z) (p0 EBV_max : R) (healpix_index : Z) :
  let N_steps := steps options in
  let ndim := wrap32 (N_regions + 1) in
  (0 <= N_steps < 2 ^ 32)%Z ->
  (forall s : S, (Z.to_nat ndim <= length (get_GR_diagnostic s))%nat) ->
  let s0 :=
    burn_in N_steps
      (set_replacement_bandwidth 0.75
         (set_scale 1.1
            (construct lnp_los_extinction gen_rand_los_extinction ndim
               (wrap32 (samplers options * ndim))
               (TLOSMCMCParams_new stk p0 EBV_max) (N_threads options)))) in
  let s1 := recorded_wrapped N_steps 0 s0 in
  let s2 := recorded_wrapped N_steps 1 (extended N_steps s1) in
  let s3 := recorded_wrapped N_steps 2 (extended N_steps s2) in
  let ok s := GR_converged ndim (get_GR_diagnostic s) in
  let final :=
    if decide (ok s1) then (s1, true)
    else if decide (ok s2) then (s2, true)
    else (s3, bool_decide (ok s3)) in
  sample_los_extinction out_fname options stk N_regions p0 EBV_max healpix_index
  = Some (mkOutput (get_chain final.1) out_fname healpix_index final.2 final.1).
Proof.
  intros N_steps ndim [Hsteps _] HGR s0 s1 s2 s3 ok final.
  unfold sample_los_extinction.
  fold N_steps. fold ndim. fold s0.
  rewrite (main_run_wrapped_eq N_steps ndim Hsteps HGR s0).
  done.
Qed.

Lemma sample_los_extinction_wrapped_counts_witness :
  exists out,
    sample_los_extinction (H := restless_sampler) String.EmptyString
      (mkOptions (2 ^ 31) 2 1) ex_stack 1 1 0 7 = Some out /\
    converged out = false /\
    take 4 (saved_chain out) =
      [CallStep 0 true 0.1; CallClear; CallStep 429496729 false 1;
       CallStep 0 true 0.1].
Proof.
  eexists. split.
  - apply (sample_los_extinction_wrapped_counts (H := restless_sampler)
             String.EmptyString (mkOptions (2 ^ 31) 2 1) ex_stack 1 1 0 7).
    + simpl. lia.
    + intros s. vm_compute. lia.
  - cbn [converged saved_chain steps].
    rewrite decide_False by apply restless_not_converged.
    rewrite decide_False by apply restless_not_converged.
    rewrite bool_decide_eq_false_2 by apply restless_not_converged.
    split; reflexivity.
Defined.

Lemma sample_los_extinction_reports_final_witness :
  exists out,
    sample_los_extinction (S := list sampler_call) String.EmptyString
      (mkOptions 100 2 1) ex_stack 1 1 0 7 = Some out /\
    saved_chain out = get_chain (final_sampler out) /\
    (converged out = true <->
     GR_converged (wrap32 (1 + 1))
       (get_GR_diagnostic (final_sampler out))) /\
    exists attempt s, (attempt < max_attempts)%nat /\
      final_sampler out = recorded 100 attempt s.
Proof.
  apply (sample_los_extinction_reports_final (S := list sampler_call)
           String.EmptyString (mkOptions 100 2 1) ex_stack 1 1 0 7).
  - simpl. lia.
  - simpl. lia.
  - intros s. change (get_GR_diagnostic s) with (logging_GR s).
    rewrite logging_GR_length. vm_compute. lia.
Defined.

(** ** [TMagnitudes::set] *)

Lemma take_S_insert {A} (l : list A) i v :
  (i < length l)%nat -> take (Datatypes.S i) (<[i := v]> l) = take i l ++ [v].
Proof.
  intros Hi. rewrite (take_S_r _ i v) by (by apply list_lookup_insert_eq).
  by rewrite take_insert_ge by lia.
Qed.

Lemma set_loop this dat err_floor :
  length (TMagnitudes.m this) = NBANDS ->
  length (TMagnitudes.err this) = NBANDS ->
  length (TMagnitudes.N_det this) = NBANDS ->
  length (TFileData.mag dat) = NBANDS ->
  length (TFileData.err dat) = NBANDS ->
  length (TFileData.N_det dat) = NBANDS ->
  exists st,
    for_range NBANDS 0 (set_body dat err_floor)
      (TMagnitudes.m this, TMagnitudes.err this, TMagnitudes.N_det this,
       Fin (INR NBANDS * 0.9189385332)) = Some st /\
    set_inv this dat err_floor NBANDS st.
Proof.
  intros Hm He Hn Hdm Hde Hdn.
  destruct (for_range_total (set_inv this dat err_floor)
              (set_body dat err_floor) NBANDS 0
              (TMagnitudes.m this, TMagnitudes.err this,
               TMagnitudes.N_det this, Fin (INR NBANDS * 0.9189385332)))
    as (st & Hrun & Hst); cycle 2.
  - by exists st.
  - unfold set_inv. rewrite !take_0. by split_and!.
  - intros i [[[m err] N_det] lnL] Hi (Hlm & Hle & Hln & Htm & Htn & Hte & HlnL).
    destruct (lookup_lt_is_Some_2 (TFileData.mag dat) i ltac:(lia)) as [dm Hdmi].
    destruct (lookup_lt_is_Some_2 (TFileData.err dat) i ltac:(lia)) as [de Hdei].
    destruct (lookup_lt_is_Some_2 (TFileData.N_det dat) i ltac:(lia)) as [dn Hdni].
    unfold set_body. rewrite Hdmi. simpl.
    rewrite store_in_range by lia. simpl. rewrite Hdei. simpl.
    rewrite store_in_range by lia. simpl.
    rewrite list_lookup_insert_eq by lia. simpl. rewrite Hdni. simpl.
    unfold store_at. rewrite decide_True by lia. simpl.
    eexists. split; [done|]. unfold set_inv.
    rewrite !length_insert. split_and!; try done.
    + rewrite take_S_insert by lia. by rewrite (take_S_r _ i dm), Htm.
    + rewrite take_S_insert by lia. by rewrite (take_S_r _ i dn), Htn.
    + rewrite take_S_insert by lia.
      by rewrite (take_S_r _ i de), fmap_app, Hte.
    + rewrite take_S_insert by lia.
      by rewrite fmap_app, foldl_app, HlnL.
Qed.

Lemma sqrt_floor_bounds (d f : R) :
  Rabs f <= sqrt (d * d + f * f) /\ Rabs d <= sqrt (d * d + f * f).
Proof.
  split.
  - rewrite <- (sqrt_Rsqr_abs f). apply sqrt_le_1_alt. unfold Rsqr. nra.
  - rewrite <- (sqrt_Rsqr_abs d). apply sqrt_le_1_alt. unfold Rsqr. nra.
Qed.

(** X14: [set] copies the identifiers, the magnitudes and the detection counts
    of the file record, and replaces each error [d] by
    [sqrt(d^2 + err_floor^2)], which is at least [|d|] and at least
    [|err_floor|]. *)
Theorem TMagnitudes_set_floors_errors this dat err_floor :
  length (TMagnitudes.m this) = NBANDS ->
  length (TMagnitudes.err this) = NBANDS ->
  length (TMagnitudes.N_det this) = NBANDS ->
  length (TFileData.mag dat) = NBANDS ->
  length (TFileData.err dat) = NBANDS ->
  length (TFileData.N_det dat) = NBANDS ->
  exists t,
    TMagnitudes_set this dat err_floor = Some t /\
    TMagnitudes.obj_id t = TFileData.obj_id dat /\
    TMagnitudes.l t = TFileData.l dat /\
    TMagnitudes.b t = TFileData.b dat /\
    TMagnitudes.m t = TFileData.mag dat /\
    TMagnitudes.N_det t = TFileData.N_det dat /\
    length (TMagnitudes.err t) = NBANDS /\
    forall i d e, TFileData.err dat !! i = Some d ->
      TMagnitudes.err t !! i = Some e ->
      e = sqrt (d * d + err_floor * err_floor) /\
      Rabs d <= e /\ Rabs err_floor <= e.
Proof.
  intros Hm He Hn Hdm Hde Hdn.
  destruct (set_loop this dat err_floor) as ([[[m err] N_det] lnL] & Hrun & Hinv);
    try done.
  destruct Hinv as (Hlm & Hle & Hln & Htm & Htn & Hte & HlnL).
  rewrite !take_ge in Htm by lia. rewrite !take_ge in Htn by lia.
  rewrite !take_ge in Hte by lia.
  unfold TMagnitudes_set. rewrite Hrun. simpl.
  eexists. split; [done|]. simpl. split_and!; try done.
  intros i d e Hd Hei. rewrite Hte, list_lookup_fmap, Hd in Hei.
  injection Hei as <-. split; [done|].
  pose proof (sqrt_floor_bounds d err_floor). tauto.
Qed.

Lemma foldl_log_positive (errs : list R) (a : R) :
  Forall (fun e => 0 < e) errs ->
  foldl xadd (Fin a) (log <$> errs) = Fin (foldl Rplus a (ln <$> errs)).
Proof.
  intros Hpos. revert a.
  induction Hpos as [|e errs He _ IH]; intros a; [done|].
  assert (log e = Fin (ln e)) as Hlog
    by (unfold log; by rewrite decide_True).
  rewrite !fmap_cons. cbn [foldl]. rewrite Hlog. apply IH.
Qed.

(** X15: With a floor that is not zero every error is positive, so the
    normalisation [lnL_norm] is a finite number: the constant
    [NBANDS * 0.9189385332] plus the logarithms of the errors. *)
Theorem TMagnitudes_set_norm_finite this dat err_floor :
  length (TMagnitudes.m this) = NBANDS ->
  length (TMagnitudes.err this) = NBANDS ->
  length (TMagnitudes.N_det this) = NBANDS ->
  length (TFileData.mag dat) = NBANDS ->
  length (TFileData.err dat) = NBANDS ->
  length (TFileData.N_det dat) = NBANDS ->
  err_floor <> 0 ->
  exists t,
    TMagnitudes_set this dat err_floor = Some t /\
    TMagnitudes.lnL_norm t =
      Fin (foldl Rplus (INR NBANDS * 0.9189385332)
             (ln <$> TMagnitudes.err t)).
Proof.
  intros Hm He Hn Hdm Hde Hdn Hfloor.
  destruct (set_loop this dat err_floor) as ([[[m err] N_det] lnL] & Hrun & Hinv);
    try done.
  destruct Hinv as (Hlm & Hle & Hln & Htm & Htn & Hte & HlnL).
  rewrite !take_ge in Hte by lia. rewrite !take_ge in HlnL by lia.
  unfold TMagnitudes_set. rewrite Hrun. simpl.
  eexists. split; [done|].
  cbn [TMagnitudes.lnL_norm TMagnitudes.err]. rewrite HlnL.
  assert (Forall (fun e => 0 < e) err) as Hpos.
  { rewrite Hte. apply Forall_fmap, Forall_true. intros d. simpl.
    pose proof (sqrt_floor_bounds d err_floor) as [Hf _].
    pose proof (Rabs_pos_lt err_floor Hfloor). lra. }
  by apply foldl_log_positive.
Qed.

Lemma TMagnitudes_set_floors_errors_witness :
  exists t,
    TMagnitudes_set ex_star ex_file 4 = Some t /\
    TMagnitudes.obj_id t = TFileData.obj_id ex_file /\
    TMagnitudes.l t = TFileData.l ex_file /\
    TMagnitudes.b t = TFileData.b ex_file /\
    TMagnitudes.m t = TFileData.mag ex_file /\
    TMagnitudes.N_det t = TFileData.N_det ex_file /\
    length (TMagnitudes.err t) = NBANDS /\
    forall i d e, TFileData.err ex_file !! i = Some d ->
      TMagnitudes.err t !! i = Some e ->
      e = sqrt (d * d + 4 * 4) /\ Rabs d <= e /\ Rabs 4 <= e.
Proof. apply (TMagnitudes_set_floors_errors ex_star ex_file 4); reflexivity. Defined.

Lemma TMagnitudes_set_norm_finite_witness :
  exists t,
    TMagnitudes_set ex_star ex_file 4 = Some t /\
    TMagnitudes.lnL_norm t =
      Fin (foldl Rplus (INR NBANDS * 0.9189385332)
             (ln <$> TMagnitudes.err t)).
Proof.
  apply (TMagnitudes_set_norm_finite ex_star ex_file 4); try reflexivity. lra.
Defined.

Lemma foldl_log_NegInf (errs : list R) :
  Forall (fun e => 0 <= e) errs ->
  foldl xadd NegInf (log <$> errs) = NegInf.
Proof.
  induction 1 as [|e errs He _ IH]; [done|].
  rewrite fmap_cons. cbn [foldl].
  replace (xadd NegInf (log e)) with NegInf; [done|].
  unfold log. repeat case_decide; try done; lra.
Qed.

Lemma foldl_log_zero (errs : list R) (a : R) :
  Forall (fun e => 0 <= e) errs -> In 0 errs ->
  foldl xadd (Fin a) (log <$> errs) = NegInf.
Proof.
  intros Hpos. revert a.
  induction Hpos as [|e errs He Hrest IH]; intros a Hin; [done|].
  rewrite fmap_cons. cbn [foldl]. unfold log at 1.
  destruct (decide (0 < e)) as [Hlt|Hnlt].
  - apply IH. destruct Hin as [->|Hin]; [lra|done].
  - rewrite decide_False by lra. simpl. by apply foldl_log_NegInf.
Qed.

(** X16: Without a floor, one error of zero in the file record makes the
    normalisation minus infinity. *)
Theorem TMagnitudes_set_zero_error this dat :
  length (TMagnitudes.m this) = NBANDS ->
  length (TMagnitudes.err this) = NBANDS ->
  length (TMagnitudes.N_det this) = NBANDS ->
  length (TFileData.mag dat) = NBANDS ->
  length (TFileData.err dat) = NBANDS ->
  length (TFileData.N_det dat) = NBANDS ->
  In 0 (TFileData.err dat) ->
  exists t,
    TMagnitudes_set this dat 0 = Some t /\ TMagnitudes.lnL_norm t = NegInf.
Proof.
  intros Hm He Hn Hdm Hde Hdn Hzero.
  destruct (set_loop this dat 0) as ([[[m err] N_det] lnL] & Hrun & Hinv);
    try done.
  destruct Hinv as (Hlm & Hle & Hln & Htm & Htn & Hte & HlnL).
  rewrite !take_ge in Hte by lia. rewrite !take_ge in HlnL by lia.
  unfold TMagnitudes_set. rewrite Hrun. simpl.
  eexists. split; [done|].
  cbn [TMagnitudes.lnL_norm]. rewrite HlnL, Hte.
  apply foldl_log_zero.
  - apply Forall_fmap, Forall_forall. intros d _. simpl. apply sqrt_pos.
  - apply (in_map (fun de => sqrt (de * de + 0 * 0))) in Hzero.
    replace (sqrt (0 * 0 + 0 * 0)) with 0 in Hzero; [done|].
    replace (0 * 0 + 0 * 0) with 0 by lra. by rewrite sqrt_0.
Qed.

Lemma TMagnitudes_set_zero_error_witness :
  exists t,
    TMagnitudes_set ex_star ex_file 0 = Some t /\ TMagnitudes.lnL_norm t = NegInf.
Proof.
  apply (TMagnitudes_set_zero_error ex_star ex_file); try reflexivity.
  simpl. auto.
Defined.

(** ** The detection test of the generators *)

Lemma noise_sd_in_range cap m l : sd_in_range cap (noise_sd cap m l).
Proof.
  unfold sd_in_range, noise_sd. pose proof (exp_pos (m - l - 1.5)).
  destruct cap.
  - case_decide; split; try lra; intros _; lra.
  - split; [lra|done].
Qed.

Lemma band_body_eq cap i absmag DM EBV A mag_limit k s a mi li lk :
  absmag !! k = Some a ->
  (k < length (mag s))%nat -> (k < length (err s))%nat ->
  <[k := a + DM + EBV * A k]> (mag s) !! i = Some mi ->
  mag_limit !! i = Some li ->
  mag_limit !! k = Some lk ->
  let e := noise_sd cap mi li in
  let m := a + DM + EBV * A k + e * draws (rng s) (drawn (rng s)) in
  let r := mkRng (draws (rng s)) (Datatypes.S (drawn (rng s))) in
  band_body cap i absmag DM EBV A mag_limit k s =
  if decide (m > lk) then
    if decide (k = 0%nat \/ (1 < Datatypes.S (N_nonobs s))%nat)
    then Some (Break (mkMag (<[k := m]> (mag s)) (<[k := e]> (err s)) false
                        (Datatypes.S (N_nonobs s)) r))
    else Some (Next (mkMag (<[k := m]> (mag s)) (<[k := e]> (err s))
                       (observed s) (Datatypes.S (N_nonobs s)) r))
  else Some (Next (mkMag (<[k := m]> (mag s)) (<[k := e]> (err s))
                     (observed s) (N_nonobs s) r)).
Proof.
  intros Ha Hm He Hmi Hli Hlk e m r. unfold band_body.
  rewrite Ha. simpl. rewrite store_in_range by done. simpl.
  rewrite Hmi, Hli. simpl.
  fold (noise_sd cap mi li). fold e.
  rewrite store_in_range by done. simpl.
  rewrite list_lookup_insert_eq by (rewrite ?length_insert; lia). simpl.
  rewrite store_in_range by (rewrite ?length_insert; lia). simpl.
  rewrite list_lookup_insert_eq by (rewrite ?length_insert; lia). simpl.
  rewrite Hlk. simpl. fold m. rewrite list_insert_insert_eq.
  by repeat case_decide.
Qed.

Lemma above_insert_ne mag_limit s s' k k' v :
  mag s' = <[k := v]> (mag s) -> k' <> k ->
  above mag_limit s' k' <-> above mag_limit s k'.
Proof.
  intros Hmag Hne. unfold above. rewrite Hmag.
  by rewrite list_lookup_insert_ne by done.
Qed.

Lemma above_insert_eq mag_limit s s' k v lk :
  mag s' = <[k := v]> (mag s) -> (k < length (mag s))%nat ->
  mag_limit !! k = Some lk ->
  above mag_limit s' k <-> v > lk.
Proof.
  intros Hmag Hk Hlk. unfold above. rewrite Hmag.
  rewrite list_lookup_insert_eq by done. rewrite Hlk. split.
  - intros (m & l & [= <-] & [= <-] & H). done.
  - intros H. by exists v, lk.
Qed.

Lemma band_body_step cap i absmag DM EBV A mag_limit r0 k t :
  (i < NBANDS)%nat -> length absmag = NBANDS -> length mag_limit = NBANDS ->
  (k < NBANDS)%nat -> band_inv cap mag_limit r0 k t ->
  exists c, band_body cap i absmag DM EBV A mag_limit k t = Some c /\
    match c with
    | Next t' => band_inv cap mag_limit r0 (Datatypes.S k) t'
    | Break t' => band_given_up mag_limit r0 t'
    end.
Proof.
  intros Hi Habs Hlim Hk
    (Hobs & Hmag & Herr & Hn & Hn0 & Hn1 & Huniq & Hg & Hsd & Hdraws & Hdrawn).
  destruct (lookup_lt_is_Some_2 absmag k) as [a Ha]; [lia|].
  destruct (lookup_lt_is_Some_2 mag_limit k) as [lk Hlk]; [lia|].
  destruct (lookup_lt_is_Some_2 mag_limit i) as [li Hli]; [lia|].
  destruct (lookup_lt_is_Some_2 (<[k := a + DM + EBV * A k]> (mag t)) i)
    as [mi Hmi]; [rewrite length_insert; lia|].
  rewrite (band_body_eq cap i absmag DM EBV A mag_limit k t a mi li lk)
    by (done || lia).
  remember (noise_sd cap mi li) as e eqn:He.
  remember (a + DM + EBV * A k + e * draws (rng t) (drawn (rng t))) as m eqn:Hm.
  assert (sd_in_range cap e) as Hrange by (subst e; apply noise_sd_in_range).
  assert (forall t', mag t' = <[k := m]> (mag t) ->
            forall k', (k' < k)%nat ->
              above mag_limit t' k' <-> above mag_limit t k') as Hold.
  { intros t' Ht' k' Hk'. apply (above_insert_ne _ _ _ k _ m); [done|lia]. }
  assert (forall t', mag t' = <[k := m]> (mag t) ->
            above mag_limit t' k <-> m > lk) as Hnew.
  { intros t' Ht'. apply (above_insert_eq _ t); [done|lia|done]. }
  assert (forall k' e', (k' < Datatypes.S k)%nat ->
            <[k := e]> (err t) !! k' = Some e' -> sd_in_range cap e') as Hsd'.
  { intros k' e' Hk'.
    destruct (decide (k' = k)) as [->|Hne].
    - rewrite list_lookup_insert_eq by lia. by intros [= <-].
    - rewrite list_lookup_insert_ne by done. apply Hsd. lia. }
  destruct (decide (m > lk)) as [Hgt|Hle].
  - destruct (decide (k = 0%nat \/ (1 < Datatypes.S (N_nonobs t))%nat))
      as [Hbrk|Hgo].
    + eexists. split; [done|]. unfold band_given_up. simpl.
      split; [done|]. split; [|done]. exists k. split; [done|].
      split; [by apply Hnew|]. split; [|lia].
      destruct Hbrk as [->|Hn']; [by left|]. right.
      destruct Hn1 as (k' & Hk' & Hab); [lia|].
      exists k'. split; [done|]. by apply Hold.
    + eexists. split; [done|]. unfold band_inv. simpl.
      assert (k <> 0%nat /\ N_nonobs t = 0%nat) as [Hk0 Hz] by lia.
      rewrite !length_insert. split_and!; try done; try lia.
      * intros _. exists k. split; [lia|]. by apply Hnew.
      * intros k1 k2 Hk1 Hk2 H1 H2.
        destruct (decide (k1 = k)) as [->|Hne1];
          destruct (decide (k2 = k)) as [->|Hne2]; try done.
        -- apply Hold in H2; [|done|lia]. exfalso. apply (Hn0 Hz k2); [lia|done].
        -- apply Hold in H1; [|done|lia]. exfalso. apply (Hn0 Hz k1); [lia|done].
        -- apply Hold in H1; [|done|lia]. exfalso. apply (Hn0 Hz k1); [lia|done].
      * intros _ Hab. apply Hold in Hab; [|done|lia]. apply Hg; [lia|done].
  - eexists. split; [done|]. unfold band_inv. simpl.
    rewrite !length_insert. split_and!; try done; try lia.
    + intros Hz k' Hk' Hab. destruct (decide (k' = k)) as [->|Hne].
      * apply Hnew in Hab; done.
      * apply Hold in Hab; [|done|lia]. apply (Hn0 Hz k'); [lia|done].
    + intros Hone. destruct (Hn1 Hone) as (k' & Hk' & Hab).
      exists k'. split; [lia|]. by apply Hold.
    + intros k1 k2 Hk1 Hk2 H1 H2.
      destruct (decide (k1 = k)) as [->|Hne1]; [by apply Hnew in H1|].
      destruct (decide (k2 = k)) as [->|Hne2]; [by apply Hnew in H2|].
      apply Hold in H1; [|done|lia]. apply Hold in H2; [|done|lia].
      apply Huniq; try done; lia.
    + intros _ Hab. destruct (decide (k = 0%nat)) as [->|Hne].
      * by apply Hnew in Hab.
      * apply Hold in Hab; [|done|lia]. apply Hg; [lia|done].
Qed.

Lemma generate_magnitudes_run cap i absmag DM EBV A mag_limit mag0 err0 r :
  (i < NBANDS)%nat -> length absmag = NBANDS -> length mag_limit = NBANDS ->
  length mag0 = NBANDS -> length err0 = NBANDS ->
  exists c,
    for_break NBANDS 0 (band_body cap i absmag DM EBV A mag_limit)
      (mkMag mag0 err0 true 0 r) = Some c /\
    match c with
    | Next s => band_inv cap mag_limit r NBANDS s
    | Break s => band_given_up mag_limit r s
    end.
Proof.
  intros Hi Habs Hlim Hmag Herr.
  apply (for_break_total (band_inv cap mag_limit r) (band_given_up mag_limit r)).
  - unfold band_inv. simpl. split_and!; try done; lia.
  - intros j t Hj Hinv. apply band_body_step; try done. lia.
Qed.

(** X17: A star that is kept was detected in the g band and missed in at
    most one band, and every deviation is in range. *)
Theorem generate_magnitudes_detection cap i absmag DM EBV A mag_limit
    mag0 err0 r :
  (i < NBANDS)%nat -> length absmag = NBANDS -> length mag_limit = NBANDS ->
  length mag0 = NBANDS -> length err0 = NBANDS ->
  exists s,
    generate_magnitudes cap i absmag DM EBV A mag_limit mag0 err0 r = Some s /\
    draws (rng s) = draws r /\
    (observed s = true ->
       ~ above mag_limit s 0 /\
       (forall k1 k2, above mag_limit s k1 -> above mag_limit s k2 -> k1 = k2) /\
       Forall (sd_in_range cap) (err s) /\
       drawn (rng s) = (drawn r + NBANDS)%nat) /\
    (observed s = false ->
       exists k, (k < NBANDS)%nat /\ above mag_limit s k /\
         (k = 0%nat \/ exists k', (k' < k)%nat /\ above mag_limit s k') /\
         drawn (rng s) = (drawn r + Datatypes.S k)%nat).
Proof.
  intros Hi Habs Hlim Hmag Herr.
  destruct (generate_magnitudes_run cap i absmag DM EBV A mag_limit mag0 err0 r)
    as (c & Hrun & Hc); try done.
  unfold generate_magnitudes. rewrite Hrun. simpl.
  exists (ctl_state c). split; [done|]. destruct c as [s|s]; simpl.
  - destruct Hc as
      (Hobs & Hm & He & Hn & Hn0 & Hn1 & Huniq & Hg & Hsd & Hdraws & Hdrawn).
    split; [done|]. split; [|by rewrite Hobs].
    intros _. split_and!; try done.
    + apply Hg. unfold NBANDS. lia.
    + intros k1 k2 H1 H2.
      assert (forall k, above mag_limit s k -> (k < NBANDS)%nat) as Hlt.
      { intros k (m & l & Hk & _). apply lookup_lt_Some in Hk. lia. }
      apply Huniq; auto.
    + apply Forall_lookup. intros k e Hk. apply (Hsd k); [|done].
      apply lookup_lt_Some in Hk. lia.
  - destruct Hc as (Hobs & Hk & Hdraws).
    split; [done|]. split; [by rewrite Hobs|]. done.
Qed.

Lemma generate_magnitudes_detection_witness :
  exists s,
    generate_magnitudes true 0 ex_absmag 0 0 (fun _ => 0) ex_mag_limit
      [0; 0; 0; 0; 0] [0; 0; 0; 0; 0] ex_rng = Some s /\
    draws (rng s) = draws ex_rng /\
    (observed s = true ->
       ~ above ex_mag_limit s 0 /\
       (forall k1 k2, above ex_mag_limit s k1 -> above ex_mag_limit s k2 ->
                      k1 = k2) /\
       Forall (sd_in_range true) (err s) /\
       drawn (rng s) = (drawn ex_rng + NBANDS)%nat) /\
    (observed s = false ->
       exists k, (k < NBANDS)%nat /\ above ex_mag_limit s k /\
         (k = 0%nat \/ exists k', (k' < k)%nat /\ above ex_mag_limit s k') /\
         drawn (rng s) = (drawn ex_rng + Datatypes.S k)%nat).
Proof.
  apply (generate_magnitudes_detection true 0 ex_absmag 0 0 (fun _ => 0)
           ex_mag_limit [0; 0; 0; 0; 0] [0; 0; 0; 0; 0] ex_rng);
    [unfold NBANDS; lia | reflexivity..].
Defined.

(** X18: A star whose number is not a band reads outside the arrays. *)
Theorem generate_magnitudes_star_out_of_range cap i absmag DM EBV A mag_limit
    mag0 err0 r :
  (NBANDS <= i)%nat -> length mag_limit = NBANDS ->
  generate_magnitudes cap i absmag DM EBV A mag_limit mag0 err0 r = None.
Proof.
  intros Hi Hlim. unfold generate_magnitudes, NBANDS. cbn [for_break].
  assert (band_body cap i absmag DM EBV A mag_limit 0
            (mkMag mag0 err0 true 0 r) = None) as ->; [|done].
  unfold band_body.
  destruct (absmag !! 0%nat) as [a|]; [|done]. simpl.
  destruct (store mag0 0 (a + DM + EBV * A 0%nat)) as [mag1|]; [|done]. simpl.
  destruct (mag1 !! i) as [mi|]; [|done]. simpl.
  rewrite (lookup_ge_None_2 mag_limit i) by (unfold NBANDS in *; lia). done.
Qed.

Lemma generate_magnitudes_star_out_of_range_witness :
  generate_magnitudes false 7 ex_absmag 0 0 (fun _ => 0) ex_mag_limit
    [0; 0; 0; 0; 0] [0; 0; 0; 0; 0] ex_rng = None.
Proof.
  apply generate_magnitudes_star_out_of_range; [unfold NBANDS; lia|reflexivity].
Defined.

(** ** The table of [TDraw1D] *)

Lemma cumulative_shape func _x_min _x_max samples is_log :
  exists cum, cumulative func _x_min _x_max samples is_log = Some cum /\
              length cum.1 = samples.
Proof.
  unfold cumulative.
  destruct (for_range_total (fun _ (st : TMultiLinearInterp * R) =>
                               length st.1 = samples)
              (cumulate_body func _x_min
                 ((_x_max - _x_min) / pred_double samples) samples is_log)
              samples 0 (new_interp samples (-1), 0)) as (st & Hrun & Hst).
  - apply length_replicate.
  - intros i [tab P] Hi Hlen. simpl in Hlen. unfold cumulate_body. simpl.
    rewrite store_in_range by lia. simpl.
    eexists. split; [done|]. simpl. by rewrite length_insert.
  - by exists st.
Qed.

Lemma search_loop_shape (P_of_x : TMultiLinearInterp) x_min dx dP P_norm P i
    samples n lo (st : R * nat) :
  length P_of_x = samples ->
  (forall k, (lo <= k < lo + n)%nat -> (k < samples)%nat) ->
  exists c, for_break n lo (search_body P_of_x x_min dx dP P_norm P i) st
            = Some c.
Proof.
  intros Hlen Hn.
  destruct (for_break_total (fun _ (_ : R * nat) => True) (fun _ => True)
              (search_body P_of_x x_min dx dP P_norm P i) n lo st)
    as (c & Hc & _); [done| |by exists c].
  intros k t Hk _. apply Hn in Hk.
  destruct (lookup_lt_is_Some_2 P_of_x k ltac:(lia)) as [Pk HPk].
  rewrite (search_body_eq _ _ _ _ _ _ _ _ Pk) by done.
  case_decide; eexists; (split; [done|]); done.
Qed.

Lemma invert_loop_shape (P_of_x : TMultiLinearInterp) x_min dx dP P_norm
    samples (st0 : TMultiLinearInterp * (R * nat)) :
  length P_of_x = samples -> length st0.1 = samples ->
  exists st, for_range samples 0
               (invert_body P_of_x x_min dx dP P_norm samples) st0 = Some st /\
             length st.1 = samples.
Proof.
  intros HP Hst0.
  apply (for_range_total (fun _ (st : TMultiLinearInterp * (R * nat)) =>
                            length st.1 = samples)); [done|].
  intros i [tab [x k_last]] Hi Hlen. simpl in Hlen.
  unfold invert_body. cbn [fst snd].
  destruct (search_loop_shape P_of_x x_min dx dP P_norm (INR i * dP) i samples
              (samples - (k_last + 1)) (k_last + 1) (x, k_last))
    as (c & ->); [done|intros k; lia|].
  cbn [mbind option_bind]. unfold TMultiLinearInterp in *.
  rewrite store_in_range by lia. cbn [mbind option_bind].
  eexists. split; [done|]. simpl. by rewrite length_insert.
Qed.

(** X19: The constructor of [TDraw1D] succeeds exactly when
    [samples > 1] (the assertion), whatever the density and the range:
    no table is read or written outside its [samples] entries.  The
    object keeps the range, and its table has [samples] entries, the last
    of which is [x_max]. *)
Theorem TDraw1D_new_shape func _x_min _x_max samples is_log :
  (is_Some (TDraw1D_new func _x_min _x_max samples is_log)
   <-> (1 < samples)%nat) /\
  forall d, TDraw1D_new func _x_min _x_max samples is_log = Some d ->
    x_min d = _x_min /\ x_max d = _x_max /\
    length (x_of_P d) = samples /\
    x_of_P d !! (samples - 1)%nat = Some _x_max.
Proof.
  assert ((1 < samples)%nat ->
          exists tab, TDraw1D_new func _x_min _x_max samples is_log
                      = Some (mkDraw1D _x_min _x_max tab) /\
                      length tab = samples) as Htotal.
  { intros Hs. unfold TDraw1D_new. rewrite decide_True by done.
    destruct (cumulative_shape func _x_min _x_max samples is_log)
      as ([P_of_x P_norm] & -> & HP). simpl in HP.
    cbn [mbind option_bind fst snd].
    destruct (invert_loop_shape P_of_x _x_min
                ((_x_max - _x_min) / pred_double samples)
                (1 / pred_double samples) P_norm samples
                (new_interp samples (-1),
                 (_x_min + INR (samples - 1)
                           * ((_x_max - _x_min) / pred_double samples), 0%nat)))
      as (st & -> & Hst); [done|apply length_replicate|].
    cbn [mbind option_bind]. unfold TMultiLinearInterp in *.
    rewrite store_in_range by lia. cbn [mbind option_bind].
    eexists. split; [done|]. by rewrite length_insert. }
  split.
  - split.
    + intros [d Hd]. unfold TDraw1D_new in Hd. by case_decide.
    + intros Hs. destruct (Htotal Hs) as (tab & -> & _). done.
  - intros d Hd.
    assert (1 < samples)%nat as Hs.
    { unfold TDraw1D_new in Hd. by case_decide. }
    pose proof (TDraw1D_new_endpoint _ _ _ _ _ _ Hd) as Hend.
    destruct (Htotal Hs) as (tab & Htab & Hlen).
    rewrite Htab in Hd. injection Hd as <-. done.
Qed.

(** ** The rescaling branch of [gen_rand_los_extinction] *)

Lemma rescale_loop (factor : R) (E : list R) :
  for_range (length E) 0 (rescale_body factor) E
  = Some ((fun e => e * factor) <$> E).
Proof.
  destruct (for_range_total
              (fun i (E' : list R) =>
                 E' = ((fun e => e * factor) <$> take i E) ++ drop i E)
              (rescale_body factor) (length E) 0 E) as (E' & Hrun & HE').
  - by rewrite take_0, drop_0.
  - intros i E' Hi ->.
    destruct (lookup_lt_is_Some_2 E i ltac:(lia)) as [cur Hcur].
    assert (length ((fun e => e * factor) <$> take i E) = i) as Hlen.
    { rewrite length_fmap, length_take. lia. }
    unfold rescale_body.
    rewrite lookup_app_r by lia. rewrite Hlen, Nat.sub_diag.
    rewrite lookup_drop, Nat.add_0_r, Hcur. simpl.
    rewrite store_in_range
      by (rewrite length_app, length_drop, Hlen; lia).
    eexists. split; [done|].
    rewrite (take_S_r _ _ _ Hcur), fmap_app, <- app_assoc. simpl.
    rewrite (drop_S _ _ _ Hcur).
    rewrite insert_app_r_alt by lia. by rewrite Hlen, Nat.sub_diag.
  - rewrite Hrun, HE'. simpl. by rewrite take_ge, drop_ge, app_nil_r by lia.
Qed.

Lemma psum_nonneg_any (d : nat -> R) :
  (forall j, 0 <= d j) -> forall j, 0 <= psum d j.
Proof.
  intros Hd j. induction j as [|j IH]; simpl; [apply Hd|].
  pose proof (Hd (Datatypes.S j)). lra.
Qed.

Lemma psum_monotone_any (d : nat -> R) :
  (forall j, 0 <= d j) ->
  forall j' j, (j' <= j)%nat -> psum d j' <= psum d j.
Proof.
  intros Hd j' j Hle. induction Hle as [|j Hle IH]; [lra|].
  simpl. pose proof (Hd (Datatypes.S j)). lra.
Qed.

(** X21: Whatever non-negative deviates the generator hands out (not
    only those below 1), the state of [gen_rand_los_extinction] is the
    rescaled cumulative sum of the scaled deviates, its last entry is
    below [0.95 * rect.max[1]], and it is outside the rejection set of
    the log-posterior: the rescaling branch, which brings the last entry
    to [0.9 * rect.max[1]], sees to it. *)
Theorem gen_rand_los_extinction_rescales (rc : TRect.t) (EBV : list R)
    (N : nat) (r : gsl_rng) (params : TLOSMCMCParams) :
  rect (img_stack params) = live rc ->
  (1 <= N)%nat ->
  (TRect.max rc).2 > 0 ->
  (forall n, 0 <= draws r n) ->
  length EBV = N ->
  exists E,
    gen_rand_los_extinction EBV N r params
      = Some (E, mkRng (draws r) (drawn r + N)) /\
    E = rescaled (TRect.max rc).2 N
          (cumulative_sums
             (scaled_draw ((TRect.max rc).2 / INR N) r <$> seq 0 N)) /\
    (exists eN, E !! (N - 1)%nat = Some eN /\ eN < 0.95 * (TRect.max rc).2 /\
       (psum (scaled_draw ((TRect.max rc).2 / INR N) r) (N - 1)
          >= 0.95 * (TRect.max rc).2 -> eN = 0.9 * (TRect.max rc).2)) /\
    ~ rejected rc E N.
Proof.
  intros Hrect HN Hmax Hdraws Hlen.
  remember (TRect.max rc).2 as ceil eqn:Hceil.
  remember (ceil / INR N) as mu eqn:Hmudef.
  assert (0 < INR N) as HNpos by (apply lt_0_INR; lia).
  assert (0 < mu) as Hmu by (subst mu; apply Rdiv_lt_0_compat; lra).
  assert (forall j, 0 <= scaled_draw mu r j) as Hd.
  { intros j. unfold scaled_draw.
    pose proof (Hdraws (drawn r + j)%nat). nra. }
  pose proof (psum_nonneg_any _ Hd) as Hnn.
  pose proof (psum_monotone_any _ Hd) as Hmono.
  destruct (fill_loop mu r N EBV Hlen) as ([E g] & Hfill & HE & Hg & Hval).
  simpl in HE, Hg, Hval.
  assert (E = cumulative_sums (scaled_draw mu r <$> seq 0 N)) as HEq.
  { apply list_eq. intros j. destruct (decide (j < N)%nat) as [Hj|Hj].
    - by rewrite cumulative_sums_lookup, Hval.
    - rewrite !lookup_ge_None_2; [done| |];
        rewrite ?cumulative_sums_length, ?length_fmap, ?length_seq; lia. }
  rewrite <- HEq.
  assert (E !! (N - 1)%nat = Some (psum (scaled_draw mu r) (N - 1))) as Hlast
    by (apply Hval; lia).
  remember (psum (scaled_draw mu r) (N - 1)) as eN eqn:HeN.
  unfold gen_rand_los_extinction. rewrite Hrect. simpl.
  rewrite <- Hceil, <- Hmudef, Hfill. simpl.
  assert (at_last E N = Some eN) as ->.
  { destruct N as [|n]; [lia|]. simpl.
    by replace (Datatypes.S n - 1)%nat with n in Hlast by lia. }
  simpl. unfold rescaled. rewrite Hlast.
  destruct (decide (eN >= 0.95 * ceil)) as [Hbig|Hsmall].
  - (* the rescaling branch *)
    rewrite <- HE, rescale_loop. simpl. rewrite HE.
    remember (0.9 * ceil / eN) as factor eqn:Hfactor.
    assert (0 < factor) as Hfpos
      by (subst factor; apply Rdiv_lt_0_compat; lra).
    assert (eN * factor = 0.9 * ceil) as Hprod by (subst factor; field; lra).
    eexists. split; [by subst g|]. split; [done|]. split.
    + exists (eN * factor). rewrite list_lookup_fmap, Hlast. simpl.
      split; [done|]. split; [lra|]. intros _. done.
    + intros [(e & He & Hge)|[(e0 & He0 & Hlt)|(i & ei & ej & Hi & Hei & Hej & Hlt)]].
      * rewrite list_lookup_fmap, Hlast in He. injection He as <-.
        rewrite <- Hceil in Hge. lra.
      * rewrite list_lookup_fmap, Hval in He0 by lia. injection He0 as <-.
        pose proof (Rmult_le_pos _ _ (Hd 0%nat) (Rlt_le _ _ Hfpos)). lra.
      * rewrite list_lookup_fmap, Hval in Hei by lia.
        rewrite list_lookup_fmap, Hval in Hej by lia.
        injection Hei as <-. injection Hej as <-.
        pose proof (Rmult_le_compat_r factor _ _ (Rlt_le _ _ Hfpos)
                      (Hmono (i - 1)%nat i ltac:(lia))). lra.
  - eexists. split; [by subst g|]. split; [done|]. split.
    + exists eN. split; [done|]. split; [lra|]. intros Hge. lra.
    + intros [(e & He & Hge)|[(e0 & He0 & Hlt)|(i & ei & ej & Hi & Hei & Hej & Hlt)]].
      * rewrite Hlast in He. injection He as <-.
        rewrite <- Hceil in Hge. lra.
      * rewrite Hval in He0 by lia. injection He0 as <-.
        pose proof (Hd 0%nat). lra.
      * rewrite Hval in Hei by lia. rewrite Hval in Hej by lia.
        injection Hei as <-. injection Hej as <-.
        pose proof (Hmono (i - 1)%nat i ltac:(lia)). lra.
Qed.

Lemma gen_rand_los_extinction_rescales_witness :
  exists E,
    gen_rand_los_extinction [0; 0] 2 (mkRng (fun _ => 3) 0) ex_params
      = Some (E, mkRng (draws (mkRng (fun _ => 3) 0))
                   (drawn (mkRng (fun _ => 3) 0) + 2)) /\
    E = rescaled (TRect.max ex_rect).2 2
          (cumulative_sums
             (scaled_draw ((TRect.max ex_rect).2 / INR 2)
                (mkRng (fun _ => 3) 0) <$> seq 0 2)) /\
    (exists eN, E !! (2 - 1)%nat = Some eN /\
       eN < 0.95 * (TRect.max ex_rect).2 /\
       (psum (scaled_draw ((TRect.max ex_rect).2 / INR 2)
                (mkRng (fun _ => 3) 0)) (2 - 1)
          >= 0.95 * (TRect.max ex_rect).2 ->
        eN = 0.9 * (TRect.max ex_rect).2)) /\
    ~ rejected ex_rect E 2.
Proof.
  apply (gen_rand_los_extinction_rescales ex_rect [0; 0] 2
           (mkRng (fun _ => 3) 0) ex_params).
  - reflexivity.
  - lia.
  - simpl. lra.
  - intros n. simpl. lra.
  - reflexivity.
Defined.
